(** * vs-docblockr: the lexer and the per-language parsers

    A shallow embedding of the lexer, of [JavaScript.tokenize] and of the
    [C] parser, followed by the properties the specification states
    about them.

    The sources hold the lexer twice: [src/lexer.ts], and a later
    revision of the same file (after [JavaScript.tokenize] in
    [src/languages/JavaScript.ts]) that calls the [colon] recognizer from
    [advance], widens the pattern of [tag] and keeps the empty string as
    the value of an attribute without one.  The two are one model with a
    [Revision] parameter at the three places where they differ.  The [C]
    parser is the class after the SCSS tests in
    [test/languages/scss.test.ts].

    Strings are JavaScript strings: sequences of UTF-16 code units.  A
    code unit is a number ([N]); a string is a list of code units. *)

From Stdlib Require Import ZArith NArith Lia Ascii String.
From stdpp Require Import prelude strings gmap.

Set Default Proof Using "Type".
Local Open Scope Z_scope.

(** ** Characters and strings *)

Definition char := N.
Definition str := list char.

(** [chr "a"] is the code unit of an ASCII character, [lit "abc"] the
    JavaScript string with these characters. *)
Definition chr (a : ascii) : char := N_of_ascii a.
Definition lit (s : string) : str := chr <$> String.list_ascii_of_string s.
Arguments chr : simpl never.

Definition LF : char := 10%N.
Definition CR : char := 13%N.
Definition TAB : char := 9%N.
Definition BOM : char := 65279%N.

Definition is_chr (a : ascii) (c : char) : bool := N.eqb c (chr a).
Definition one_of (s : string) (c : char) : bool := existsb (N.eqb c) (lit s).
Definition between (lo hi : ascii) (c : char) : bool :=
  N.leb (chr lo) c && N.leb c (chr hi).

(** The same tests on [s[i]], which is [undefined] past the end. *)
Definition is_chr_opt (a : ascii) (c : option char) : bool :=
  from_option (is_chr a) false c.

Definition str_eqb (s t : str) : bool := bool_decide (s = t).

Fixpoint take_while {A} (p : A -> bool) (l : list A) : list A :=
  match l with
  | x :: l' => if p x then x :: take_while p l' else []
  | [] => []
  end.

Fixpoint drop_while {A} (p : A -> bool) (l : list A) : list A :=
  match l with
  | x :: l' => if p x then drop_while p l' else l
  | [] => []
  end.

(** [drop_while] from the right end. *)
Definition drop_while_end {A} (p : A -> bool) (l : list A) : list A :=
  reverse (drop_while p (reverse l)).

(** [\w] of a JavaScript regular expression without the [u] flag. *)
Definition re_word (c : char) : bool :=
  between "a" "z" c || between "A" "Z" c || between "0" "9" c || is_chr "_" c.
Definition re_alnum (c : char) : bool :=
  between "a" "z" c || between "A" "Z" c || between "0" "9" c.
Definition re_digit (c : char) : bool := between "0" "9" c.
Definition not_lf (c : char) : bool := negb (N.eqb c LF).

(** [String.prototype.trim]: white space and line terminators of
    ECMAScript. *)
Definition js_space (c : char) : bool :=
  (N.leb 9 c && N.leb c 13) || N.eqb c 32 || N.eqb c 160 || N.eqb c 5760
  || (N.leb 8192 c && N.leb c 8202) || N.eqb c 8232 || N.eqb c 8233
  || N.eqb c 8239 || N.eqb c 8287 || N.eqb c 12288 || N.eqb c 65279.

Definition trim (s : str) : str := drop_while_end js_space (drop_while js_space s).

(** [s.substr(n)] and [s.substr(n, len)] for non-negative [n]. *)
Definition substr_from (n : nat) (s : str) : str := drop n s.
Definition substr (n len : nat) (s : str) : str := take len (drop n s).

(** ** What the lexer throws

    [Lexer.error] throws its message, a string; the constructors are the
    throw sites, with the text interpolated into the message. *)

(** An exception object of one of the packages the lexer calls
    ([character-parser], [is-expression] and, through it, [acorn]). *)
Record Exception := mkException {
  ex_message : str;
  ex_loc : option (Z * Z)   (* [ex.loc.line], [ex.loc.column] *)
}.

Inductive Thrown :=
| UnexpectedText (prefix : str)          (* [fail] *)
| StartCharacter                         (* [bracketExpression] *)
| BracketMessage (msg : str)             (* [throw ex.message] in [bracketExpression] *)
| NestingMustMatch (exp : str)           (* [checkNesting] *)
| UnexpectedAfterQuote (c : char)        (* [attrs], after a quoted key *)
| UnexpectedExpectedEq (c : option char) (* [attrs], [!] without [=] *)
| SyntaxError (msg : str)                (* [checkExpression] *)
| Uncaught (ex : Exception)              (* an exception the lexer lets through *)
| TypeError (what : string).             (* a property of [undefined] was read *)

Inductive result (A : Type) :=
| Ok (a : A)
| Throw (e : Thrown).
Arguments Ok {A} a.
Arguments Throw {A} e.

#[global] Instance result_ret : MRet result := fun A a => Ok a.
#[global] Instance result_bind : MBind result := fun A B k r =>
  match r with
  | Ok a => k a
  | Throw e => Throw e
  end.

(** ** Tokens *)

(** The values a token's [val] takes: absent, a string, or (in
    [src/lexer.ts]) the boolean [true]. *)
Inductive JsVal :=
| Undefined
| Str (s : str)
| Bool (b : bool).

Record Lexed := mkLexed {
  name : option str;
  type : string;
  line : Z;
  col : Z;
  val : JsVal;
  buffer : option bool;
  mustEscape : option bool
}.

(** ** The packages behind the lexer

    [character-parser] and [is-expression] are not part of the
    repository; the lexer is modelled over their interface. *)
Record Range := mkRange { r_start : nat; r_end : nat; r_src : str }.

Class Packages := {
  (** the state object of [character-parser] *)
  State : Type;
  defaultState : State;
  (** [parseChar(character, state)]; [character] is [attrStr[i]] and so
      may be [undefined] *)
  parseChar : option char -> State -> Exception + State;
  isNesting : State -> bool;
  isString : State -> bool;
  (** [parse(src)] *)
  parse : str -> Exception + State;
  (** [parseUntil(src, delimiter, {start})] *)
  parseUntil : str -> char -> nat -> Exception + Range;
  isPunctuator : char -> bool;
  (** [isExpression(src, {throw: true})]: returns, or throws *)
  isExpression : str -> option Exception
}.

(** The two revisions of the lexer: [src/lexer.ts], and the later one. *)
Inductive Revision := Original | Later.

(** ** Regular expressions of the lexer

    Each regular expression of the lexer is a function from the remaining
    input to what [exec] captures, [None] when it does not match. *)

(** [tag]: [/^([E](?:[I]*[E])?)/], where [E] is [[a-zA-Z0-9$]] and [I] is
    [[-:a-zA-Z0-9$]] in [src/lexer.ts]; the later revision has
    [[_\w<>?\[\]$]] and [[_\-:\w<>?\[\]$]].  The inner run is greedy and
    gives back characters until it ends in an [E]. *)
Definition tag_edge (rev : Revision) (c : char) : bool :=
  match rev with
  | Original => re_alnum c || is_chr "$" c
  | Later => re_word c || one_of "<>?[]$" c
  end.

Definition tag_inner (rev : Revision) (c : char) : bool :=
  tag_edge rev c || one_of "-:" c.

Definition tag_regex (rev : Revision) (s : str) : option str :=
  match s with
  | c :: rest =>
    if tag_edge rev c
    then Some (c :: drop_while_end (fun x => negb (tag_edge rev x))
                      (take_while (tag_inner rev) rest))
    else None
  | [] => None
  end.

(** [code]: [/^(!?=|-)[ \t]*([^\n]+)/]; the result is [matches[0]],
    [matches[1]] and [matches[2]].  When nothing but blanks is left on the
    line, the last blank is given back and becomes the code. *)
Definition blank (c : char) : bool := is_chr " " c || N.eqb c TAB.

Definition code_flags (s : str) : option (str * str) :=
  match s with
  | c :: r =>
    if is_chr "=" c then Some ([c], r)
    else if is_chr "-" c then Some ([c], r)
    else if is_chr "!" c then
      match r with
      | d :: r' => if is_chr "=" d then Some ([c; d], r') else None
      | [] => None
      end
    else None
  | [] => None
  end.

Definition code_regex (s : str) : option (str * str * str) :=
  '(flags, r) ← code_flags s;
  let ws := take_while blank r in
  match take_while not_lf (drop_while blank r) with
  | [] => w ← last ws; Some (flags ++ ws, flags, [w])
  | body => Some (flags ++ ws ++ body, flags, body)
  end.

(** [text]: [/^(?:\| ?| )([^\n]+)/], then [/^\|?( )/]; the result is the
    length of [captures[0]] and [captures[1]]. *)
Definition text_regex1 (s : str) : option (nat * option str) :=
  match s with
  | c :: r =>
    if is_chr "|" c then
      match r with
      | d :: r' =>
        if is_chr " " d then
          match take_while not_lf r' with
          | [] => Some (2%nat, Some [d])
          | v => Some (2 + length v, Some v)%nat
          end
        else
          match take_while not_lf r with
          | [] => None
          | v => Some (1 + length v, Some v)%nat
          end
      | [] => None
      end
    else if is_chr " " c then
      match take_while not_lf r with
      | [] => None
      | v => Some (1 + length v, Some v)%nat
      end
    else None
  | [] => None
  end.

Definition text_regex2 (s : str) : option (nat * option str) :=
  match s with
  | c :: r =>
    if is_chr " " c then Some (1%nat, Some [c])
    else if is_chr "|" c then
      match r with
      | d :: _ => if is_chr " " d then Some (2%nat, Some [d]) else None
      | [] => None
      end
    else None
  | [] => None
  end.

(** [colon]: [/^: +/], which has no capture group. *)
Definition colon_regex (s : str) : option (nat * option str) :=
  match s with
  | c :: r =>
    if is_chr ":" c then
      match take_while (is_chr " ") r with
      | [] => None
      | sp => Some (1 + length sp, None)%nat
      end
    else None
  | [] => None
  end.

(** [ex.message.replace(/ \([0-9]+:[0-9]+\)$/, '')] *)
Definition strip_position (m : str) : str :=
  match reverse m with
  | c :: r =>
    if is_chr ")" c then
      match take_while re_digit r, drop_while re_digit r with
      | _ :: _, d :: r' =>
        if is_chr ":" d then
          match take_while re_digit r', drop_while re_digit r' with
          | _ :: _, p :: sp :: r'' =>
            if is_chr "(" p && is_chr " " sp then reverse r'' else m
          | _, _ => m
          end
        else m
      | _, _ => m
      end
    else m
  | [] => m
  end.

(** [key.replace(/^['"]|['"]$/g, '')]: one quote off the front, then one
    off the end of what is left. *)
Definition quoteRe (c : char) : bool := is_chr "'" c || N.eqb c 34.

Definition strip_quotes (k : str) : str :=
  let k1 := match k with
            | c :: k' => if quoteRe c then k' else k
            | [] => []
            end in
  match last k1 with
  | Some c => if quoteRe c then take (length k1 - 1) k1 else k1
  | None => k1
  end.

(** [code.replace(/^\uFEFF/, '')] and [code.replace(/\r\n|\r/g, '\n')] of
    the constructor. *)
Definition strip_bom (code : str) : str :=
  match code with
  | c :: code' => if N.eqb c BOM then code' else code
  | [] => []
  end.

Fixpoint replace_cr (code : str) : str :=
  match code with
  | [] => []
  | c :: code' =>
    if N.eqb c CR then
      match code' with
      | d :: code'' =>
        if N.eqb d LF then LF :: replace_cr code'' else LF :: replace_cr code'
      | [] => [LF]
      end
    else c :: replace_cr code'
  end.

(** ** The lexer *)

(** The fields of a [Lexer] object.  [consumed] is not a field of the
    source: it records, oldest first, the substring each call of [consume]
    removed from [input], for the statement of the coverage property. *)
Record Lexer := mkLexer {
  column : Z;
  ended : bool;
  input : str;
  this_line : Z;          (* [this.line] *)
  tokens : list Lexed;
  consumed : list str
}.

Definition new_Lexer (code : str) : Lexer :=
  {| input := replace_cr (strip_bom code);
     this_line := 1; column := 1; tokens := []; ended := false;
     consumed := [] |}.

Definition tokenize (lx : Lexer) (ty : string) (v : JsVal) : Lexed :=
  {| type := ty; line := this_line lx; col := column lx; val := v;
     name := None; buffer := None; mustEscape := None |}.

Definition push (tok : Lexed) (lx : Lexer) : Lexer :=
  {| tokens := tokens lx ++ [tok];
     column := column lx; ended := ended lx; input := input lx;
     this_line := this_line lx; consumed := consumed lx |}.

Definition consume (n : nat) (lx : Lexer) : Lexer :=
  {| input := substr_from n (input lx);
     consumed := consumed lx ++ [substr 0 n (input lx)];
     column := column lx; ended := ended lx; this_line := this_line lx;
     tokens := tokens lx |}.

Definition set_column (c : Z) (lx : Lexer) : Lexer :=
  {| column := c;
     ended := ended lx; input := input lx; this_line := this_line lx;
     tokens := tokens lx; consumed := consumed lx |}.

Definition set_line (l : Z) (lx : Lexer) : Lexer :=
  {| this_line := l;
     column := column lx; ended := ended lx; input := input lx;
     tokens := tokens lx; consumed := consumed lx |}.

Definition set_ended (lx : Lexer) : Lexer :=
  {| ended := true;
     column := column lx; input := input lx; this_line := this_line lx;
     tokens := tokens lx; consumed := consumed lx |}.

Definition incrementColumn (increment : Z) (lx : Lexer) : Lexer :=
  set_column (column lx + increment) lx.

Definition incrementLine (increment : Z) (lx : Lexer) : Lexer :=
  let lx := set_line (this_line lx + increment) lx in
  if Z.eqb increment 0 then lx else set_column 1 lx.

(** A recognizer returns [true] with the lexer changed ([Some]), returns
    a falsy value with the lexer as it was ([None]), or throws. *)
Definition recognized := result (option Lexer).

Definition orelse (r : recognized) (k : recognized) : recognized :=
  match r with
  | Ok None => k
  | _ => r
  end.
Infix "<||>" := orelse (at level 51, right associativity).

Inductive Loc := LocKey | LocKeyChar | LocValue.

Section WithPackages.
Context {P : Packages}.
Variable rev : Revision.

Definition eos (lx : Lexer) : recognized :=
  match input lx with
  | _ :: _ => Ok None
  | [] => Ok (Some (set_ended (push (tokenize lx "eos" Undefined) lx)))
  end.

Definition fail (lx : Lexer) : recognized :=
  Throw (UnexpectedText (substr 0 5 (input lx))).

(** [checkExpression(exp, noThrow)].  On the throwing path the source
    first moves [line] and [column] by [ex.loc]; the lexer object is
    not seen again after the throw. *)
Definition checkExpression (exp : str) (noThrow : bool) : result bool :=
  match isExpression exp with
  | None => Ok true
  | Some ex =>
    if noThrow then Ok false
    else match ex_loc ex with
         | None => Throw (Uncaught ex)
         | Some _ => Throw (SyntaxError (lit "Syntax Error: " ++ strip_position (ex_message ex)))
         end
  end.

Definition scan (regex : str -> option (nat * option str)) (ty : string)
    (lx : Lexer) : option (Lexed * Lexer) :=
  '(len, value) ← regex (input lx);
  let diff := (Z.of_nat len - Z.of_nat (from_option length 0%nat value)) in
  let tok := tokenize lx ty (from_option Str Undefined value) in
  Some (tok, incrementColumn diff (consume len lx)).

Definition tag (lx : Lexer) : recognized :=
  match tag_regex rev (input lx) with
  | Some name =>
    let len := length name in
    let lx := consume len lx in
    let lx := push (tokenize lx "tag" (Str name)) lx in
    Ok (Some (incrementColumn (Z.of_nat len) lx))
  | None => Ok None
  end.

Definition code (lx : Lexer) : recognized :=
  match code_regex (input lx) with
  | Some (all, flags, code) =>
    let lx := consume (length all) lx in
    let tok := tokenize lx "code" (Str code) in
    let buf := is_chr_opt "=" (flags !! 0%nat) || is_chr_opt "=" (flags !! 1%nat) in
    let tok := {| mustEscape := Some (is_chr_opt "=" (flags !! 0%nat));
                  buffer := Some buf;
                  type := type tok; line := line tok; col := col tok;
                  val := val tok; name := name tok |} in
    let lx := incrementColumn (Z.of_nat (length all) - Z.of_nat (length code)) lx in
    (if buf then checkExpression code false else Ok true);;
    let lx := push tok lx in
    Ok (Some (incrementColumn (Z.of_nat (length code)) lx))
  | None => Ok None
  end.

Definition text (lx : Lexer) : recognized :=
  match (match scan text_regex1 "text" lx with
         | Some r => Some r
         | None => scan text_regex2 "text" lx
         end) with
  | Some (tok, lx) =>
    match val tok with
    | Str v =>
      let lx := push (tokenize lx "text" (Str v)) lx in
      Ok (Some (incrementColumn (Z.of_nat (length v)) lx))
    | _ => Throw (TypeError "tok.val")
    end
  | None => Ok None
  end.

Definition colon (lx : Lexer) : recognized :=
  match scan colon_regex ":" lx with
  | Some (tok, lx) => Ok (Some (push tok lx))
  | None => Ok None
  end.

Definition checkNesting (exp : str) : result unit :=
  match parse exp with
  | inl ex => Throw (Uncaught ex)
  | inr st => if isNesting st then Throw (NestingMustMatch exp) else Ok ()
  end.

(** [bracketExpression(skip)]; [skip || 0] is [skip]. *)
Definition bracketExpression (skip : nat) (lx : Lexer) : result Range :=
  let start := input lx !! skip in
  end_ ← (if is_chr_opt "(" start then Ok (chr ")")
          else if is_chr_opt "[" start then Ok (chr "]")
          else if is_chr_opt "{" start then Ok (chr "}")
          else Throw StartCharacter);
  match parseUntil (input lx) end_ (skip + 1) with
  | inl ex => Throw (BracketMessage (ex_message ex))
  | inr range => Ok range
  end.
End WithPackages.

(** *** The attribute list

    The locals of [attrs], together with the lexer object.  The loop
    [for (i = 0; i <= attrStr.length; i++)] is a recursion over
    [attrStr.substr(i)], here [rest]: [attrStr[i]] is its head
    ([undefined] once it is empty, at [i === attrStr.length]) and
    [attrStr[i + 1]] the head of its tail. *)
Section Attributes.
Context {P : Packages}.
Variable rev : Revision.

Record AttrState := mkAttrState {
  this : Lexer;
  quote : option char;     (* [''] is [None] *)
  escapedAttr : bool;
  key : str;
  value : str;             (* the local [val] *)
  state : State;
  local_line : Z;          (* the local [line] *)
  columnBeginAttr : Z;
  columnBeginVal : Z;      (* read only after a value has begun *)
  loc : Loc
}.

Definition whitespaceRe (c : char) : bool :=
  is_chr " " c || N.eqb c LF || N.eqb c TAB.

(** [s += attrStr[i]]; adding [undefined] adds the text "undefined". *)
Definition append_char (s : str) (c : option char) : str :=
  match c with
  | Some c => s ++ [c]
  | None => s ++ lit "undefined"
  end.

Definition with_this (f : Lexer -> Lexer) (a : AttrState) : AttrState :=
  {| this := f (this a);
     quote := quote a; escapedAttr := escapedAttr a; key := key a;
     value := value a; state := state a; local_line := local_line a;
     columnBeginAttr := columnBeginAttr a;
     columnBeginVal := columnBeginVal a; loc := loc a |}.

(** [isEndOfAttribute(j)], with [rest = attrStr.substr(j)]; it also
    assigns [columnBeginAttr]. *)
Definition isEndOfAttribute (rest : str) (a : AttrState)
    : result (bool * AttrState) :=
  if str_eqb (trim (key a)) [] then
    Ok (false,
        {| columnBeginAttr := column (this a);
           this := this a; quote := quote a; escapedAttr := escapedAttr a;
           key := key a; value := value a; state := state a;
           local_line := local_line a;
           columnBeginVal := columnBeginVal a; loc := loc a |})
  else
    match rest with
    | [] => Ok (true, a)
    | c :: _ =>
      match loc a with
      | LocKey =>
        if whitespaceRe c then
          match drop_while whitespaceRe rest with
          | x :: _ =>
            if is_chr "=" x || is_chr "!" x then Ok (false, a)
            else if is_chr "," x then Ok (false, a)
            else Ok (true, a)
          | [] => Ok (is_chr "," c, a)
          end
        else Ok (is_chr "," c, a)
      | LocValue =>
        if isNesting (state a) || isString (state a) then Ok (false, a)
        else
          valid ← checkExpression (value a) true;
          if negb valid then Ok (false, a)
          else if whitespaceRe c then
            match drop_while whitespaceRe rest with
            | x :: _ => Ok (negb (isPunctuator x) || quoteRe x, a)
            | [] => Ok (is_chr "," c, a)
            end
          else Ok (is_chr "," c, a)
      | LocKeyChar => Ok (false, a)
      end
    end.

(** The attribute token pushed at the end of an attribute.  In
    [src/lexer.ts] its [val] is [true] when there is no value; in the
    later revision it is the (empty) value. *)
Definition attribute_val (v : str) : JsVal :=
  match rev with
  | Original => if str_eqb v [] then Bool true else Str v
  | Later => Str v
  end.

(** The branch of the loop body taken at the end of an attribute.
    Around [checkExpression(val)] the source sets [column] to
    [columnBeginVal] and then back to what it was. *)
Definition end_of_attribute (a : AttrState) : result AttrState :=
  (if str_eqb (trim (value a)) [] then Ok true
   else checkExpression (value a) false);;
  let v := trim (value a) in
  let k := strip_quotes (trim (key a)) in
  let tok := {| type := "attribute"; line := this_line (this a);
                name := Some k; val := attribute_val v;
                col := columnBeginAttr a;
                mustEscape := Some (escapedAttr a); buffer := None |} in
  Ok {| this := set_line (local_line a) (push tok (this a));
        key := []; value := []; loc := LocKey; escapedAttr := false;
        quote := quote a; state := state a; local_line := local_line a;
        columnBeginAttr := columnBeginAttr a;
        columnBeginVal := columnBeginVal a |}.

(** The [switch (loc)] of the loop body.  The boolean says that the
    body did [i++] (after a [!]). *)
Definition attribute_char (rest : str) (a : AttrState)
    : result (AttrState * bool) :=
  let c := head rest in
  match loc a with
  | LocKeyChar =>
    if bool_decide (c = quote a /\ is_Some c) then
      let a' := {| loc := LocKey;
                   this := this a; quote := quote a;
                   escapedAttr := escapedAttr a; key := key a;
                   value := value a; state := state a;
                   local_line := local_line a;
                   columnBeginAttr := columnBeginAttr a;
                   columnBeginVal := columnBeginVal a |} in
      match tail rest with
      | d :: _ =>
        if negb (one_of " ,!=" d || N.eqb d LF || N.eqb d TAB)
        then Throw (UnexpectedAfterQuote d) else Ok (a', false)
      | [] => Ok (a', false)
      end
    else
      Ok ({| key := append_char (key a) c;
             this := this a; quote := quote a;
             escapedAttr := escapedAttr a; value := value a;
             state := state a; local_line := local_line a;
             columnBeginAttr := columnBeginAttr a;
             columnBeginVal := columnBeginVal a; loc := loc a |}, false)
  | LocKey =>
    if str_eqb (key a) [] && from_option quoteRe false c then
      Ok ({| loc := LocKeyChar; quote := c;
             this := this a; escapedAttr := escapedAttr a; key := key a;
             value := value a; state := state a;
             local_line := local_line a;
             columnBeginAttr := columnBeginAttr a;
             columnBeginVal := columnBeginVal a |}, false)
    else if is_chr_opt "!" c || is_chr_opt "=" c then
      let bang := is_chr_opt "!" c in
      let lx := if bang then incrementColumn 1 (this a) else this a in
      let c' := if bang then head (tail rest) else c in
      if negb (is_chr_opt "=" c') then Throw (UnexpectedExpectedEq c')
      else
        Ok ({| escapedAttr := negb bang; this := lx; loc := LocValue;
               columnBeginVal := column lx + 1; state := defaultState;
               quote := quote a; key := key a; value := value a;
               local_line := local_line a;
               columnBeginAttr := columnBeginAttr a |}, bang)
    else
      Ok ({| key := append_char (key a) c;
             this := this a; quote := quote a;
             escapedAttr := escapedAttr a; value := value a;
             state := state a; local_line := local_line a;
             columnBeginAttr := columnBeginAttr a;
             columnBeginVal := columnBeginVal a; loc := loc a |}, false)
  | LocValue =>
    match parseChar c (state a) with
    | inl ex => Throw (Uncaught ex)
    | inr st =>
      Ok ({| state := st; value := append_char (value a) c;
             this := this a; quote := quote a;
             escapedAttr := escapedAttr a; key := key a;
             local_line := local_line a;
             columnBeginAttr := columnBeginAttr a;
             columnBeginVal := columnBeginVal a; loc := loc a |}, false)
    end
  end.

(** The check for a new line that ends the loop body, on [attrStr[i]]
    ([c]). *)
Definition new_line_check (c : option char) (a : AttrState) : AttrState :=
  match c with
  | Some ch =>
    if N.eqb ch LF then
      let l := local_line a + 1 in
      let lx := set_column 1 (this a) in
      let lx := if str_eqb (trim (key a)) [] then set_line l lx else lx in
      {| local_line := l; this := lx;
         quote := quote a; escapedAttr := escapedAttr a; key := key a;
         value := value a; state := state a;
         columnBeginAttr := columnBeginAttr a;
         columnBeginVal := columnBeginVal a; loc := loc a |}
    else with_this (incrementColumn 1) a
  | None => a
  end.

(** One turn of the loop body at [rest = attrStr.substr(i)]. *)
Definition attribute_turn (rest : str) (a : AttrState)
    : result (AttrState * bool) :=
  '(is_end, a) ← isEndOfAttribute rest a;
  '(a, skipped) ← (if is_end : bool
                   then a' ← end_of_attribute a; Ok (a', false)
                   else attribute_char rest a);
  let c := if skipped : bool then head (tail rest) else head rest in
  Ok (new_line_check c a, skipped).

Fixpoint attribute_loop (rest : str) (a : AttrState) : result AttrState :=
  '(a, skipped) ← attribute_turn rest a;
  match rest with
  | [] => Ok a
  | _ :: rest1 =>
    if skipped : bool then
      match rest1 with
      | [] => Ok a
      | _ :: rest2 => attribute_loop rest2 a
      end
    else attribute_loop rest1 a
  end.

Definition attrs (lx : Lexer) : recognized :=
  if is_chr_opt "(" (input lx !! 0%nat) then
    let startingLine := this_line lx in
    let lx := push (tokenize lx "start-attributes" Undefined) lx in
    range ← bracketExpression 0 lx;
    let index := r_end range in
    let attrStr := substr 1 (index - 1) (input lx) in
    let lx := incrementColumn 1 lx in
    checkNesting attrStr;;
    let lx := consume (index + 1) lx in
    a ← attribute_loop attrStr
           {| this := lx; quote := None; escapedAttr := true; key := [];
              value := []; state := defaultState;
              local_line := startingLine;
              columnBeginAttr := column lx; columnBeginVal := 0;
              loc := LocKey |};
    let lx := this a in
    let lx := set_line (startingLine
                        + Z.of_nat (length (filter (fun c => c = LF) attrStr))) lx in
    let lx := push (tokenize lx "end-attributes" Undefined) lx in
    Ok (Some (incrementColumn 1 lx))
  else Ok None.

(** [advance]: the recognizers in order.  [src/lexer.ts] does not call
    [colon]; the later revision calls it after [text]. *)
Definition advance (lx : Lexer) : result Lexer :=
  r ← (eos lx <||> tag rev lx <||> code lx <||> attrs lx <||> text lx
       <||> (match rev with Original => Ok None | Later => colon lx end)
       <||> fail lx);
  match r with
  | Some lx' => Ok lx'
  | None => Ok lx
  end.

(** [getTokens]: [while (!this.ended) advance()], with a bound on the
    number of turns. *)
Inductive Outcome :=
| Returned (lx : Lexer)
| Raised (e : Thrown)
| OutOfFuel.

Fixpoint getTokens_loop (fuel : nat) (lx : Lexer) : Outcome :=
  if ended lx then Returned lx
  else match fuel with
       | O => OutOfFuel
       | S fuel =>
         match advance lx with
         | Ok lx' => getTokens_loop fuel lx'
         | Throw e => Raised e
         end
       end.

Definition run (lx : Lexer) : Outcome :=
  getTokens_loop (S (length (input lx))) lx.

Definition getTokens (lx : Lexer) : option (result (list Lexed)) :=
  match run lx with
  | Returned lx' => Some (Ok (tokens lx'))
  | Raised e => Some (Throw e)
  | OutOfFuel => None
  end.
End Attributes.

(** ** A small instance of the packages

    Enough of [character-parser] and [is-expression] to run the lexer on
    concrete inputs: brackets and quoted strings are tracked (comments,
    regular-expression and template literals are not), and the only
    expressions accepted are decimal numbers.  Every general theorem
    below holds for all instances; this one is used at inputs on which
    it agrees with the packages. *)
Module Small.
Definition State : Type := list char * bool.   (* stack, escaped *)

Definition closer (c : char) : option char :=
  if is_chr "(" c then Some (chr ")")
  else if is_chr "[" c then Some (chr "]")
  else if is_chr "{" c then Some (chr "}")
  else None.

Definition is_quote (c : char) : bool := quoteRe c || is_chr "`" c.

Definition parseChar (c : option char) (st : State) : Exception + State :=
  match c with
  | None =>
    inl (mkException (lit "Cannot read property 'length' of undefined") None)
  | Some c =>
    let '(stack, escaped) := st in
    match stack with
    | top :: stack' =>
      if is_quote top then
        if N.eqb c top && negb escaped then inr (stack', false)
        else if is_chr "\" c && negb escaped then inr (stack, true)
        else inr (stack, false)
      else
        match closer c with
        | Some e => inr (e :: stack, false)
        | None =>
          if one_of ")]}" c then
            if N.eqb c top then inr (stack', false)
            else inl (mkException (lit "Mismatched Bracket: " ++ [c]) None)
          else if is_quote c then inr (c :: stack, false)
          else inr (stack, false)
        end
    | [] =>
      match closer c with
      | Some e => inr ([e], false)
      | None =>
        if one_of ")]}" c
        then inl (mkException (lit "Mismatched Bracket: " ++ [c]) None)
        else if is_quote c then inr ([c], false)
        else inr ([], false)
      end
    end
  end.

Definition defaultState : State := ([], false).
Definition isNesting (st : State) : bool :=
  match st.1 with [] => false | _ => true end.
Definition isString (st : State) : bool :=
  match st.1 with top :: _ => is_quote top | [] => false end.

Fixpoint parse_from (src : str) (st : State) : Exception + State :=
  match src with
  | [] => inr st
  | c :: src' =>
    match parseChar (Some c) st with
    | inl ex => inl ex
    | inr st' => parse_from src' st'
    end
  end.

Definition parse (src : str) : Exception + State := parse_from src defaultState.

Fixpoint parseUntil_from (rest : str) (delimiter : char) (index : nat)
    (st : State) : Exception + nat :=
  match rest with
  | [] =>
    inl (mkException
           (lit "The end of the string was reached with no closing bracket found.")
           None)
  | c :: rest' =>
    if negb (isNesting st) && N.eqb c delimiter then inr index
    else match parseChar (Some c) st with
         | inl ex => inl ex
         | inr st' => parseUntil_from rest' delimiter (S index) st'
         end
  end.

Definition parseUntil (src : str) (delimiter : char) (start : nat)
    : Exception + Range :=
  match parseUntil_from (drop start src) delimiter start defaultState with
  | inl ex => inl ex
  | inr e => inr (mkRange start e (take (e - start) (drop start src)))
  end.

Definition isPunctuator (c : char) : bool := one_of ".();,{}[]:?~%&*+-/<>^|!=" c.

Definition isExpression (src : str) : option Exception :=
  match trim src with
  | [] => Some (mkException (lit "Unexpected token (1:0)") (Some (1, 0)))
  | d :: ds =>
    if forallb re_digit (d :: ds) then None
    else Some (mkException (lit "Unexpected token (1:0)") (Some (1, 0)))
  end.

#[export] Instance packages : Packages :=
  Build_Packages State defaultState parseChar isNesting isString parse
    parseUntil isPunctuator isExpression.
End Small.

(** ** [JavaScript.tokenize] *)

Record Param := mkParam {
  param_name : option str;
  param_val : JsVal
}.

Record Return := mkReturn { present : bool }.

Record Tokens := mkTokens {
  tokens_name : JsVal;
  tokens_type : JsVal;
  params : list Param;
  return_ : Return
}.

(** The default value of the argument [tokens]. *)
Definition default_tokens : Tokens :=
  {| tokens_name := Str []; tokens_type := Str []; params := [];
     return_ := {| present := true |} |}.

(** The methods of the [Parser] base class that [tokenize] calls.  The
    base class is not among the sources, so they are parameters.
    [findByType(type, lexed)] returns one of the objects of [lexed], or a
    falsy value: here the position of that object, or [None]. *)
Class ParserBase := {
  lexer : str -> result (list Lexed);
  findByType : string -> list Lexed -> option nat;
  matchesGrammer : JsVal -> option string -> bool
}.

(** [settings.grammer.identifier], ['[a-zA-Z_$0-9]']. *)
Definition identifier (c : char) : bool :=
  between "a" "z" c || between "A" "Z" c || is_chr "_" c || is_chr "$" c
  || between "0" "9" c.

(** [.] of a regular expression: anything but a line terminator. *)
Definition re_dot (c : char) : bool :=
  negb (N.eqb c LF || N.eqb c CR || N.eqb c 8232 || N.eqb c 8233).

Definition starts_with (pat s : str) : bool :=
  bool_decide (take (length pat) s = pat).

(** [new RegExp('(' + identifier + '+)\.prototype\.(' + identifier + '+)')]:
    in the string literal [\.] is a plain [.], so the pattern is
    [(I+).prototype.(I+)].  [prototype_tail] matches [.prototype.(I+)];
    [prototype_here] tries the lengths of the first group, longest first;
    [prototype_regex] is the search from the left, giving the two
    groups. *)
Definition prototype_tail (s : str) : option str :=
  match s with
  | d :: s' =>
    if re_dot d && starts_with (lit "prototype") s' then
      match drop 9 s' with
      | e :: g =>
        if re_dot e then
          match take_while identifier g with
          | [] => None
          | n => Some n
          end
        else None
      | [] => None
      end
    else None
  | [] => None
  end.

Fixpoint prototype_lengths (len : nat) (s : str) : option (str * str) :=
  match len with
  | O => None
  | S len' =>
    match prototype_tail (drop len s) with
    | Some n => Some (take len s, n)
    | None => prototype_lengths len' s
    end
  end.

Definition prototype_here (s : str) : option (str * str) :=
  prototype_lengths (length (take_while identifier s)) s.

Fixpoint prototype_regex (s : str) : option (str * str) :=
  match prototype_here s with
  | Some r => Some r
  | None =>
    match s with
    | [] => None
    | _ :: s' => prototype_regex s'
    end
  end.

(** [s.replace(pat, '')] for a string [pat]: the first occurrence goes. *)
Fixpoint replace_first (pat s : str) : str :=
  if starts_with pat s then drop (length pat) s
  else match s with
       | [] => []
       | c :: s' => c :: replace_first pat s'
       end.

Definition set_val (v : JsVal) (tok : Lexed) : Lexed :=
  {| val := v; name := name tok; type := type tok; line := line tok;
     col := col tok; buffer := buffer tok; mustEscape := mustEscape tok |}.

(** The parameters pushed by [for (let i in lexed)]. *)
Definition attribute_params (lexed : list Lexed) : list Param :=
  (fun tok => {| param_name := name tok; param_val := val tok |})
    <$> filter (fun tok => type tok = "attribute") lexed.

Section JavaScript.
Context {B : ParserBase}.

Definition find (ty : string) (lexed : list Lexed) : option (nat * Lexed) :=
  i ← findByType ty lexed; tok ← lexed !! i; Some (i, tok).

(** The three-way [if] on the first token; it yields [tokens], [next]
    and [lexed], in which [current.val] may have been assigned. *)
Definition first_token (code : str) (next : JsVal) (tokens : Tokens)
    (lexed : list Lexed) (current : option (nat * Lexed))
    : result (Tokens * JsVal * list Lexed) :=
  match lexed !! 0%nat with
  | None => Throw (TypeError "lexed[0]")
  | Some first =>
    if matchesGrammer (val first) (Some "function")
       || matchesGrammer (val first) (Some "class") then
      Ok ({| tokens_type := val first;
             tokens_name := tokens_name tokens; params := params tokens;
             return_ := return_ tokens |}, val first, lexed)
    else match prototype_regex code with
    | Some (_, method) =>
      let tokens := {| tokens_type := Str (lit "function");
                       tokens_name := Str method;
                       params := params tokens;
                       return_ := return_ tokens |} in
      match current with
      | Some (i, cur) =>
        match val cur with
        | Str v =>
          Ok (tokens, next,
              <[i := set_val (Str (replace_first (lit "= ") v)) cur]> lexed)
        | _ => Throw (TypeError "current.val")
        end
      | None => Throw (TypeError "current")
      end
    | None =>
      if matchesGrammer next None then
        Ok ({| tokens_name := val first;
               tokens_type := tokens_type tokens; params := params tokens;
               return_ := return_ tokens |}, next, lexed)
      else Ok (tokens, next, lexed)
    end
  end.

(** [tokenize(code, next, tokens)]; [fuel] bounds the depth of the
    recursion, [None] is a run that needs more.  [tokens] is one object,
    changed in place and handed to the recursive call, whose result is
    dropped: what is returned is that object after the call. *)
Fixpoint tokenize_js (fuel : nat) (code : str) (next : JsVal)
    (tokens : Tokens) : option (result Tokens) :=
  match fuel with
  | O => None
  | S fuel =>
    match lexer code with
    | Throw e => Some (Throw e)
    | Ok lexed =>
      let current := find "text" lexed in
      let eos := find "eos" lexed in
      match first_token code next tokens lexed current with
      | Throw e => Some (Throw e)
      | Ok (tokens, next, lexed) =>
        let current := '(i, _) ← current; tok ← lexed !! i; Some tok in
        let tokens :=
          if bool_decide (is_Some (find "start-attributes" lexed)) then
            {| params := params tokens ++ attribute_params lexed;
               tokens_name := tokens_name tokens;
               tokens_type := tokens_type tokens;
               return_ := return_ tokens |}
          else tokens in
        match current, eos with
        | Some cur, Some (_, e) =>
          if Z.ltb (col cur) (col e) then
            match val cur with
            | Str v =>
              if from_option identifier false (v !! 0%nat)
              then tokenize_js fuel v next tokens
              else Some (Ok tokens)
            | _ => Some (Throw (TypeError "current.val"))
            end
          else Some (Ok tokens)
        | _, _ => Some (Throw (TypeError "current.col"))
        end
      end
    end
  end.
End JavaScript.

(** ** The [C] parser *)

(** A token of [acorn], as far as the parser reads it: [token.type.label]
    and [token.value] ([undefined] for punctuation). *)
Record Token := mkToken {
  label : string;
  token_value : option str
}.

(** The kinds of [vscode.SymbolKind] the parser assigns. *)
Inductive SymbolKind := KindClass | KindFunction | KindVariable.

#[global] Instance SymbolKind_eq_dec : EqDecision SymbolKind.
Proof. solve_decision. Defined.

(** Modelled from the spec: the [Grammar] class ([../grammar]) is
    missing.  A grammar maps the categories [class], [function],
    [modifiers], [types] and [variables] to keyword lists and
    [identifier] to a pattern; [is(value, category)] is membership in the
    list, the pattern test for [identifier], and [false] for any other
    category. *)
Record Grammar := mkGrammar {
  grammar_class : list str;
  grammar_function : list str;
  grammar_identifier : str -> bool;
  grammar_modifiers : list str;
  grammar_types : list str;
  grammar_variables : list str
}.

Definition member (v : str) (l : list str) : bool := bool_decide (v ∈ l).

Definition Grammar_is (g : Grammar) (value : option str) (category : string)
    : bool :=
  match value with
  | None => false
  | Some v =>
    if String.eqb category "class" then member v (grammar_class g)
    else if String.eqb category "function" then member v (grammar_function g)
    else if String.eqb category "modifiers" then member v (grammar_modifiers g)
    else if String.eqb category "types" then member v (grammar_types g)
    else if String.eqb category "variables" then member v (grammar_variables g)
    else if String.eqb category "identifier" then grammar_identifier g v
    else false
  end.

(** The table the constructor of [C] passes on; the identifier pattern is
    [^[a-zA-Z_][a-zA-Z0-9_]*$]. *)
Definition c_identifier (v : str) : bool :=
  match v with
  | c :: v' =>
    (between "a" "z" c || between "A" "Z" c || is_chr "_" c)
    && forallb re_word v'
  | [] => false
  end.

Definition c_grammar : Grammar :=
  {| grammar_class := lit <$> ["struct"; "typedef"];
     grammar_function := [];
     grammar_identifier := c_identifier;
     grammar_modifiers :=
       lit <$> ["unsigned"; "signed"; "struct"; "static"; "inline"; "const";
                "auto"; "extern"; "complex"];
     grammar_types :=
       lit <$> ["char"; "double"; "float"; "int"; "long"; "short"; "void"];
     grammar_variables := [] |}.

(** Modelled from the spec: the [Symbols] class ([../symbols]) is
    missing.  The result record of the data model, with the parameter
    list and the three methods the parser calls: [addParameter] appends,
    [getLastParameterIndex] is the last position and [getParameter(i)]
    the parameter object at [i], which the caller changes in place. *)
Record SymbolParam := mkSymbolParam {
  parameter_name : str;
  parameter_type : option str;
  parameter_val : option str
}.

Record Symbols := mkSymbols {
  symbols_name : str;
  symbols_type : option SymbolKind;
  varType : option str;
  symbols_params : list SymbolParam;
  return_present : bool;
  return_type : option str
}.

Definition new_Symbols : Symbols :=
  {| symbols_name := []; symbols_type := None; varType := None;
     symbols_params := []; return_present := true; return_type := None |}.

Definition addParameter (p : SymbolParam) (s : Symbols) : Symbols :=
  {| symbols_params := symbols_params s ++ [p];
     symbols_name := symbols_name s; symbols_type := symbols_type s;
     varType := varType s; return_present := return_present s;
     return_type := return_type s |}.

Definition getLastParameterIndex (s : Symbols) : option nat :=
  match symbols_params s with
  | [] => None
  | _ :: ps => Some (length ps)
  end.

Definition getParameter (i : option nat) (s : Symbols) : option SymbolParam :=
  i ← i; symbols_params s !! i.

(** [lastParam.name = v] on the object at position [i]. *)
Definition set_parameter_name (i : nat) (v : str) (s : Symbols) : Symbols :=
  {| symbols_params :=
       alter (fun p => {| parameter_name := v;
                          parameter_type := parameter_type p;
                          parameter_val := parameter_val p |}) i
             (symbols_params s);
     symbols_name := symbols_name s; symbols_type := symbols_type s;
     varType := varType s; return_present := return_present s;
     return_type := return_type s |}.

(** The parser object: its flags and the [Symbols] it fills.  The flags
    belong to the [Parser] base class; the procedures below are those of
    [C]. *)
Record Parser := mkParser {
  symbols : Symbols;
  done : bool;
  expectName : bool;
  expectParameter : bool;
  expectParameterType : bool
}.

Definition new_Parser : Parser :=
  {| symbols := new_Symbols; done := false; expectName := false;
     expectParameter := false; expectParameterType := false |}.

(** [token.value] as a condition: [undefined] and [''] are falsy. *)
Definition truthy (v : option str) : bool :=
  match v with
  | Some (_ :: _) => true
  | _ => false
  end.

Section C.
Variable grammar : Grammar.

(** Modelled from the spec: [isName] of the base class is missing; the
    name of a variable is a token the [identifier] pattern accepts. *)
Definition isName (v : option str) : bool := Grammar_is grammar v "identifier".

Definition parseClass (token : Token) (p : Parser) : Parser :=
  if Grammar_is grammar (token_value token) "class" then
    let s := symbols p in
    {| symbols := {| symbols_name := lit "struct";
                     symbols_type := Some KindClass;
                     varType := varType s; symbols_params := symbols_params s;
                     return_present := return_present s;
                     return_type := return_type s |};
       done := true;
       expectName := expectName p; expectParameter := expectParameter p;
       expectParameterType := expectParameterType p |}
  else p.

Definition parseFunction (token : Token) (p : Parser) : Parser :=
  if String.eqb (label token) "(" then
    let s := symbols p in
    {| symbols := {| symbols_type := Some KindFunction;
                     return_type := varType s;
                     symbols_name := symbols_name s; varType := varType s;
                     symbols_params := symbols_params s;
                     return_present := return_present s |};
       expectParameter := true;
       done := done p; expectName := expectName p;
       expectParameterType := expectParameterType p |}
  else p.

Definition with_symbols (s : Symbols) (p : Parser) : Parser :=
  {| symbols := s; done := done p; expectName := expectName p;
     expectParameter := expectParameter p;
     expectParameterType := expectParameterType p |}.

Definition parseParameters (token : Token) (p : Parser) : Parser :=
  if bool_decide (symbols_type (symbols p) = Some KindFunction)
     && expectParameter p then
    (* a parameter type *)
    let p :=
      if truthy (token_value token)
         && Grammar_is grammar (token_value token) "types"
         && expectParameter p then
        {| expectParameterType := true;
           symbols := addParameter {| parameter_name := [];
                                      parameter_type := token_value token;
                                      parameter_val := None |} (symbols p);
           done := done p; expectName := expectName p;
           expectParameter := expectParameter p |}
      else p in
    (* the parameter name *)
    let p :=
      if expectParameterType p && truthy (token_value token) then
        match getLastParameterIndex (symbols p), token_value token with
        | Some i, Some v =>
          match getParameter (Some i) (symbols p) with
          | Some _ => with_symbols (set_parameter_name i v (symbols p)) p
          | None => p
          end
        | _, _ => p
        end
      else p in
    if String.eqb (label token) ")" then
      {| expectParameter := false;
         symbols := symbols p; done := done p; expectName := expectName p;
         expectParameterType := expectParameterType p |}
    else p
  else p.

Definition parseVariable (token : Token) (p : Parser) : Parser :=
  let s := symbols p in
  if Grammar_is grammar (token_value token) "types"
     && bool_decide (symbols_type s = None) then
    {| symbols := {| varType := token_value token;
                     symbols_type := Some KindVariable;
                     symbols_name := symbols_name s;
                     symbols_params := symbols_params s;
                     return_present := return_present s;
                     return_type := return_type s |};
       expectName := true;
       done := done p; expectParameter := expectParameter p;
       expectParameterType := expectParameterType p |}
  else if expectName p && isName (token_value token) then
    {| symbols := {| symbols_name := default [] (token_value token);
                     symbols_type := symbols_type s; varType := varType s;
                     symbols_params := symbols_params s;
                     return_present := return_present s;
                     return_type := return_type s |};
       expectName := false;
       done := done p; expectParameter := expectParameter p;
       expectParameterType := expectParameterType p |}
  else p.

(** Modelled from the spec: the loop over the tokens is in the missing
    base class.  Each token goes to [parseClass], [parseFunction] and
    [parseVariable], and to the accumulation of parameters; the parse is
    over once [done] is set. *)
Fixpoint parse_tokens (toks : list Token) (p : Parser) : Parser :=
  match toks with
  | [] => p
  | token :: toks' =>
    if done p then p
    else parse_tokens toks'
           (parseParameters token
              (parseVariable token (parseFunction token (parseClass token p))))
  end.
End C.

(** ** Notions used to state the properties of the lexer *)

(** A token a recognizer may push with [n] characters of input left: it
    is not [eos], and the value of a [text] token is shorter than the
    input, except for the lone blank that [/^\|?( )/] captures. *)
Definition pushed_ok (n : nat) (t : Lexed) : Prop :=
  type t <> "eos"
  /\ (type t = "text" ->
      exists v, val t = Str v /\ ((length v < n)%nat \/ v = [chr " "])).

(** What a recognizer may do to the lexer besides consuming input: push
    such tokens, and move [line] and [column]. *)
Definition appended (lx lx' : Lexer) : Prop :=
  exists new, tokens lx' = tokens lx ++ new
              /\ Forall (pushed_ok (length (input lx))) new.

Record keeps (lx lx' : Lexer) : Prop := mkKeeps {
  keeps_input : input lx' = input lx;
  keeps_ended : ended lx' = ended lx;
  keeps_consumed : consumed lx' = consumed lx;
  keeps_tokens : appended lx lx'
}.

(** A consuming step: the input gets shorter, and what [consume]
    removed, put in front of what is left, is the input before. *)
Record consumes (lx lx' : Lexer) : Prop := mkConsumes {
  consumes_ended : ended lx' = ended lx;
  consumes_shorter : (length (input lx') < length (input lx))%nat;
  consumes_tokens : appended lx lx';
  consumes_cover :
    concat (consumed lx') ++ input lx' = concat (consumed lx) ++ input lx
}.

Definition eos_token (lx : Lexer) : Lexed := tokenize lx "eos" Undefined.

(** What holds of the lexer [lx'] that [getTokens] stops on, having
    started from [lx]. *)
Record finished (lx lx' : Lexer) : Prop := mkFinished {
  finished_ended : ended lx' = true;
  finished_input : input lx' = [];
  finished_tokens :
    exists front, tokens lx' = tokens lx ++ front ++ [eos_token lx']
                  /\ Forall (pushed_ok (length (input lx))) front;
  finished_cover : concat (consumed lx') = concat (consumed lx) ++ input lx
}.


(** [reaches rev lx lx']: the loop of [getTokens], started on [lx], comes
    to [lx'] after some calls of [advance] that returned. *)
Inductive reaches `{P : Packages} (rev : Revision) : Lexer -> Lexer -> Prop :=
| reaches_here lx : reaches rev lx lx
| reaches_step lx lx1 lx2 :
    ended lx = false -> advance rev lx = Ok lx1 -> reaches rev lx1 lx2 ->
    reaches rev lx lx2.

(** The structure of a token that two runs are compared on: its [type],
    [val], [line] and [col]. *)
Definition shape (t : Lexed) : string * JsVal * Z * Z :=
  (type t, val t, line t, col t).

Definition shapes (r : option (result (list Lexed)))
    : option (result (list (string * JsVal * Z * Z))) :=
  match r with
  | Some (Ok toks) => Some (Ok (shape <$> toks))
  | Some (Throw e) => Some (Throw e)
  | None => None
  end.

(** What the recursion of [tokenize] needs of the base class: the value
    of the text token that [findByType] returns is shorter than the code
    that was lexed, or is a lone blank. *)
Definition text_short (B : ParserBase) : Prop :=
  forall code lexed i tok v,
    lexer code = Ok lexed -> findByType "text" lexed = Some i ->
    lexed !! i = Some tok -> val tok = Str v ->
    (length v < length code)%nat \/ v = [chr " "].

(** ** A base class to run [tokenize] with

    [lexer] is the later revision of the lexer over the small packages,
    [findByType] gives the last token of the type, and [matchesGrammer]
    compares with the entries of the grammar of [JavaScript]. *)
Module Sample.
Fixpoint find_last (ty : string) (lexed : list Lexed) (i : nat)
    (found : option nat) : option nat :=
  match lexed with
  | [] => found
  | tok :: lexed' =>
    find_last ty lexed' (S i)
      (if String.eqb (type tok) ty then Some i else found)
  end.

Definition findByType (ty : string) (lexed : list Lexed) : option nat :=
  find_last ty lexed 0 None.

Definition lexer (code : str) : result (list Lexed) :=
  match @getTokens Small.packages Later (new_Lexer code) with
  | Some r => r
  | None => Throw (TypeError "getTokens")
  end.

Definition matchesGrammer (v : JsVal) (ty : option string) : bool :=
  match v with
  | Str s =>
    match ty with
    | Some ty =>
      (String.eqb ty "function" && str_eqb s (lit "function"))
      || (String.eqb ty "class" && str_eqb s (lit "class"))
    | None => str_eqb s (lit "function") || str_eqb s (lit "class")
    end
  | _ => false
  end.

#[export] Instance base : ParserBase :=
  Build_ParserBase lexer findByType matchesGrammer.
End Sample.

(** ** Attribute entries

    An entry of an attribute list as the claims speak of it: a name
    alone, or a name, [=] or [!=], and a value; white space may come
    before the name.  [render] is its text and
    [render_list] the text of a list of entries between the brackets,
    with commas between the entries. *)
Record Entry := mkEntry {
  entry_pad : str;                    (* white space before the name *)
  entry_name : str;
  entry_value : option (bool * str)   (* [true] for [=], [false] for [!=] *)
}.

Definition render (e : Entry) : str :=
  entry_pad e ++ entry_name e
  ++ match entry_value e with
     | None => []
     | Some (true, v) => chr "=" :: v
     | Some (false, v) => chr "!" :: chr "=" :: v
     end.

Fixpoint render_list (es : list Entry) : str :=
  match es with
  | [] => []
  | e :: es' =>
    match es' with
    | [] => render e
    | _ :: _ => render e ++ chr "," :: render_list es'
    end
  end.

(** The characters of a plain name: no white space, no quote, none of
    [!], [=] and [,].  The characters of a plain value: no blank, tab or
    new line, and no comma. *)
Definition name_char (c : char) : bool :=
  negb (js_space c || quoteRe c || is_chr "!" c || is_chr "=" c
        || is_chr "," c).

Definition value_char (c : char) : bool :=
  negb (whitespaceRe c || is_chr "," c).

Section Entries.
Context {P : Packages}.

(** [parseChar] along a string. *)
Fixpoint parse_chars (v : str) (st : State) : Exception + State :=
  match v with
  | [] => inr st
  | c :: v' =>
    match parseChar (Some c) st with
    | inl ex => inl ex
    | inr st' => parse_chars v' st'
    end
  end.

(** A plain entry: white space, a plain non-empty name, and a plain
    value that the packages take for a complete expression outside any
    bracket or string. *)
Definition plain_entry (e : Entry) : Prop :=
  forallb js_space (entry_pad e) = true
  /\ entry_name e <> []
  /\ forallb name_char (entry_name e) = true
  /\ match entry_value e with
     | None => True
     | Some (_, v) =>
       forallb value_char v = true
       /\ isExpression v = None
       /\ exists st, parse_chars v defaultState = inr st
                     /\ isNesting st = false /\ isString st = false
     end.

(** The [val] of the attribute token of an entry.  Without a value it is
    [true] in [src/lexer.ts] and the empty string in the later revision;
    with a value it is the trimmed value (in [src/lexer.ts], [true] again
    when nothing is left of it). *)
Definition entry_val (rev : Revision) (e : Entry) : JsVal :=
  match entry_value e, rev with
  | None, Original => Bool true
  | None, Later => Str []
  | Some (_, v), Original =>
    if str_eqb (trim v) [] then Bool true else Str (trim v)
  | Some (_, v), Later => Str (trim v)
  end.

(** The attribute token of an entry, up to its position. *)
Definition entry_token (rev : Revision) (e : Entry) (t : Lexed) : Prop :=
  type t = "attribute"
  /\ name t = Some (entry_name e)
  /\ val t = entry_val rev e
  /\ match entry_value e with
     | None => True
     | Some (escaped, _) => mustEscape t = Some escaped
     end.
End Entries.

(** The key while a plain name [k] is read: white space, then [k]. *)
Definition key_of (key k : str) : Prop :=
  exists pad, key = pad ++ k /\ forallb js_space pad = true
              /\ forallb name_char k = true.

(** ** Lexer instances

    [new Lexer(str)] makes an object of its own.  The methods of the
    lexer read and write the fields of [this]; nothing outside a lexer is
    written, and the two packages are constants of the module.  The store,
    a [gmap nat Lexer], holds the lexers that are alive, by address. *)




(** ** Attribute entries as they are written

    White space may stand before the name, between the name and [=] or
    [!=], and after the name or the value; the text of the value is all
    that stands after the operator, white space before the value
    included.  Inside a list [attrs] takes blank, tab and new line for
    white space.  An entry that is not the last is parted from the next
    one by a comma, or by one white-space character alone. *)
Inductive Sep :=
| Comma
| Blank (c : char).

Record Written := mkWritten {
  w_pad : str;       (* white space before the name *)
  w_name : str;
  w_value : option (str * bool * str);
      (* white space, [=] ([true]) or [!=] ([false]), the text of the value *)
  w_trail : str;     (* white space after the name or after the value *)
  w_sep : Sep        (* what parts the entry from the next one *)
}.

Definition operator (escaped : bool) : str :=
  if escaped then [chr "="] else [chr "!"; chr "="].

Definition written (e : Written) : str :=
  w_pad e ++ w_name e
  ++ match w_value e with
     | None => []
     | Some (gap, escaped, v) => gap ++ operator escaped ++ v
     end
  ++ w_trail e.

Definition separator (s : Sep) : char :=
  match s with
  | Comma => chr ","
  | Blank c => c
  end.

Fixpoint written_list (es : list Written) : str :=
  match es with
  | [] => []
  | e :: es' =>
    match es' with
    | [] => written e
    | _ :: _ => written e ++ separator (w_sep e) :: written_list es'
    end
  end.

(** The entry with the value as the loop collects it: all that stands
    between the operator and the end of the entry. *)
Definition entry_of (e : Written) : Entry :=
  {| entry_pad := w_pad e;
     entry_name := w_name e;
     entry_value := match w_value e with
                    | None => None
                    | Some (_, escaped, v) => Some (escaped, v ++ w_trail e)
                    end |}.

(** The first character after white space. *)
Definition ahead (s : str) : option char := head (drop_while whitespaceRe s).

Section Written.
Context {P : Packages}.

(** The value goes on at the character [c]: [pre] is the text of the
    value before [c], [st] the state that [parseChar] has reached on it,
    and [r] the text of the value after [c].  White space and commas end
    a value unless they stand inside a bracket or a string, or after text
    that is no complete expression, or, for white space, before a
    punctuator that is no quote. *)
Definition goes_on (pre : str) (st : State) (c : char) (r : str) : Prop :=
  value_char c = true
  \/ isNesting st || isString st = true
  \/ isExpression pre <> None
  \/ (whitespaceRe c = true
      /\ exists x, ahead r = Some x
                   /\ isPunctuator x = true /\ quoteRe x = false).

(** An entry that the loop reads as one attribute; [next] is the text of
    the entries after it, if there are any.  The name is plain and not
    empty.  The value goes on at each of its characters, and the packages
    take the text from the operator to the end of the entry for a
    complete expression outside any bracket or string.  White space
    between a value and a comma needs the comma to be a punctuator; a
    value parted from the next entry by white space alone needs the first
    character of that entry to be no punctuator. *)
Definition well_written (e : Written) (next : option str) : Prop :=
  forallb js_space (w_pad e) = true
  /\ w_name e <> []
  /\ forallb name_char (w_name e) = true
  /\ forallb whitespaceRe (w_trail e) = true
  /\ match w_value e with
     | None => True
     | Some (gap, _, v) =>
       forallb whitespaceRe gap = true
       /\ (forall i c st,
             v !! i = Some c -> parse_chars (take i v) defaultState = inr st ->
             goes_on (take i v) st c (drop (S i) v))
       /\ isExpression (v ++ w_trail e) = None
       /\ exists st, parse_chars (v ++ w_trail e) defaultState = inr st
                     /\ isNesting st = false /\ isString st = false
     end
  /\ match next with
     | None => True
     | Some text =>
       match w_sep e with
       | Comma =>
         w_value e <> None -> w_trail e <> [] ->
         isPunctuator (chr ",") = true
       | Blank c =>
         whitespaceRe c = true /\ w_trail e = []
         /\ (w_value e <> None ->
             forall x, ahead text = Some x -> isPunctuator x = false)
       end
     end.

Fixpoint well_written_list (es : list Written) : Prop :=
  match es with
  | [] => True
  | e :: es' =>
    well_written e (match es' with
                    | [] => None
                    | _ :: _ => Some (written_list es')
                    end)
    /\ well_written_list es'
  end.
End Written.

(** ** Notions used to state further properties *)

(** After a match of [[^\n]+] comes a new line, or nothing. *)
Definition at_line_end (s : str) : Prop := s = [] \/ head s = Some LF.

(** An attribute token as [attrs] builds it. *)
Definition is_attribute (t : Lexed) : Prop :=
  type t = "attribute" /\ is_Some (name t) /\ is_Some (mustEscape t)
  /\ val t <> Undefined /\ buffer t = None.

(** The shape of a token sequence: tags, colons and bracketed groups of
    attribute tokens, then at most one text or code token, then [eos]. *)
Inductive words : list Lexed -> Prop :=
| words_nil : words []
| words_word t rest :
    type t = "tag" \/ type t = ":" -> words rest -> words (t :: rest)
| words_attributes t0 ts t1 rest :
    type t0 = "start-attributes" -> Forall is_attribute ts ->
    type t1 = "end-attributes" -> words rest ->
    words (t0 :: ts ++ t1 :: rest).

Inductive stream : list Lexed -> Prop :=
| stream_eos front e :
    words front -> type e = "eos" -> stream (front ++ [e])
| stream_line front t e :
    words front -> type t = "text" \/ type t = "code" -> type e = "eos" ->
    stream (front ++ [t; e]).

(** What the lexer needs of [parseUntil] of [character-parser]: the range
    it returns ends at an index of [src], at or after [start], where the
    delimiter stands. *)
Definition parseUntil_finds `{P : Packages} : Prop :=
  forall src delimiter start range,
    parseUntil src delimiter start = inr range ->
    (start <= r_end range)%nat /\ src !! r_end range = Some delimiter.

(** Line and column, both counted from 1, of the character that follows
    the text [s], when [s] begins at [pos]. *)
Definition move (pos : Z * Z) (c : char) : Z * Z :=
  if N.eqb c LF then (pos.1 + 1, 1) else (pos.1, pos.2 + 1).

Definition position_after (pos : Z * Z) (s : str) : Z * Z := foldl move pos s.

(** The token [t] has the line and the column at which [v] stands in
    [src]. *)
Definition stands_at (src : str) (t : Lexed) (v : str) : Prop :=
  exists pre rest, src = pre ++ v ++ rest
                   /\ (line t, col t) = position_after (1, 1) pre.

Definition positioned (src : str) (t : Lexed) : Prop :=
  (type t = "tag" \/ type t = "text" ->
   exists v, val t = Str v /\ stands_at src t v)
  /\ (type t = "code" ->
      exists marker, stands_at src t marker
                     /\ (marker = lit "=" \/ marker = lit "!="
                         \/ marker = lit "-"))
  /\ (type t = ":" -> stands_at src t [chr ":"])
  /\ (type t = "start-attributes" -> stands_at src t [chr "("])
  /\ (type t = "end-attributes" -> stands_at src t [chr ")"])
  /\ (type t = "eos" -> (line t, col t) = position_after (1, 1) src).

(** What each kind of token carries. *)
Definition plain_token (t : Lexed) : Prop :=
  name t = None /\ buffer t = None /\ mustEscape t = None.

Definition token_ok `{P : Packages} (rev : Revision) (t : Lexed) : Prop :=
  (type t = "tag" /\ plain_token t
   /\ exists v, val t = Str v
        /\ from_option (tag_edge rev) false (head v) = true
        /\ from_option (tag_edge rev) false (last v) = true
        /\ Forall (fun c => tag_inner rev c = true) v)
  \/ (type t = "text" /\ plain_token t
      /\ exists w, val t = Str w /\ w <> [] /\ LF ∉ w)
  \/ (type t = "code" /\ name t = None
      /\ exists body b e,
           val t = Str body /\ body <> [] /\ (LF ∉ body)
           /\ buffer t = Some b /\ mustEscape t = Some e
           /\ (e = true -> b = true)
           /\ (b = true -> isExpression body = None))
  \/ is_attribute t
  \/ ((type t = ":" \/ type t = "start-attributes"
       \/ type t = "end-attributes" \/ type t = "eos")
      /\ plain_token t /\ val t = Undefined).

(** A result that is not the "unexpected text" of [fail]. *)
Definition other_error {A} (r : result A) : Prop :=
  forall p, r <> Throw (UnexpectedText p).

(** The tokens of a parameter list [T1 n1, T2 n2, ...] between the
    parentheses: a type and a name for each parameter, and the commas,
    which have no value. *)
Fixpoint parameter_tokens (ps : list (str * str)) : list Token :=
  match ps with
  | [] => []
  | (ty, nm) :: ps' =>
    mkToken "name" (Some ty) :: mkToken "name" (Some nm)
    :: match ps' with
       | [] => []
       | _ :: _ => mkToken "," None :: parameter_tokens ps'
       end
  end.

(** A parameter the grammar knows the type of. *)
Definition typed_parameter (g : Grammar) (p : str * str) : Prop :=
  p.1 <> [] /\ p.2 <> []
  /\ Grammar_is g (Some p.1) "types" = true
  /\ Grammar_is g (Some p.2) "types" = false.
(** ** Properties of the lexer *)

Lemma bind_Ok {A B} (r : result A) (k : A -> result B) (b : B) :
  r ≫= k = Ok b -> exists a, r = Ok a /\ k a = Ok b.
Proof. destruct r; simpl; [eauto | discriminate]. Qed.

Ltac inv_result :=
  repeat match goal with
         | H : _ ≫= _ = Ok _ |- _ =>
           let E := fresh "E" in apply bind_Ok in H as (? & E & H)
         | H : Ok _ = Ok _ |- _ => injection H as H
         | H : Throw _ = Ok _ |- _ => discriminate H
         | H : Some _ = Some _ |- _ => injection H as H
         | H : (_, _) = (_, _) |- _ => injection H as H
         end; subst.

Lemma appended_same lx lx' : tokens lx' = tokens lx -> appended lx lx'.
Proof. intros E. exists []. by rewrite app_nil_r. Qed.

Lemma appended_refl lx : appended lx lx.
Proof. by apply appended_same. Qed.

Lemma pushed_ok_mono n m t : (n <= m)%nat -> pushed_ok n t -> pushed_ok m t.
Proof.
  intros Hle [Heos Htext]. split; [done|].
  intros Hty. destruct (Htext Hty) as (v & ? & [?|?]); exists v; split; auto.
  left. lia.
Qed.

Lemma pushed_ok_other n t : type t <> "eos" -> type t <> "text" -> pushed_ok n t.
Proof. by split. Qed.

Lemma appended_trans lx1 lx2 lx3 :
  (length (input lx2) <= length (input lx1))%nat ->
  appended lx1 lx2 -> appended lx2 lx3 -> appended lx1 lx3.
Proof.
  intros Hle (n1 & E1 & F1) (n2 & E2 & F2). exists (n1 ++ n2).
  rewrite E2, E1, <- app_assoc. split; [done|]. apply Forall_app. split; [done|].
  eapply Forall_impl; [done|]. intros t. by apply pushed_ok_mono.
Qed.

Lemma keeps_refl lx : keeps lx lx.
Proof. split; auto using appended_refl. Qed.

Lemma keeps_trans lx1 lx2 lx3 : keeps lx1 lx2 -> keeps lx2 lx3 -> keeps lx1 lx3.
Proof.
  intros [] []. split; try congruence.
  eapply appended_trans; [|done|done]. apply Nat.eq_le_incl. congruence.
Qed.

Lemma keeps_push tok lx :
  type tok <> "eos" -> type tok <> "text" -> keeps lx (push tok lx).
Proof.
  intros Hty Hty'. split; try done. exists [tok]. split; [done|].
  constructor; [by apply pushed_ok_other | done].
Qed.

Lemma keeps_set_column c lx : keeps lx (set_column c lx).
Proof. split; try done. by apply appended_same. Qed.

Lemma keeps_set_line l lx : keeps lx (set_line l lx).
Proof. split; try done. by apply appended_same. Qed.

Lemma keeps_incrementColumn n lx : keeps lx (incrementColumn n lx).
Proof. apply keeps_set_column. Qed.

Lemma consume_consumes n lx :
  (1 <= n)%nat -> input lx <> [] -> consumes lx (consume n lx).
Proof.
  intros Hn Hin. split; simpl.
  - done.
  - unfold substr_from. rewrite length_drop.
    destruct (input lx); [done | simpl; lia].
  - by apply appended_same.
  - unfold substr, substr_from. rewrite concat_app. simpl.
    rewrite app_nil_r, drop_0, <- app_assoc. by rewrite take_drop.
Qed.

Lemma consumes_keeps lx1 lx2 lx3 :
  consumes lx1 lx2 -> keeps lx2 lx3 -> consumes lx1 lx3.
Proof.
  intros [] []. split; try congruence.
  eapply appended_trans; [|done|done]. lia.
Qed.

Lemma keeps_consumes lx1 lx2 lx3 :
  keeps lx1 lx2 -> consumes lx2 lx3 -> consumes lx1 lx3.
Proof.
  intros [] []. split; try congruence.
  eapply appended_trans; [|done|done]. apply Nat.eq_le_incl. congruence.
Qed.

Create HintDb lexer.
#[local] Hint Resolve keeps_refl keeps_push keeps_set_column keeps_set_line
  keeps_incrementColumn : lexer.

(** *** Every regular expression matches at least one character *)

Lemma tag_regex_some rev s name :
  tag_regex rev s = Some name -> (1 <= length name)%nat /\ s <> [].
Proof.
  unfold tag_regex. intros H. repeat case_match; simplify_eq.
  split; [simpl; lia | done].
Qed.

Lemma code_regex_some s all flags body :
  code_regex s = Some (all, flags, body) -> (1 <= length all)%nat /\ s <> [].
Proof.
  unfold code_regex, code_flags. intros H.
  destruct s as [|c r]; [done|]. split; [|done].
  repeat (case_match; simplify_eq; simpl in * );
    rewrite ?length_app; simpl; try lia;
    destruct (last _); simplify_eq; simpl in *; simplify_eq;
    rewrite ?length_app; simpl; lia.
Qed.

Lemma text_regex1_some s len v :
  text_regex1 s = Some (len, v) -> (1 <= len)%nat /\ s <> [].
Proof.
  unfold text_regex1. intros H.
  repeat (case_match; simplify_eq); split; (lia || done).
Qed.

Lemma text_regex2_some s len v :
  text_regex2 s = Some (len, v) -> (1 <= len)%nat /\ s <> [].
Proof.
  unfold text_regex2. intros H.
  repeat (case_match; simplify_eq); split; (lia || done).
Qed.

Lemma colon_regex_some s len v :
  colon_regex s = Some (len, v) -> (1 <= len)%nat /\ s <> [].
Proof.
  unfold colon_regex. intros H.
  repeat (case_match; simplify_eq); split; (lia || done).
Qed.

(** *** The recognizers one by one *)
Section Recognizers.
Context {P : Packages}.
Variable rev : Revision.

Lemma eos_some lx lx' :
  eos lx = Ok (Some lx') ->
  input lx = [] /\ lx' = set_ended (push (tokenize lx "eos" Undefined) lx).
Proof. unfold eos. intros H. case_match; by simplify_eq. Qed.

Lemma eos_none lx : eos lx = Ok None -> input lx <> [].
Proof. unfold eos. intros H. case_match; by simplify_eq. Qed.

Lemma scan_consumes regex ty lx tok lx' :
  (forall s len v, regex s = Some (len, v) -> (1 <= len)%nat /\ s <> []) ->
  scan regex ty lx = Some (tok, lx') -> consumes lx lx'.
Proof.
  unfold scan. intros Hre H.
  destruct (regex (input lx)) as [[len v]|] eqn:E; simplify_eq/=.
  apply Hre in E as [? ?].
  eapply consumes_keeps; [by apply consume_consumes | auto with lexer].
Qed.

Lemma tag_consumes lx lx' : tag rev lx = Ok (Some lx') -> consumes lx lx'.
Proof.
  unfold tag. intros H.
  destruct (tag_regex rev (input lx)) as [name|] eqn:E; simplify_eq.
  apply tag_regex_some in E as [? ?].
  eapply consumes_keeps; [by apply consume_consumes|].
  eapply keeps_trans; [apply keeps_push | apply keeps_incrementColumn]; done.
Qed.

Lemma code_consumes lx lx' : code lx = Ok (Some lx') -> consumes lx lx'.
Proof.
  unfold code. intros H.
  destruct (code_regex (input lx)) as [[[all flags] body]|] eqn:E;
    simplify_eq.
  apply code_regex_some in E as [? ?]. inv_result.
  eapply consumes_keeps; [by apply consume_consumes|].
  eapply keeps_trans; [apply keeps_incrementColumn|].
  eapply keeps_trans; [apply keeps_push | apply keeps_incrementColumn]; done.
Qed.

Lemma length_take_while {A} (f : A -> bool) (l : list A) :
  (length (take_while f l) <= length l)%nat.
Proof. induction l; simpl; [lia | case_match; simpl; lia]. Qed.

Lemma text_value_short regex lx tok lx1 v :
  (regex = text_regex1 \/ regex = text_regex2) ->
  scan regex "text" lx = Some (tok, lx1) -> val tok = Str v ->
  (length v < length (input lx))%nat \/ v = [chr " "].
Proof.
  unfold scan. intros Hre H Hv.
  destruct (regex (input lx)) as [[len value]|] eqn:E; simplify_eq/=.
  destruct value as [value|]; simplify_eq/=.
  destruct Hre as [-> | ->].
  - left. unfold text_regex1 in E.
    destruct (input lx) as [|c r]; [done|].
    repeat (case_match; simplify_eq/=);
      repeat match goal with
             | H : take_while not_lf ?l = _ |- _ =>
               pose proof (length_take_while not_lf l);
               apply (f_equal length) in H
             end; simpl in *;
      try match goal with
          | |- context [take_while ?f ?l] => pose proof (length_take_while f l)
          end; lia.
  - right. unfold text_regex2 in E.
    repeat (case_match; simplify_eq/=);
      match goal with
      | H : is_chr " " ?c = true |- _ =>
        unfold is_chr in H; apply N.eqb_eq in H; by subst
      end.
Qed.

Lemma text_consumes lx lx' : text lx = Ok (Some lx') -> consumes lx lx'.
Proof.
  unfold text. intros H.
  assert (Hscan : forall tok lx1,
    match scan text_regex1 "text" lx with
    | Some r => Some r
    | None => scan text_regex2 "text" lx
    end = Some (tok, lx1) ->
    consumes lx lx1
    /\ forall v, val tok = Str v ->
                 (length v < length (input lx))%nat \/ v = [chr " "]).
  { intros tok lx1 E. destruct (scan text_regex1 "text" lx) eqn:E1.
    - simplify_eq. split.
      + eapply scan_consumes; [apply text_regex1_some | done].
      + intros v. eapply text_value_short; [by left | done].
    - split.
      + eapply scan_consumes; [apply text_regex2_some | done].
      + intros v. eapply text_value_short; [by right | done]. }
  destruct (match scan text_regex1 "text" lx with
            | Some r => Some r
            | None => scan text_regex2 "text" lx
            end) as [[tok lx1]|]; simplify_eq.
  destruct (val tok) as [|v|] eqn:Hv; simplify_eq.
  destruct (Hscan tok lx1 eq_refl) as [[He Hlt (new & En & Fn) Hc] Hshort].
  split; simpl; try done.
  exists (new ++ [tokenize lx1 "text" (Str v)]). simpl. rewrite En, <- app_assoc.
  split; [done|]. apply Forall_app. split; [done|]. constructor; [|done].
  split; [done|]. intros _. exists v. split; [done | by apply Hshort].
Qed.

Lemma colon_consumes lx lx' : colon lx = Ok (Some lx') -> consumes lx lx'.
Proof.
  unfold colon. intros H.
  destruct (scan colon_regex ":" lx) as [[tok lx1]|] eqn:E; simplify_eq.
  eapply consumes_keeps;
    [eapply scan_consumes; [apply colon_regex_some | done]|].
  unfold scan in E.
  destruct (colon_regex (input lx)) as [[? ?]|]; simplify_eq/=.
  by apply keeps_push.
Qed.
End Recognizers.

(** *** The attribute loop leaves the input alone *)
Section AttributeFacts.
Context {P : Packages}.
Variable rev : Revision.

Lemma isEndOfAttribute_this rest a b a' :
  isEndOfAttribute rest a = Ok (b, a') -> this a' = this a.
Proof.
  unfold isEndOfAttribute. intros H.
  repeat (case_match; inv_result; simplify_eq/=); done.
Qed.

Lemma end_of_attribute_keeps a a' :
  end_of_attribute rev a = Ok a' -> keeps (this a) (this a').
Proof.
  unfold end_of_attribute. intros H. inv_result. simpl.
  eapply keeps_trans; [apply keeps_push | apply keeps_set_line]; done.
Qed.

Lemma attribute_char_keeps rest a a' skipped :
  attribute_char rest a = Ok (a', skipped) -> keeps (this a) (this a').
Proof.
  unfold attribute_char. intros H.
  repeat (case_match; inv_result; simplify_eq/=); auto with lexer.
Qed.

Lemma new_line_check_keeps c a : keeps (this a) (this (new_line_check c a)).
Proof.
  unfold new_line_check, with_this.
  repeat (case_match; simpl); auto with lexer.
  eapply keeps_trans; [apply keeps_set_column | apply keeps_set_line].
Qed.

Lemma attribute_turn_keeps rest a a' skipped :
  attribute_turn rev rest a = Ok (a', skipped) -> keeps (this a) (this a').
Proof.
  unfold attribute_turn. intros H. inv_result.
  destruct x as [is_end a1]. inv_result. destruct x as [a2 sk]. inv_result.
  apply isEndOfAttribute_this in E.
  eapply keeps_trans; [|apply new_line_check_keeps].
  rewrite <- E. destruct is_end.
  - inv_result. by eapply end_of_attribute_keeps.
  - by eapply attribute_char_keeps.
Qed.

Lemma attribute_loop_keeps rest a a' :
  attribute_loop rev rest a = Ok a' -> keeps (this a) (this a').
Proof.
  remember (length rest) as n eqn:Hn. revert rest a Hn.
  induction (lt_wf n) as [n _ IH]. intros rest a -> H.
  destruct rest as [|c rest1]; simpl in H; inv_result;
    destruct x as [a1 sk]; apply attribute_turn_keeps in E.
  - by simplify_eq.
  - destruct sk.
    + destruct rest1 as [|d rest2]; [by simplify_eq|].
      eapply keeps_trans; [done|].
      eapply (IH (length rest2)); [simpl; lia | done | done].
    + eapply keeps_trans; [done|].
      eapply (IH (length rest1)); [simpl; lia | done | done].
Qed.

Lemma attrs_consumes lx lx' : attrs rev lx = Ok (Some lx') -> consumes lx lx'.
Proof.
  unfold attrs. intros H.
  destruct (is_chr_opt "(" (input lx !! 0%nat)) eqn:Hc; [|by simplify_eq].
  inv_result. apply attribute_loop_keeps in E1. simpl in E1.
  set (lx1 := push (tokenize lx "start-attributes" Undefined) lx) in *.
  assert (K1 : keeps lx lx1) by (by apply keeps_push).
  assert (Hin : input (incrementColumn 1 lx1) <> []).
  { simpl. by destruct (input lx). }
  eapply keeps_consumes; [exact K1|].
  eapply keeps_consumes; [apply (keeps_incrementColumn 1)|].
  eapply consumes_keeps; [apply (consume_consumes (r_end x + 1)); [lia|done]|].
  eapply keeps_trans; [exact E1|].
  eapply keeps_trans; [apply keeps_set_line|].
  eapply keeps_trans; [apply keeps_push | apply keeps_incrementColumn]; done.
Qed.

(** One call of [advance] that returns either was [eos], on an empty
    input, or consumed at least one character. *)
Lemma advance_Ok lx lx' :
  advance rev lx = Ok lx' ->
  (input lx = [] /\ lx' = set_ended (push (tokenize lx "eos" Undefined) lx))
  \/ (input lx <> [] /\ consumes lx lx').
Proof.
  unfold advance. intros H. inv_result.
  destruct (eos lx) as [[lx1|]|] eqn:Heos; simpl in E; simplify_eq.
  { left. by apply eos_some in Heos as [? ->]. }
  right. split; [by apply eos_none|].
  destruct (tag rev lx) as [[lx1|]|] eqn:Htag; simpl in E; simplify_eq.
  { by apply tag_consumes in Htag. }
  destruct (code lx) as [[lx1|]|] eqn:Hcode; simpl in E; simplify_eq.
  { by apply code_consumes in Hcode. }
  destruct (attrs rev lx) as [[lx1|]|] eqn:Hattrs; simpl in E; simplify_eq.
  { by apply attrs_consumes in Hattrs. }
  destruct (text lx) as [[lx1|]|] eqn:Htext; simpl in E; simplify_eq.
  { by apply text_consumes in Htext. }
  destruct rev; simpl in E; [done|].
  destruct (colon lx) as [[lx1|]|] eqn:Hcolon; simpl in E; simplify_eq.
  by apply colon_consumes in Hcolon.
Qed.
End AttributeFacts.

(** *** The loop of [getTokens] *)
Section Loop.
Context {P : Packages}.
Variable rev : Revision.

Lemma finished_eos lx :
  input lx = [] ->
  finished lx (set_ended (push (eos_token lx) lx)).
Proof.
  intros Hin. split; simpl; try done.
  - exists []. by split.
  - by rewrite Hin, app_nil_r.
Qed.

Lemma consumes_finished lx1 lx2 lx3 :
  consumes lx1 lx2 -> finished lx2 lx3 -> finished lx1 lx3.
Proof.
  intros [_ Hlt (new & E1 & F1) Hc] [? ? (front & E2 & F2) Hc']. split; try done.
  - exists (new ++ front). rewrite E2, E1, <- !app_assoc.
    split; [done|]. apply Forall_app. split; [done|].
    eapply Forall_impl; [done|]. intros t. apply pushed_ok_mono. lia.
  - by rewrite Hc', Hc.
Qed.

(** With more fuel than characters left, the loop does not run out of
    fuel, and its outcome does not depend on the fuel. *)
Lemma getTokens_loop_enough lx fuel1 fuel2 :
  ended lx = false ->
  (length (input lx) < fuel1)%nat -> (length (input lx) < fuel2)%nat ->
  getTokens_loop rev fuel1 lx = getTokens_loop rev fuel2 lx
  /\ ((exists e, getTokens_loop rev fuel1 lx = Raised e)
      \/ (exists lx', getTokens_loop rev fuel1 lx = Returned lx'
                      /\ finished lx lx')).
Proof.
  remember (length (input lx)) as n eqn:Hn. revert lx fuel1 fuel2 Hn.
  induction (lt_wf n) as [n _ IH]. intros lx fuel1 fuel2 -> Hended H1 H2.
  destruct fuel1 as [|fuel1]; [lia|]. destruct fuel2 as [|fuel2]; [lia|].
  simpl. rewrite Hended.
  destruct (advance rev lx) as [lx1|e] eqn:Hadv; [|by eauto].
  apply advance_Ok in Hadv as [[Hin ->]|[Hin Hc]].
  - assert (forall f, getTokens_loop rev f
              (set_ended (push (tokenize lx "eos" Undefined) lx))
            = Returned (set_ended (push (tokenize lx "eos" Undefined) lx)))
      as Hret by (by intros []).
    rewrite !Hret. split; [done|]. right. eexists; split; [done|].
    by apply finished_eos.
  - pose proof (consumes_shorter _ _ Hc) as Hlt.
    pose proof (consumes_ended _ _ Hc) as He. rewrite Hended in He.
    destruct (IH (length (input lx1)) Hlt lx1 fuel1 fuel2) as [Heq Hres];
      [done | done | lia | lia |].
    split; [done|]. destruct Hres as [?|(lx' & Hr & Hf)]; [by left|].
    right. exists lx'. split; [done|]. by eapply consumes_finished.
Qed.

Lemma run_new_Lexer code :
  (exists e, run rev (new_Lexer code) = Raised e)
  \/ (exists lx', run rev (new_Lexer code) = Returned lx'
                  /\ finished (new_Lexer code) lx').
Proof.
  unfold run.
  by destruct (getTokens_loop_enough (new_Lexer code)
                 (S (length (input (new_Lexer code))))
                 (S (length (input (new_Lexer code))))) as [_ ?];
    [done | lia | lia |].
Qed.
End Loop.

(** ** The regular expressions on small inputs *)

Example tag_regex_gives_back :
  tag_regex Later (lit "foo-bar- x") = Some (lit "foo-bar").
Proof. reflexivity. Qed.

Example tag_regex_underscore :
  tag_regex Original (lit "_x") = None /\ tag_regex Later (lit "_x") = Some (lit "_x").
Proof. split; reflexivity. Qed.

Example code_regex_plain :
  code_regex (lit "= a + 1") = Some (lit "= a + 1", lit "=", lit "a + 1").
Proof. reflexivity. Qed.

Example code_regex_blanks_only :
  code_regex (lit "!=  ") = Some (lit "!=  ", lit "!=", lit " ").
Proof. reflexivity. Qed.

Example text_regex1_pipe_blank :
  text_regex1 (lit "| ") = Some (2%nat, Some (lit " ")).
Proof. reflexivity. Qed.

Example text_regex2_blank :
  text_regex1 (lit " ") = None /\ text_regex2 (lit " ") = Some (1%nat, Some (lit " ")).
Proof. split; reflexivity. Qed.

Example colon_regex_blanks :
  colon_regex (lit ":  x") = Some (3%nat, None) /\ colon_regex (lit ":x") = None.
Proof. split; reflexivity. Qed.

Example strip_position_acorn :
  strip_position (lit "Unexpected token (1:12)") = lit "Unexpected token".
Proof. reflexivity. Qed.

Example strip_quotes_both : strip_quotes (lit "'a'") = lit "a".
Proof. reflexivity. Qed.

Example replace_cr_mixed :
  replace_cr [chr "a"; CR; LF; chr "b"; CR; chr "c"]
  = [chr "a"; LF; chr "b"; LF; chr "c"].
Proof. reflexivity. Qed.

Example prototype_regex_method :
  prototype_regex (lit "Foo.prototype.bar = function")
  = Some (lit "Foo", lit "bar").
Proof. reflexivity. Qed.

Example prototype_regex_gives_back :
  prototype_regex (lit "axprototypexb") = Some (lit "a", lit "b").
Proof. reflexivity. Qed.

(** [function foo(a) {] is a tag and a text; the lexer of the later
    revision takes [: x] for a colon and a tag. *)
Example getTokens_function :
  shapes (@getTokens Small.packages Later (new_Lexer (lit "function foo(a) {")))
  = Some (Ok [ ("tag", Str (lit "function"), 1, 1);
               ("text", Str (lit "foo(a) {"), 1, 10);
               ("eos", Undefined, 1, 18) ] ).
Proof. reflexivity. Qed.

Example getTokens_colon :
  shapes (@getTokens Small.packages Later (new_Lexer (lit ": x")))
  = Some (Ok [ (":", Undefined, 1, 1); ("tag", Str (lit "x"), 1, 3);
               ("eos", Undefined, 1, 4) ] ).
Proof. reflexivity. Qed.

(** ** The claims about the lexer *)

Lemma finished_new_Lexer `{P : Packages} (rev : Revision) (code : str) lx' :
  run rev (new_Lexer code) = Returned lx' -> finished (new_Lexer code) lx'.
Proof.
  intros H. destruct (run_new_Lexer rev code) as [(e & He)|(lx1 & H1 & Hf)];
    congruence.
Qed.

Lemma getTokens_Ok `{P : Packages} (rev : Revision) lx toks :
  getTokens rev lx = Some (Ok toks) ->
  exists lx', run rev lx = Returned lx' /\ toks = tokens lx'.
Proof.
  unfold getTokens. intros H. destruct (run rev lx); simplify_eq. eauto.
Qed.

Lemma filter_eos_none (l : list Lexed) :
  Forall (fun x => type x <> "eos") l -> filter (fun x => type x = "eos") l = [].
Proof.
  induction 1 as [|x l Hx _ IH]; [done|].
  rewrite filter_cons. by destruct (decide (type x = "eos")).
Qed.

(** C1. Whenever [getTokens] returns, the token sequence ends in an [eos]
    token and holds no other token of that type; for the empty input the
    sequence is the [eos] token alone. *)
Theorem getTokens_eos_last `{P : Packages} (rev : Revision) (code : str)
    (toks : list Lexed) :
  getTokens rev (new_Lexer code) = Some (Ok toks) ->
  (exists front t, toks = front ++ [t] /\ type t = "eos"
                   /\ Forall (fun x => type x <> "eos") front)
  /\ length (filter (fun x => type x = "eos") toks) = 1%nat
  /\ (code = [] ->
      toks = [ {| type := "eos"; line := 1; col := 1; val := Undefined;
                  name := None; buffer := None; mustEscape := None |} ]).
Proof.
  intros H. pose proof H as H0.
  apply getTokens_Ok in H as (lx' & Hrun & ->).
  apply finished_new_Lexer in Hrun as [_ _ (front & E & F) _].
  simpl in E. assert (Hfront : Forall (fun x => type x <> "eos") front).
  { eapply Forall_impl; [done|]. by intros t [? _]. }
  split; [by exists front, (eos_token lx')|]. split.
  - rewrite E, filter_app, filter_eos_none by done. done.
  - intros ->. by compute in H0; simplify_eq.
Qed.

Lemma getTokens_eos_last_witness :
  exists toks,
    @getTokens Small.packages Later (new_Lexer (lit "foo(a, b=1)")) = Some (Ok toks)
    /\ (exists front t, toks = front ++ [t] /\ type t = "eos"
                        /\ Forall (fun x => type x <> "eos") front)
    /\ length (filter (fun x => type x = "eos") toks) = 1%nat.
Proof.
  eexists. split; [vm_compute; reflexivity|].
  pose proof (@getTokens_eos_last Small.packages Later (lit "foo(a, b=1)") _
                ltac:(vm_compute; reflexivity)) as (H1 & H2 & _).
  split; [exact H1 | exact H2].
Defined.

(** C2. [getTokens] terminates on every input: with more fuel than
    characters the loop never runs out of fuel and its outcome is that of
    [run]; the outcome is an error, or a token sequence with an [eos]
    token in it.  A call of [advance] that returns either found the input
    empty and ended the lexing, or made the input shorter. *)
Theorem getTokens_terminates `{P : Packages} (rev : Revision) (code : str) :
  (forall fuel, (length (input (new_Lexer code)) < fuel)%nat ->
     getTokens_loop rev fuel (new_Lexer code) = run rev (new_Lexer code))
  /\ ((exists e, getTokens rev (new_Lexer code) = Some (Throw e))
      \/ (exists toks, getTokens rev (new_Lexer code) = Some (Ok toks)
                       /\ exists t, t ∈ toks /\ type t = "eos"))
  /\ (forall lx lx', advance rev lx = Ok lx' ->
        (input lx = [] /\ input lx' = [] /\ ended lx' = true)
        \/ ((length (input lx') < length (input lx))%nat
            /\ ended lx' = ended lx)).
Proof.
  split; [|split].
  - intros fuel Hfuel. unfold run.
    by destruct (getTokens_loop_enough rev (new_Lexer code) fuel
                   (S (length (input (new_Lexer code))))) as [? _];
      [done | lia | lia |].
  - unfold getTokens.
    destruct (run_new_Lexer rev code) as [(e & ->)|(lx' & -> & Hf)];
      [left; eauto|].
    right. exists (tokens lx'). split; [done|].
    destruct Hf as [_ _ (front & E & _) _]. exists (eos_token lx').
    split; [|done]. rewrite E. set_solver.
  - intros lx lx' Hadv. apply advance_Ok in Hadv as [[Hin ->]|[Hin Hc]].
    + by left.
    + right. by destruct Hc.
Qed.

(** C3, as the code has it. When lexing completes, the substrings that
    the calls of [consume] removed, put together in order, are the input
    the constructor kept: the source text without a leading U+FEFF and
    with every CR LF and CR turned into LF.  Nothing of the input is left,
    and the [eos] step removes nothing. *)
Theorem consumed_covers_input `{P : Packages} (rev : Revision) (code : str)
    (lx' : Lexer) :
  run rev (new_Lexer code) = Returned lx' ->
  concat (consumed lx') = replace_cr (strip_bom code)
  /\ input lx' = []
  /\ (forall lx lx1, eos lx = Ok (Some lx1) ->
        consumed lx1 = consumed lx /\ input lx1 = input lx).
Proof.
  intros H. apply finished_new_Lexer in H as [_ Hin _ Hc].
  split; [done|]. split; [done|].
  intros lx lx1 Heos. by apply eos_some in Heos as [_ ->].
Qed.

Lemma consumed_covers_input_witness :
  exists lx',
    @run Small.packages Later (new_Lexer (lit "foo(a, b=1)")) = Returned lx'
    /\ concat (consumed lx') = replace_cr (strip_bom (lit "foo(a, b=1)"))
    /\ input lx' = [].
Proof.
  eexists. split; [vm_compute; reflexivity|].
  pose proof (@consumed_covers_input Small.packages Later (lit "foo(a, b=1)") _
                ltac:(vm_compute; reflexivity)) as (H1 & H2 & _).
  split; [exact H1 | exact H2].
Defined.

(** C3 as stated fails on an input that begins with U+FEFF: the
    constructor drops that character, so what [consume] removed is not
    the newline-normalized source text. *)
Lemma consumed_misses_bom :
  exists lx',
    @run Small.packages Later (new_Lexer [BOM; chr "a"]) = Returned lx'
    /\ concat (consumed lx') <> replace_cr [BOM; chr "a"].
Proof. eexists. split; [vm_compute; reflexivity | by vm_compute]. Qed.

(** ** Two lexers on one string *)

Section Instances.
Context {P : Packages}.
Variable rev : Revision.





End Instances.



(** C6, on [src/lexer.ts]. [advance] there stops at [text]: on an input
    that begins with a colon and a blank no recognizer is tried after
    [text], and the lexer throws. *)
Theorem original_advance_without_colon `{P : Packages} :
  getTokens Original (new_Lexer (lit ": x"))
  = Some (Throw (UnexpectedText (lit ": x"))).
Proof. reflexivity. Qed.

(** In the later revision [colon] is tried after [text]: on an input that
    begins with a colon and a blank, [advance] pushes a [:] token and
    removes the colon and the blanks after it; in [src/lexer.ts] the same
    call throws. *)
Lemma advance_colon `{P : Packages} (lx : Lexer) (r : str) :
  input lx = chr ":" :: chr " " :: r ->
  advance Later lx
  = Ok (push (tokenize lx ":" Undefined)
          (incrementColumn (Z.of_nat (2 + length (take_while (is_chr " ") r)))
             (consume (2 + length (take_while (is_chr " ") r)) lx)))
  /\ advance Original lx = Throw (UnexpectedText (substr 0 5 (input lx))).
Proof.
  intros Hin. unfold advance, eos, tag, code, attrs, text, colon, fail, scan.
  rewrite Hin. simpl. split; [|done].
  repeat f_equal; lia.
Qed.

(** With a [(] in front and no closing bracket for it, [advance]
    throws the message of [parseUntil]. *)
Lemma advance_unbalanced `{P : Packages} (rev : Revision) (lx : Lexer)
    (r : str) (ex : Exception) :
  input lx = chr "(" :: r ->
  parseUntil (input lx) (chr ")") 1 = inl ex ->
  advance rev lx = Throw (BracketMessage (ex_message ex)).
Proof.
  intros Hin Hpu. unfold advance, eos, tag, code, attrs, bracketExpression.
  cbn [input push tokenize]. rewrite Hin in *.
  replace (tag_regex rev (chr "(" :: r)) with (@None str)
    by (by destruct rev).
  change (code_regex (chr "(" :: r)) with (@None (str * str * str)).
  change ((chr "(" :: r) !! 0%nat) with (Some (chr "(")).
  change (is_chr_opt "(" (Some (chr "("))) with true.
  cbn [orelse mbind result_bind Nat.add]. by rewrite Hpu.
Qed.

(** The outcome of [getTokens] is the outcome from any lexer the loop
    comes to. *)
Lemma run_advance `{P : Packages} (rev : Revision) (lx lx1 : Lexer) :
  ended lx = false -> advance rev lx = Ok lx1 -> run rev lx = run rev lx1.
Proof.
  intros Hended Hadv. unfold run at 1. cbn [getTokens_loop].
  rewrite Hended, Hadv.
  apply advance_Ok in Hadv as [[Hin ->]|[Hin Hc]].
  - unfold run. by destruct (length (input lx)).
  - pose proof (consumes_shorter _ _ Hc) as Hlt.
    pose proof (consumes_ended _ _ Hc) as He. rewrite Hended in He.
    unfold run.
    by destruct (getTokens_loop_enough rev lx1 (length (input lx))
                   (S (length (input lx1)))) as [? _]; [done | lia | lia |].
Qed.

Lemma run_reaches `{P : Packages} (rev : Revision) (lx lx' : Lexer) :
  reaches rev lx lx' -> run rev lx = run rev lx'.
Proof.
  induction 1 as [|lx lx1 lx2 Hended Hadv _ IH]; [done|].
  rewrite <- IH. by apply run_advance.
Qed.

(** C8. When the lexing comes to an attribute list, the input beginning
    with [(], for which the bracket scanner finds no closing [)],
    [getTokens] terminates and throws the scanner's message: no token
    sequence is returned. *)
Theorem unbalanced_attributes_raise `{P : Packages} (rev : Revision)
    (code r : str) (lx : Lexer) (ex : Exception) :
  reaches rev (new_Lexer code) lx ->
  ended lx = false ->
  input lx = chr "(" :: r ->
  parseUntil (input lx) (chr ")") 1 = inl ex ->
  getTokens rev (new_Lexer code) = Some (Throw (BracketMessage (ex_message ex))).
Proof.
  intros Hreach Hended Hin Hpu. unfold getTokens.
  rewrite (run_reaches rev _ _ Hreach). unfold run. cbn [getTokens_loop].
  by rewrite Hended, (advance_unbalanced rev lx r ex Hin Hpu).
Qed.

Lemma unbalanced_attributes_raise_witness :
  @getTokens Small.packages Later (new_Lexer (lit "foo(a, b"))
  = Some (Throw (BracketMessage
       (lit "The end of the string was reached with no closing bracket found."))).
Proof.
  apply (@unbalanced_attributes_raise Small.packages Later (lit "foo(a, b")
           (lit "a, b")
           (incrementColumn 3
              (push (tokenize (new_Lexer (lit "foo(a, b")) "tag" (Str (lit "foo")))
                 (consume 3 (new_Lexer (lit "foo(a, b")))))
           (mkException
              (lit "The end of the string was reached with no closing bracket found.")
              None)).
  - eapply reaches_step; [reflexivity | vm_compute; reflexivity | apply reaches_here].
  - reflexivity.
  - reflexivity.
  - reflexivity.
Defined.

(** ** The claims about the [C] parser *)

Lemma parse_tokens_done (g : Grammar) (toks : list Token) (p : Parser) :
  done p = true -> parse_tokens g toks p = p.
Proof. intros H. destruct toks; simpl; [done | by rewrite H]. Qed.

Lemma parseFunction_done token p : done (parseFunction token p) = done p.
Proof. unfold parseFunction. by case_match. Qed.

Lemma parseVariable_done g token p : done (parseVariable g token p) = done p.
Proof. unfold parseVariable. by repeat case_match. Qed.

Lemma parseParameters_done g token p : done (parseParameters g token p) = done p.
Proof. unfold parseParameters, with_symbols. by repeat case_match. Qed.

(** C7. On a token whose value is in the [class] category, [parseClass]
    sets the type to Class, the name to ['struct'] and [done]; the loop
    over the tokens then stops, whatever tokens follow. *)
Theorem parseClass_terminal (g : Grammar) (token : Token) (p : Parser)
    (rest : list Token) :
  Grammar_is g (token_value token) "class" = true ->
  symbols_type (symbols (parseClass g token p)) = Some KindClass
  /\ symbols_name (symbols (parseClass g token p)) = lit "struct"
  /\ done (parseClass g token p) = true
  /\ parse_tokens g (token :: rest) p = parse_tokens g [token] p.
Proof.
  intros H. unfold parseClass at 1 2 3. rewrite H. simpl.
  split; [done|]. split; [done|]. split; [done|].
  destruct (done p) eqn:Hd; [done|].
  apply parse_tokens_done.
  rewrite parseParameters_done, parseVariable_done, parseFunction_done.
  unfold parseClass. by rewrite H.
Qed.

Lemma parseClass_terminal_witness :
  let struct_ := mkToken "name" (Some (lit "struct")) in
  let rest := [mkToken "name" (Some (lit "Foo")); mkToken "{" None] in
  symbols_type (symbols (parseClass c_grammar struct_ new_Parser)) = Some KindClass
  /\ symbols_name (symbols (parseClass c_grammar struct_ new_Parser)) = lit "struct"
  /\ done (parseClass c_grammar struct_ new_Parser) = true
  /\ parse_tokens c_grammar (struct_ :: rest) new_Parser
     = parse_tokens c_grammar [struct_] new_Parser.
Proof.
  intros struct_ rest.
  apply (parseClass_terminal c_grammar struct_ new_Parser rest). reflexivity.
Defined.

(** C5, on the code. In [void f(int)] the parameter list is the tokens
    [int] and [)].  After [parseParameters] has seen them, the parameter
    it started for [int] is named [int]: the type token itself supplied
    the name, and no token followed to replace it. *)
Theorem parseParameters_names_type_token :
  let p := parseFunction (mkToken "(" None) new_Parser in
  let p1 := parseParameters c_grammar (mkToken "name" (Some (lit "int"))) p in
  let p2 := parseParameters c_grammar (mkToken ")" None) p1 in
  symbols_params (symbols p1)
  = [ {| parameter_name := lit "int"; parameter_type := Some (lit "int");
         parameter_val := None |} ]
  /\ symbols_params (symbols p2) = symbols_params (symbols p1)
  /\ expectParameterType p1 = true
  /\ expectParameter p2 = false.
Proof. by vm_compute. Qed.

Lemma getLastParameterIndex_addParameter (q : SymbolParam) (s : Symbols) :
  getLastParameterIndex (addParameter q s) = Some (length (symbols_params s)).
Proof.
  unfold getLastParameterIndex, addParameter. simpl.
  destruct (symbols_params s ++ [q]) as [|q' qs] eqn:E.
  { by destruct (symbols_params s). }
  apply (f_equal length) in E. rewrite length_app in E. simpl in E.
  f_equal. lia.
Qed.

(** On every token of the [types] category, while a function's
    parameters are expected, [parseParameters] appends a parameter whose
    type and name are both the token's value. *)
Lemma parseParameters_type_token (g : Grammar) (token : Token) (p : Parser)
    (v : str) :
  symbols_type (symbols p) = Some KindFunction -> expectParameter p = true ->
  token_value token = Some v -> v <> [] ->
  Grammar_is g (Some v) "types" = true ->
  symbols_params (symbols (parseParameters g token p))
  = symbols_params (symbols p)
    ++ [ {| parameter_name := v; parameter_type := Some v;
            parameter_val := None |} ]
  /\ expectParameterType (parseParameters g token p) = true.
Proof.
  intros Hty Hexp Hv Hne Hg. unfold parseParameters.
  rewrite Hty, Hexp, Hv, Hg. destruct v as [|c v]; [done|]. simpl.
  rewrite getLastParameterIndex_addParameter.
  rewrite list_lookup_middle by done.
  unfold set_parameter_name, with_symbols. simpl.
  rewrite <- (Nat.add_0_r (length (symbols_params (symbols p)))).
  rewrite alter_app_r. simpl.
  by destruct (String.eqb (label token) ")").
Qed.

(** ** The claim about [JavaScript.tokenize] *)

Lemma length_replace_first (pat s : str) :
  (length (replace_first pat s) <= length s)%nat.
Proof.
  induction s as [|c s IH]; simpl.
  - case_match; [rewrite length_drop|]; simpl; lia.
  - case_match; [rewrite length_drop|]; simpl; lia.
Qed.

Lemma first_token_Ok `{B : ParserBase} code next tokens lexed current
    tokens' next' lexed' :
  first_token code next tokens lexed current = Ok (tokens', next', lexed') ->
  return_ tokens' = return_ tokens
  /\ (lexed' = lexed
      \/ exists i cur v,
           current = Some (i, cur) /\ val cur = Str v
           /\ lexed' = <[i := set_val (Str (replace_first (lit "= ") v)) cur]> lexed).
Proof.
  unfold first_token. intros H.
  repeat (case_match; simplify_eq/=); split; try done; try by left.
  right. by eexists _, _, _.
Qed.

(** [tokenize] never assigns [tokens.return]. *)
Lemma tokenize_js_return `{B : ParserBase} fuel code next tokens r :
  tokenize_js fuel code next tokens = Some (Ok r) -> return_ r = return_ tokens.
Proof.
  revert code next tokens. induction fuel as [|fuel IH]; [done|].
  intros code next tokens H. simpl in H.
  destruct (lexer code) as [lexed|]; [|done].
  destruct (first_token code next tokens lexed (find "text" lexed))
    as [[[tokens1 next1] lexed1]|] eqn:E; [|done].
  apply first_token_Ok in E as [Hret _].
  repeat (case_match; simplify_eq/=); try done;
    match goal with
    | H : tokenize_js _ _ _ _ = _ |- _ => apply IH in H; simpl in H; congruence
    end.
Qed.

(** With the text token shorter than the code, the recursion ends within
    [length code] calls. *)
Lemma tokenize_js_total `{B : ParserBase} fuel code next tokens :
  text_short B -> (length code < fuel)%nat ->
  tokenize_js fuel code next tokens <> None.
Proof.
  intros Hshort. revert code next tokens.
  induction fuel as [|fuel IH]; [lia|]. intros code next tokens Hlen. simpl.
  destruct (lexer code) as [lexed|] eqn:Hlex; [|done].
  destruct (first_token code next tokens lexed (find "text" lexed))
    as [[[tokens1 next1] lexed1]|] eqn:E; [|done].
  apply first_token_Ok in E as [_ Hlexed].
  destruct (find "text" lexed) as [[i cur0]|] eqn:Hfind; simpl; [|done].
  unfold find in Hfind.
  destruct (findByType "text" lexed) as [i'|] eqn:Hf; simpl in Hfind; [|done].
  destruct (lexed !! i') as [cur0'|] eqn:Hlk; simplify_eq/=.
  destruct (lexed1 !! i) as [cur|] eqn:Hlk1; simpl; [|done].
  destruct (find "eos" lexed) as [[j e]|]; [|done].
  case_match; [|done]. destruct (val cur) as [|v|] eqn:Hv; try done.
  destruct (from_option identifier false (v !! 0%nat)) eqn:Hid; [|done].
  apply IH.
  assert (Hv' : exists v0, val cur0 = Str v0
                           /\ (v = v0 \/ v = replace_first (lit "= ") v0)).
  { destruct Hlexed as [-> | (i0 & c0 & v0 & ? & Hv0 & ->)]; simplify_eq.
    - eauto.
    - rewrite list_lookup_insert_eq in Hlk1 by (by eapply lookup_lt_Some).
      simplify_eq/=. eauto. }
  destruct Hv' as (v0 & Hv0 & Hvv).
  destruct (Hshort code lexed i cur0 v0 Hlex Hf Hlk Hv0) as [Hlt | ->].
  - destruct Hvv as [-> | ->]; [lia|].
    pose proof (length_replace_first (lit "= ") v0). lia.
  - by destruct Hvv as [-> | ->].
Qed.

(** C10. Called without a [tokens] argument, [tokenize] ends (it returns
    or throws) within [length code] recursive calls, provided the text
    token it recurses on is shorter than the code; and whenever it
    returns, [return.present] of the result is [true]. *)
Theorem tokenize_return_present `{B : ParserBase} (code : str) (next : JsVal) :
  text_short B ->
  tokenize_js (S (length code)) code next default_tokens <> None
  /\ (forall fuel r,
        tokenize_js fuel code next default_tokens = Some (Ok r) ->
        present (return_ r) = true).
Proof.
  intros Hshort. split.
  - apply tokenize_js_total; [done | lia].
  - intros fuel r H. apply tokenize_js_return in H. by rewrite H.
Qed.

Lemma length_replace_cr (s : str) : (length (replace_cr s) <= length s)%nat.
Proof.
  remember (length s) as n eqn:Hn. revert s Hn.
  induction (lt_wf n) as [n _ IH]. intros s ->.
  destruct s as [|c [|d s]]; simpl; [lia | by case_match |].
  destruct (N.eqb c CR).
  - destruct (N.eqb d LF); simpl.
    + pose proof (IH (length s) ltac:(simpl; lia) s eq_refl). lia.
    + pose proof (IH (length (d :: s)) ltac:(simpl; lia) (d :: s) eq_refl).
      simpl in *. lia.
  - pose proof (IH (length (d :: s)) ltac:(simpl; lia) (d :: s) eq_refl).
    simpl in *. lia.
Qed.

Lemma length_new_Lexer (code : str) :
  (length (input (new_Lexer code)) <= length code)%nat.
Proof.
  simpl. etrans; [apply length_replace_cr|].
  unfold strip_bom. repeat case_match; simpl; lia.
Qed.

Lemma find_last_Some ty lexed i found j :
  Sample.find_last ty lexed i found = Some j ->
  found = Some j
  \/ exists tok, lexed !! (j - i)%nat = Some tok /\ type tok = ty /\ (i <= j)%nat.
Proof.
  revert i found. induction lexed as [|tok lexed IH]; intros i found H; simpl in H.
  { by left. }
  apply IH in H as [H | (tok' & Hlk & Hty & Hle)].
  - destruct (String.eqb (type tok) ty) eqn:E; [|by left].
    simplify_eq. right. exists tok. rewrite Nat.sub_diag.
    split; [done|]. split; [by apply String.eqb_eq | lia].
  - right. exists tok'. split; [|split; [done | lia]].
    replace (j - i)%nat with (S (j - S i)) by lia. done.
Qed.

Lemma Sample_text_short : text_short Sample.base.
Proof.
  intros code lexed i tok v Hlex Hfind Hlk Hv. simpl in *.
  unfold Sample.lexer in Hlex.
  destruct (getTokens Later (new_Lexer code)) as [[toks|]|] eqn:Hget;
    simplify_eq.
  apply getTokens_Ok in Hget as (lx' & Hrun & ->).
  apply finished_new_Lexer in Hrun as [_ _ (front & E & F) _]. simpl in E.
  apply find_last_Some in Hfind as [? | (tok' & Hlk' & Hty & _)]; [done|].
  rewrite Nat.sub_0_r in Hlk'. simplify_eq.
  rewrite E in Hlk. apply lookup_app_Some in Hlk as [Hlk | [_ Hlk]].
  - rewrite Forall_lookup in F. destruct (F _ _ Hlk) as [_ Htext].
    destruct (Htext Hty) as (v' & Hv' & Hshort).
    rewrite Hv in Hv'. injection Hv' as <-.
    destruct Hshort as [Hlt | Heq]; [left | by right].
    pose proof (length_new_Lexer code). lia.
  - apply list_lookup_singleton_Some in Hlk as [_ <-]. done.
Qed.

Lemma tokenize_return_present_witness :
  exists r,
    @tokenize_js Sample.base (S (length (lit "function foo(a) {")))
      (lit "function foo(a) {") (Str []) default_tokens = Some (Ok r)
    /\ tokens_name r = Str (lit "foo")
    /\ present (return_ r) = true.
Proof.
  destruct (@tokenize_return_present Sample.base (lit "function foo(a) {")
              (Str []) Sample_text_short) as [_ H].
  eexists. split; [vm_compute; reflexivity|]. split; [reflexivity|].
  apply (H (S (length (lit "function foo(a) {")))). vm_compute. reflexivity.
Defined.

(** ** The claim about the attribute entries *)

Ltac char_consts :=
  repeat match goal with
         | |- context [chr ?a] =>
           let x := eval vm_compute in (chr a) in change (chr a) with x
         | H : context [chr ?a] |- _ =>
           let x := eval vm_compute in (chr a) in change (chr a) with x in H
         end.

Ltac char_cases :=
  unfold name_char, value_char, js_space, whitespaceRe, quoteRe, is_chr, LF,
    TAB in *;
  char_consts;
  rewrite ?negb_true_iff, ?negb_false_iff, ?orb_false_iff, ?orb_true_iff,
    ?andb_false_iff, ?andb_true_iff, ?N.eqb_eq, ?N.eqb_neq, ?N.leb_le,
    ?N.leb_gt in *;
  lia.

Lemma name_char_facts (c : char) :
  name_char c = true ->
  js_space c = false /\ whitespaceRe c = false /\ quoteRe c = false
  /\ is_chr "!" c = false /\ is_chr "=" c = false /\ is_chr "," c = false
  /\ N.eqb c LF = false.
Proof. intros H. repeat split; char_cases. Qed.

Lemma value_char_facts (c : char) :
  value_char c = true ->
  whitespaceRe c = false /\ is_chr "," c = false /\ N.eqb c LF = false.
Proof. intros H. repeat split; char_cases. Qed.

Lemma drop_while_spaces (pad k : str) :
  forallb js_space pad = true -> forallb name_char k = true ->
  drop_while js_space (pad ++ k) = k.
Proof.
  intros Hpad Hk. induction pad as [|c pad IH]; simpl in *.
  - destruct k as [|c k]; [done|]. simpl in *.
    apply andb_true_iff in Hk as [Hc _].
    apply name_char_facts in Hc as (-> & _). done.
  - apply andb_true_iff in Hpad as [-> Hpad]. by apply IH.
Qed.

Lemma drop_while_end_plain (k : str) :
  forallb name_char k = true -> drop_while_end js_space k = k.
Proof.
  intros H. unfold drop_while_end.
  assert (H2 : drop_while js_space (reverse k) = reverse k);
    [|by rewrite H2, reverse_involutive].
  apply (drop_while_spaces [] (reverse k) eq_refl).
  rewrite forallb_forall in *. intros c Hc. apply H.
  apply list_elem_of_In. apply list_elem_of_In in Hc. by apply elem_of_reverse.
Qed.

Lemma key_of_trim (key k : str) : key_of key k -> trim key = k.
Proof.
  intros (pad & -> & Hpad & Hk). unfold trim.
  rewrite (drop_while_spaces pad k Hpad Hk).
  exact (drop_while_end_plain k Hk).
Qed.

Lemma key_of_snoc (key k : str) (c : char) :
  key_of key k -> name_char c = true -> key_of (key ++ [c]) (k ++ [c]).
Proof.
  intros (pad & -> & Hpad & Hk) Hc. exists pad.
  rewrite <- app_assoc. split; [done|]. split; [done|].
  rewrite forallb_app, Hk. simpl. by rewrite Hc.
Qed.

Lemma key_of_pad (key : str) (c : char) :
  key_of key [] -> js_space c = true -> key_of (key ++ [c]) [].
Proof.
  intros (pad & -> & Hpad & _) Hc. exists (pad ++ [c]).
  rewrite !app_nil_r. split; [done|]. split; [|done].
  rewrite forallb_app, Hpad. simpl. by rewrite Hc.
Qed.

Lemma key_of_nonempty (key k : str) :
  key_of key k -> k <> [] ->
  str_eqb (trim key) [] = false /\ str_eqb key [] = false.
Proof.
  intros Hkey Hne. rewrite (key_of_trim key k Hkey). unfold str_eqb.
  rewrite !bool_decide_eq_false_2; [done | | done].
  destruct Hkey as (pad & -> & _). destruct pad, k; done.
Qed.

Lemma strip_quotes_plain (k : str) :
  forallb name_char k = true -> strip_quotes k = k.
Proof.
  intros H. unfold strip_quotes.
  assert (Hk1 : match k with
                | c :: k' => if quoteRe c then k' else k
                | [] => []
                end = k).
  { destruct k as [|c k']; [done|]. simpl in H.
    apply andb_true_iff in H as [Hc _].
    apply name_char_facts in Hc as (_ & _ & -> & _). done. }
  rewrite Hk1. destruct (last k) as [c|] eqn:Hlast; [|done].
  assert (Hc : name_char c = true).
  { rewrite forallb_forall in H. apply H. apply list_elem_of_In.
    apply last_Some in Hlast as [l ->]. set_solver. }
  apply name_char_facts in Hc as (_ & _ & -> & _). done.
Qed.

Lemma js_space_facts (c : char) :
  js_space c = true ->
  quoteRe c = false /\ is_chr "!" c = false /\ is_chr "=" c = false.
Proof. intros H. repeat split; char_cases. Qed.

Section Entry.
Context {P : Packages}.
Variable rev : Revision.

Lemma attribute_loop_cons c r a a1 :
  attribute_turn rev (c :: r) a = Ok (a1, false) ->
  attribute_loop rev (c :: r) a = attribute_loop rev r a1.
Proof. intros H. simpl. by rewrite H. Qed.

Lemma attribute_loop_skip c d r a a1 :
  attribute_turn rev (c :: d :: r) a = Ok (a1, true) ->
  attribute_loop rev (c :: d :: r) a = attribute_loop rev r a1.
Proof. intros H. simpl. by rewrite H. Qed.

(** White space before a name is read into the key and ends nothing. *)
Lemma turn_pad_char c r a :
  js_space c = true -> loc a = LocKey -> key_of (key a) [] ->
  exists a1, attribute_turn rev (c :: r) a = Ok (a1, false)
             /\ loc a1 = LocKey /\ key a1 = key a ++ [c]
             /\ value a1 = value a /\ escapedAttr a1 = escapedAttr a
             /\ tokens (this a1) = tokens (this a).
Proof.
  intros Hc Hloc Hkey.
  apply js_space_facts in Hc as (Hq & Hbang & Heq).
  pose proof (key_of_trim _ _ Hkey) as Htrim.
  destruct a as [lx q esc k v st ll cba cbv l]. simpl in *. subst l.
  unfold attribute_turn, isEndOfAttribute, attribute_char, new_line_check,
    with_this, is_chr_opt. simpl.
  rewrite Htrim. simpl. rewrite Hq, andb_false_r, Hbang, Heq. simpl.
  destruct (N.eqb c LF); eexists; (split; [done|]); simpl;
    repeat split; try done; by case_match.
Qed.

(** A character of a plain name, read in the key. *)
Lemma turn_name_char c r a k :
  name_char c = true -> loc a = LocKey -> key_of (key a) k ->
  exists a1, attribute_turn rev (c :: r) a = Ok (a1, false)
             /\ loc a1 = LocKey /\ key a1 = key a ++ [c]
             /\ value a1 = value a /\ escapedAttr a1 = escapedAttr a
             /\ tokens (this a1) = tokens (this a).
Proof.
  intros Hc Hloc Hkey.
  apply name_char_facts in Hc as (Hsp & Hws & Hq & Hbang & Heq & Hcomma & Hlf).
  destruct a as [lx q esc key v st ll cba cbv l]. simpl in *. subst l.
  unfold attribute_turn, isEndOfAttribute, attribute_char, new_line_check,
    with_this, is_chr_opt. simpl.
  destruct (str_eqb (trim key) []); simpl;
    rewrite ?Hws, ?Hcomma; simpl;
    rewrite Hq, andb_false_r, Hbang, Heq; simpl; rewrite Hlf;
    eexists; (split; [done|]); done.
Qed.

Lemma isEndOfAttribute_value_char c r a k :
  value_char c = true -> loc a = LocValue ->
  key_of (key a) k -> k <> [] ->
  isEndOfAttribute (c :: r) a = Ok (false, a).
Proof.
  intros Hc Hloc Hkey Hne.
  apply value_char_facts in Hc as (Hws & Hcomma & _).
  unfold isEndOfAttribute.
  rewrite (proj1 (key_of_nonempty _ _ Hkey Hne)), Hloc.
  destruct (isNesting (state a) || isString (state a)); [done|].
  unfold checkExpression. destruct (isExpression (value a)); simpl; [done|].
  by rewrite Hws, Hcomma.
Qed.

(** A character of a plain value, read in the value. *)
Lemma turn_value_char c r a k st1 :
  value_char c = true -> loc a = LocValue ->
  key_of (key a) k -> k <> [] ->
  parseChar (Some c) (state a) = inr st1 ->
  exists a1, attribute_turn rev (c :: r) a = Ok (a1, false)
             /\ loc a1 = LocValue /\ key a1 = key a
             /\ value a1 = value a ++ [c] /\ state a1 = st1
             /\ escapedAttr a1 = escapedAttr a
             /\ tokens (this a1) = tokens (this a).
Proof.
  intros Hc Hloc Hkey Hne Hparse.
  unfold attribute_turn.
  rewrite (isEndOfAttribute_value_char c r a k Hc Hloc Hkey Hne).
  apply value_char_facts in Hc as (Hws & Hcomma & Hlf).
  destruct a as [lx q esc key v st ll cba cbv l]. simpl in *. subst l.
  unfold attribute_char. simpl. rewrite Hparse. simpl.
  unfold new_line_check. rewrite Hlf.
  eexists. split; [done|]. done.
Qed.

(** The [=] after a plain name begins the value. *)
Lemma turn_equals r a k :
  loc a = LocKey -> key_of (key a) k -> k <> [] ->
  exists a1, attribute_turn rev (chr "=" :: r) a = Ok (a1, false)
             /\ loc a1 = LocValue /\ key a1 = key a /\ value a1 = value a
             /\ state a1 = defaultState /\ escapedAttr a1 = true
             /\ tokens (this a1) = tokens (this a).
Proof.
  intros Hloc Hkey Hne.
  destruct (key_of_nonempty _ _ Hkey Hne) as [Htrim Hnil].
  destruct a as [lx q esc key v st ll cba cbv l]. simpl in *. subst l.
  unfold attribute_turn, isEndOfAttribute. simpl.
  rewrite Htrim. simpl. unfold attribute_char. simpl. rewrite Hnil.
  simpl. eexists. split; [done|]. done.
Qed.

(** So does [!=], and the turn skips the [=]. *)
Lemma turn_bang_equals r a k :
  loc a = LocKey -> key_of (key a) k -> k <> [] ->
  exists a1, attribute_turn rev (chr "!" :: chr "=" :: r) a = Ok (a1, true)
             /\ loc a1 = LocValue /\ key a1 = key a /\ value a1 = value a
             /\ state a1 = defaultState /\ escapedAttr a1 = false
             /\ tokens (this a1) = tokens (this a).
Proof.
  intros Hloc Hkey Hne.
  destruct (key_of_nonempty _ _ Hkey Hne) as [Htrim Hnil].
  destruct a as [lx q esc key v st ll cba cbv l]. simpl in *. subst l.
  unfold attribute_turn, isEndOfAttribute. simpl.
  rewrite Htrim. simpl. unfold attribute_char. simpl. rewrite Hnil.
  simpl. eexists. split; [done|]. done.
Qed.

(** The end of an attribute: at the end of the list, or at a comma after
    a name or after a value that is a complete expression. *)
Lemma turn_end rest a k :
  key_of (key a) k -> k <> [] ->
  value a = [] \/ isExpression (value a) = None ->
  rest = []
  \/ (exists r, rest = chr "," :: r)
     /\ (loc a = LocKey
         \/ (loc a = LocValue /\ isNesting (state a) = false
             /\ isString (state a) = false
             /\ isExpression (value a) = None)) ->
  exists a1 tok,
    attribute_turn rev rest a = Ok (a1, false)
    /\ loc a1 = LocKey /\ key a1 = [] /\ value a1 = []
    /\ tokens (this a1) = tokens (this a) ++ [tok]
    /\ type tok = "attribute" /\ name tok = Some k
    /\ val tok = attribute_val rev (trim (value a))
    /\ mustEscape tok = Some (escapedAttr a).
Proof.
  intros Hkey Hne Hval Hrest.
  destruct (key_of_nonempty _ _ Hkey Hne) as [Htrim _].
  pose proof (key_of_trim _ _ Hkey) as Hk.
  assert (Hplain : forallb name_char k = true) by (by destruct Hkey as (? & ? & ? & ?)).
  destruct a as [lx q esc key v st ll cba cbv l]. simpl in *.
  assert (Hend : isEndOfAttribute rest (mkAttrState lx q esc key v st ll cba cbv l)
                 = Ok (true, mkAttrState lx q esc key v st ll cba cbv l)).
  { unfold isEndOfAttribute. simpl. rewrite Htrim.
    destruct Hrest as [-> | [[r ->] Hloc]]; [done|].
    destruct Hloc as [-> | (-> & -> & -> & Hexp)]; [done|]. simpl.
    unfold checkExpression. by rewrite Hexp. }
  assert (Hcheck : (if str_eqb (trim v) [] then Ok true
                    else checkExpression v false) = Ok true).
  { destruct Hval as [-> | Hexp]; [done|].
    unfold checkExpression. rewrite Hexp. by case_match. }
  unfold attribute_turn. rewrite Hend. simpl.
  unfold end_of_attribute. simpl. rewrite Hcheck. simpl.
  rewrite Hk, (strip_quotes_plain k Hplain).
  destruct Hrest as [-> | [[r ->] _]]; simpl.
  - eexists _, _. split; [done|]. done.
  - unfold new_line_check, with_this. simpl.
    eexists _, _. split; [done|]. done.
Qed.

(** White space is read into the key, character by character. *)
Lemma loop_pad pad rest a :
  forallb js_space pad = true -> loc a = LocKey -> key_of (key a) [] ->
  exists a', attribute_loop rev (pad ++ rest) a = attribute_loop rev rest a'
             /\ loc a' = LocKey /\ key_of (key a') []
             /\ value a' = value a /\ escapedAttr a' = escapedAttr a
             /\ tokens (this a') = tokens (this a).
Proof.
  revert a. induction pad as [|c pad IH]; intros a Hpad Hloc Hkey.
  { by exists a. }
  simpl in Hpad. apply andb_true_iff in Hpad as [Hc Hpad].
  destruct (turn_pad_char c (pad ++ rest) a Hc Hloc Hkey)
    as (a1 & Hturn & Hloc1 & Hkey1 & Hval1 & Hesc1 & Htok1).
  destruct (IH a1 Hpad Hloc1) as (a' & Hloop & ? & ? & ? & ? & ?).
  { rewrite Hkey1. by apply key_of_pad. }
  exists a'. split.
  { rewrite <- Hloop. by apply attribute_loop_cons. }
  split; [congruence|]. split; [done|]. repeat split; congruence.
Qed.

(** So is a plain name. *)
Lemma loop_name k rest a k0 :
  forallb name_char k = true -> loc a = LocKey -> key_of (key a) k0 ->
  exists a', attribute_loop rev (k ++ rest) a = attribute_loop rev rest a'
             /\ loc a' = LocKey /\ key_of (key a') (k0 ++ k)
             /\ value a' = value a /\ escapedAttr a' = escapedAttr a
             /\ tokens (this a') = tokens (this a).
Proof.
  revert a k0. induction k as [|c k IH]; intros a k0 Hk Hloc Hkey.
  { exists a. by rewrite app_nil_r. }
  simpl in Hk. apply andb_true_iff in Hk as [Hc Hk].
  destruct (turn_name_char c (k ++ rest) a k0 Hc Hloc Hkey)
    as (a1 & Hturn & Hloc1 & Hkey1 & Hval1 & Hesc1 & Htok1).
  destruct (IH a1 (k0 ++ [c]) Hk Hloc1) as (a' & Hloop & ? & Hkey' & ? & ? & ?).
  { rewrite Hkey1. by apply key_of_snoc. }
  exists a'. split.
  { rewrite <- Hloop. by apply attribute_loop_cons. }
  rewrite <- app_assoc in Hkey'. split; [congruence|]. split; [exact Hkey'|].
  repeat split; congruence.
Qed.

(** A plain value is read into the value, through [parseChar]. *)
Lemma loop_value v rest a k st' :
  forallb value_char v = true -> loc a = LocValue ->
  key_of (key a) k -> k <> [] ->
  parse_chars v (state a) = inr st' ->
  exists a', attribute_loop rev (v ++ rest) a = attribute_loop rev rest a'
             /\ loc a' = LocValue /\ key a' = key a
             /\ value a' = value a ++ v /\ state a' = st'
             /\ escapedAttr a' = escapedAttr a
             /\ tokens (this a') = tokens (this a).
Proof.
  revert a. induction v as [|c v IH]; intros a Hv Hloc Hkey Hne Hparse.
  { simpl in Hparse. simplify_eq. exists a. by rewrite app_nil_r. }
  simpl in Hv. apply andb_true_iff in Hv as [Hc Hv]. simpl in Hparse.
  destruct (parseChar (Some c) (state a)) as [|st1] eqn:Hpc; [done|].
  destruct (turn_value_char c (v ++ rest) a k st1 Hc Hloc Hkey Hne Hpc)
    as (a1 & Hturn & Hloc1 & Hkey1 & Hval1 & Hst1 & Hesc1 & Htok1).
  destruct (IH a1 Hv Hloc1) as (a' & Hloop & ? & Hkey' & Hval' & ? & ? & ?);
    [congruence | done | congruence |].
  exists a'. split.
  { rewrite <- Hloop. by apply attribute_loop_cons. }
  rewrite Hval', Hval1, <- app_assoc. repeat split; congruence.
Qed.

End Entry.

Lemma attribute_params_tokens (toks : list Lexed) (t0 t1 : Lexed) :
  Forall (fun t => type t = "attribute") toks ->
  type t0 = "start-attributes" -> type t1 = "end-attributes" ->
  attribute_params (t0 :: toks ++ [t1])
  = (fun t => {| param_name := name t; param_val := val t |}) <$> toks.
Proof.
  intros Hall H0 H1. unfold attribute_params. f_equal.
  rewrite filter_cons_False by (by rewrite H0).
  rewrite filter_app, filter_cons_False, filter_nil, app_nil_r
    by (by rewrite H1).
  induction Hall as [|t toks Ht _ IH]; [done|].
  by rewrite filter_cons_True, IH.
Qed.

(** ** Entries with white space *)

Lemma whitespaceRe_facts (c : char) :
  whitespaceRe c = true ->
  js_space c = true /\ quoteRe c = false /\ is_chr "!" c = false
  /\ is_chr "=" c = false /\ is_chr "," c = false.
Proof. intros H. repeat split; char_cases. Qed.

Lemma js_space_no_comma (c : char) :
  js_space c = true -> is_chr "," c = false.
Proof. intros H. char_cases. Qed.

Lemma drop_while_app_keep {A} (f : A -> bool) (l l' : list A) :
  drop_while f l <> [] -> drop_while f (l ++ l') = drop_while f l ++ l'.
Proof.
  induction l as [|x l IH]; simpl; [done|]. by destruct (f x).
Qed.

Lemma drop_while_all {A} (f : A -> bool) (l l' : list A) :
  forallb f l = true -> drop_while f (l ++ l') = drop_while f l'.
Proof.
  induction l as [|x l IH]; simpl; [done|].
  intros [-> H]%andb_true_iff. by apply IH.
Qed.

Lemma trim_snoc_space (s : str) (c : char) :
  trim s <> [] -> js_space c = true -> trim (s ++ [c]) = trim s.
Proof.
  intros Hne Hc. unfold trim in *.
  assert (Hd : drop_while js_space s <> []).
  { intros E. by rewrite E in Hne. }
  rewrite (drop_while_app_keep _ _ _ Hd). unfold drop_while_end.
  rewrite reverse_app. simpl. by rewrite Hc.
Qed.

Lemma str_eqb_nil_false (s : str) : s <> [] -> str_eqb s [] = false.
Proof. intros H. unfold str_eqb. by rewrite bool_decide_eq_false_2. Qed.

Lemma trim_nonempty (s k : str) :
  trim s = k -> k <> [] ->
  str_eqb (trim s) [] = false /\ str_eqb s [] = false.
Proof.
  intros <- Hne. split; apply str_eqb_nil_false; [done|].
  intros ->. by apply Hne.
Qed.

Section Written.
Context {P : Packages}.
Variable rev : Revision.

Lemma parse_chars_app (x y : str) (st st' : State) :
  parse_chars (x ++ y) st = inr st' ->
  exists st1, parse_chars x st = inr st1 /\ parse_chars y st1 = inr st'.
Proof.
  revert st. induction x as [|c x IH]; intros st H; simpl in *; [eauto|].
  destruct (parseChar (Some c) st); [done | by apply IH].
Qed.

(** *** When an attribute does not end *)

Lemma not_end_key_space c r a :
  loc a = LocKey -> str_eqb (trim (key a)) [] = false ->
  whitespaceRe c = true ->
  match drop_while whitespaceRe r with
  | x :: _ => is_chr "=" x || is_chr "!" x || is_chr "," x = true
  | [] => True
  end ->
  isEndOfAttribute (c :: r) a = Ok (false, a).
Proof.
  intros Hloc Htrim Hc Hx. unfold isEndOfAttribute.
  rewrite Htrim, Hloc, Hc. cbn [drop_while]. rewrite Hc.
  destruct (drop_while whitespaceRe r) as [|x r'].
  - by apply whitespaceRe_facts in Hc as (_ & _ & _ & _ & ->).
  - destruct (is_chr "=" x || is_chr "!" x); [done|].
    simpl in Hx. by rewrite Hx.
Qed.

Lemma not_end_value_nested c r a :
  loc a = LocValue -> str_eqb (trim (key a)) [] = false ->
  isNesting (state a) || isString (state a) = true ->
  isEndOfAttribute (c :: r) a = Ok (false, a).
Proof.
  intros Hloc Htrim Hn. unfold isEndOfAttribute. by rewrite Htrim, Hloc, Hn.
Qed.

Lemma not_end_value_invalid c r a :
  loc a = LocValue -> str_eqb (trim (key a)) [] = false ->
  isExpression (value a) <> None ->
  isEndOfAttribute (c :: r) a = Ok (false, a).
Proof.
  intros Hloc Htrim Hexp. unfold isEndOfAttribute. rewrite Htrim, Hloc.
  destruct (isNesting (state a) || isString (state a)); [done|].
  unfold checkExpression. by destruct (isExpression (value a)).
Qed.

Lemma not_end_value_char c r a :
  loc a = LocValue -> str_eqb (trim (key a)) [] = false ->
  value_char c = true ->
  isEndOfAttribute (c :: r) a = Ok (false, a).
Proof.
  intros Hloc Htrim Hc. unfold isEndOfAttribute. rewrite Htrim, Hloc.
  apply value_char_facts in Hc as (Hws & Hcomma & _).
  destruct (isNesting (state a) || isString (state a)); [done|].
  unfold checkExpression. destruct (isExpression (value a)); simpl; [done|].
  by rewrite Hws, Hcomma.
Qed.

Lemma not_end_value_space c r a :
  loc a = LocValue -> str_eqb (trim (key a)) [] = false ->
  whitespaceRe c = true ->
  match drop_while whitespaceRe r with
  | x :: _ => isPunctuator x = true /\ quoteRe x = false
  | [] => True
  end ->
  isEndOfAttribute (c :: r) a = Ok (false, a).
Proof.
  intros Hloc Htrim Hc Hx. unfold isEndOfAttribute. rewrite Htrim, Hloc.
  destruct (isNesting (state a) || isString (state a)); [done|].
  unfold checkExpression. destruct (isExpression (value a)); simpl; [done|].
  rewrite !Hc.
  destruct (drop_while whitespaceRe r) as [|x r'].
  - by apply whitespaceRe_facts in Hc as (_ & _ & _ & _ & ->).
  - destruct Hx as [-> ->]. done.
Qed.

(** *** When it ends *)

Lemma end_nothing a :
  str_eqb (trim (key a)) [] = false -> isEndOfAttribute [] a = Ok (true, a).
Proof. intros Htrim. unfold isEndOfAttribute. by rewrite Htrim. Qed.

Lemma end_key_comma r a :
  loc a = LocKey -> str_eqb (trim (key a)) [] = false ->
  isEndOfAttribute (chr "," :: r) a = Ok (true, a).
Proof. intros Hloc Htrim. unfold isEndOfAttribute. by rewrite Htrim, Hloc. Qed.

Lemma end_key_blank c r a x :
  loc a = LocKey -> str_eqb (trim (key a)) [] = false ->
  whitespaceRe c = true -> ahead r = Some x ->
  is_chr "=" x = false -> is_chr "!" x = false -> is_chr "," x = false ->
  isEndOfAttribute (c :: r) a = Ok (true, a).
Proof.
  intros Hloc Htrim Hc Hx H1 H2 H3. unfold isEndOfAttribute.
  rewrite Htrim, Hloc, Hc. cbn [drop_while]. rewrite Hc.
  unfold ahead in Hx. destruct (drop_while whitespaceRe r) as [|y r']; [done|].
  simpl in Hx. simplify_eq. by rewrite H1, H2, H3.
Qed.

Lemma end_value_comma r a :
  loc a = LocValue -> str_eqb (trim (key a)) [] = false ->
  isNesting (state a) = false -> isString (state a) = false ->
  isExpression (value a) = None ->
  isEndOfAttribute (chr "," :: r) a = Ok (true, a).
Proof.
  intros Hloc Htrim Hn Hs Hexp. unfold isEndOfAttribute.
  rewrite Htrim, Hloc, Hn, Hs. unfold checkExpression. by rewrite Hexp.
Qed.

Lemma end_value_blank c r a x :
  loc a = LocValue -> str_eqb (trim (key a)) [] = false ->
  isNesting (state a) = false -> isString (state a) = false ->
  isExpression (value a) = None ->
  whitespaceRe c = true -> ahead r = Some x -> isPunctuator x = false ->
  isEndOfAttribute (c :: r) a = Ok (true, a).
Proof.
  intros Hloc Htrim Hn Hs Hexp Hc Hx Hp. unfold isEndOfAttribute.
  rewrite Htrim, Hloc, Hn, Hs. unfold checkExpression. rewrite Hexp. simpl.
  rewrite !Hc.
  unfold ahead in Hx. destruct (drop_while whitespaceRe r) as [|y r']; [done|].
  simpl in Hx. simplify_eq. by rewrite Hp.
Qed.

(** *** The turns of the loop *)

(** A character that does not end the attribute and is none of the
    operators is put at the end of the key. *)
Lemma turn_key_append c r a :
  loc a = LocKey -> str_eqb (key a) [] = false ->
  is_chr "!" c = false -> is_chr "=" c = false ->
  isEndOfAttribute (c :: r) a = Ok (false, a) ->
  exists a1, attribute_turn rev (c :: r) a = Ok (a1, false)
             /\ loc a1 = LocKey /\ key a1 = key a ++ [c]
             /\ value a1 = value a /\ escapedAttr a1 = escapedAttr a
             /\ tokens (this a1) = tokens (this a).
Proof.
  intros Hloc Hnil Hbang Heq Hend. unfold attribute_turn. rewrite Hend.
  destruct a as [lx q esc ky v st ll cba cbv l]. simpl in *. subst l.
  unfold attribute_char, is_chr_opt. simpl. rewrite Hnil, Hbang, Heq. simpl.
  unfold new_line_check, with_this.
  destruct (N.eqb c LF); eexists; (split; [done|]); simpl;
    repeat split; try done; by case_match.
Qed.

(** In a value, a character that does not end the attribute goes through
    [parseChar] and is put at the end of the value. *)
Lemma turn_value_append c r a st1 :
  loc a = LocValue -> isEndOfAttribute (c :: r) a = Ok (false, a) ->
  parseChar (Some c) (state a) = inr st1 ->
  exists a1, attribute_turn rev (c :: r) a = Ok (a1, false)
             /\ loc a1 = LocValue /\ key a1 = key a
             /\ value a1 = value a ++ [c] /\ state a1 = st1
             /\ escapedAttr a1 = escapedAttr a
             /\ tokens (this a1) = tokens (this a).
Proof.
  intros Hloc Hend Hparse. unfold attribute_turn. rewrite Hend.
  destruct a as [lx q esc ky v st ll cba cbv l]. simpl in *. subst l.
  unfold attribute_char. simpl. rewrite Hparse. simpl.
  unfold new_line_check, with_this.
  destruct (N.eqb c LF); eexists; (split; [done|]); simpl;
    repeat split; try done; by case_match.
Qed.

(** [=] and [!=] after a name begin the value. *)
Lemma loop_operator escaped r a :
  loc a = LocKey -> str_eqb (trim (key a)) [] = false ->
  str_eqb (key a) [] = false ->
  exists a1, attribute_loop rev (operator escaped ++ r) a
             = attribute_loop rev r a1
             /\ loc a1 = LocValue /\ key a1 = key a /\ value a1 = value a
             /\ state a1 = defaultState /\ escapedAttr a1 = escaped
             /\ tokens (this a1) = tokens (this a).
Proof.
  intros Hloc Htrim Hnil.
  assert (Hturn : exists a1,
    attribute_turn rev (operator escaped ++ r) a = Ok (a1, negb escaped)
    /\ loc a1 = LocValue /\ key a1 = key a /\ value a1 = value a
    /\ state a1 = defaultState /\ escapedAttr a1 = escaped
    /\ tokens (this a1) = tokens (this a)).
  { destruct a as [lx q esc ky v st ll cba cbv l]. simpl in *. subst l.
    unfold attribute_turn, isEndOfAttribute. simpl. rewrite Htrim.
    destruct escaped; simpl; unfold attribute_char; simpl; rewrite Hnil;
      simpl; eexists; (split; [done|]); done. }
  destruct Hturn as (a1 & Hturn & H). exists a1. split; [|done].
  destruct escaped; simpl in *; by rewrite Hturn.
Qed.

(** At the end of an attribute the token is pushed: its name is the
    trimmed key, its [val] the trimmed value. *)
Lemma loop_at_end rest a k :
  trim (key a) = k -> forallb name_char k = true ->
  str_eqb (trim (value a)) [] = true \/ isExpression (value a) = None ->
  isEndOfAttribute rest a = Ok (true, a) ->
  exists a1 tok,
    attribute_loop rev rest a
    = match rest with
      | [] => Ok a1
      | _ :: r => attribute_loop rev r a1
      end
    /\ loc a1 = LocKey /\ key a1 = [] /\ value a1 = []
    /\ tokens (this a1) = tokens (this a) ++ [tok]
    /\ type tok = "attribute" /\ name tok = Some k
    /\ val tok = attribute_val rev (trim (value a))
    /\ mustEscape tok = Some (escapedAttr a).
Proof.
  intros Hk Hplain Hval Hend.
  assert (Hcheck : (if str_eqb (trim (value a)) [] then Ok true
                    else checkExpression (value a) false) = Ok true).
  { destruct Hval as [-> | Hexp]; [done|].
    unfold checkExpression. rewrite Hexp. by case_match. }
  assert (Hturn : exists a1 tok,
    attribute_turn rev rest a = Ok (a1, false)
    /\ loc a1 = LocKey /\ key a1 = [] /\ value a1 = []
    /\ tokens (this a1) = tokens (this a) ++ [tok]
    /\ type tok = "attribute" /\ name tok = Some k
    /\ val tok = attribute_val rev (trim (value a))
    /\ mustEscape tok = Some (escapedAttr a)).
  { unfold attribute_turn. rewrite Hend. simpl.
    unfold end_of_attribute. rewrite Hcheck. simpl.
    rewrite Hk, (strip_quotes_plain k Hplain).
    destruct rest as [|c r]; simpl.
    - eexists _, _. split; [done|]. done.
    - unfold new_line_check, with_this. simpl.
      destruct (N.eqb c LF); simpl; eexists _, _; (split; [done|]);
        simpl; repeat split; try done; by case_match. }
  destruct Hturn as (a1 & tok & Hturn & H). exists a1, tok. split; [|done].
  destruct rest as [|c r]; simpl; by rewrite Hturn.
Qed.

(** *** Runs of characters *)

(** White space after a name, with an operator, a comma or nothing after
    it, is read into the key. *)
Lemma loop_key_space ws rest a k :
  forallb whitespaceRe ws = true -> loc a = LocKey ->
  trim (key a) = k -> k <> [] ->
  (ws <> [] ->
   match drop_while whitespaceRe rest with
   | x :: _ => is_chr "=" x || is_chr "!" x || is_chr "," x = true
   | [] => True
   end) ->
  exists a', attribute_loop rev (ws ++ rest) a = attribute_loop rev rest a'
             /\ loc a' = LocKey /\ trim (key a') = k
             /\ value a' = value a /\ escapedAttr a' = escapedAttr a
             /\ tokens (this a') = tokens (this a).
Proof.
  revert a. induction ws as [|c ws IH]; intros a Hws Hloc Hk Hne Hx.
  { by exists a. }
  simpl in Hws. apply andb_true_iff in Hws as [Hc Hws].
  specialize (Hx ltac:(done)).
  destruct (trim_nonempty _ _ Hk Hne) as [Htrim Hnil].
  pose proof (whitespaceRe_facts c Hc) as (Hsp & _ & Hbang & Heq & _).
  destruct (turn_key_append c (ws ++ rest) a Hloc Hnil Hbang Heq)
    as (a1 & Hturn & Hloc1 & Hkey1 & Hval1 & Hesc1 & Htok1).
  { apply not_end_key_space; [done..|]. by rewrite drop_while_all. }
  destruct (IH a1 Hws Hloc1) as (a' & Hloop & ? & ? & ? & ? & ?);
    [|done|by intros _|].
  { rewrite Hkey1, trim_snoc_space; [done | by rewrite Hk | done]. }
  exists a'. split.
  { rewrite <- Hloop. by apply attribute_loop_cons. }
  repeat split; congruence.
Qed.

(** A value that goes on at each of its characters is read into the
    value, through [parseChar]. *)
Lemma loop_value_text v rest a st' :
  loc a = LocValue -> str_eqb (trim (key a)) [] = false ->
  (forall i c st,
     v !! i = Some c -> parse_chars (take i v) (state a) = inr st ->
     goes_on (value a ++ take i v) st c (drop (S i) v)) ->
  parse_chars v (state a) = inr st' ->
  exists a', attribute_loop rev (v ++ rest) a = attribute_loop rev rest a'
             /\ loc a' = LocValue /\ key a' = key a
             /\ value a' = value a ++ v /\ state a' = st'
             /\ escapedAttr a' = escapedAttr a
             /\ tokens (this a') = tokens (this a).
Proof.
  revert a. induction v as [|c v IH]; intros a Hloc Htrim Hgo Hparse.
  { simpl in Hparse. simplify_eq. exists a. by rewrite app_nil_r. }
  simpl in Hparse.
  destruct (parseChar (Some c) (state a)) as [|st1] eqn:Hpc; [done|].
  destruct (turn_value_append c (v ++ rest) a st1 Hloc)
    as (a1 & Hturn & Hloc1 & Hkey1 & Hval1 & Hst1 & Hesc1 & Htok1); [|done|].
  { specialize (Hgo 0%nat c (state a) eq_refl eq_refl).
    rewrite app_nil_r in Hgo. simpl in Hgo. rewrite drop_0 in Hgo.
    destruct Hgo as [Hc|[Hn|[Hexp|(Hc & x & Hx & Hp & Hq)]]].
    - by apply not_end_value_char.
    - by apply not_end_value_nested.
    - by apply not_end_value_invalid.
    - apply not_end_value_space; [done..|]. unfold ahead in Hx.
      destruct (drop_while whitespaceRe v) as [|y v'] eqn:Hd;
        simpl in Hx; [done|]. simplify_eq.
      rewrite drop_while_app_keep by (by rewrite Hd). by rewrite Hd. }
  destruct (IH a1 Hloc1) as (a' & Hloop & ? & Hkey' & Hval' & ? & ? & ?);
    [congruence | | congruence |].
  { intros i c' st Hi Hp. rewrite Hval1, <- app_assoc.
    apply (Hgo (S i) c' st Hi). simpl. rewrite Hpc. by rewrite <- Hst1. }
  exists a'. split.
  { rewrite <- Hloop. by apply attribute_loop_cons. }
  rewrite Hval', Hval1, <- app_assoc. repeat split; congruence.
Qed.

(** White space after a value, with a punctuator or nothing after it, is
    read into the value. *)
Lemma loop_value_space ws rest a st' :
  forallb whitespaceRe ws = true -> loc a = LocValue ->
  str_eqb (trim (key a)) [] = false ->
  (ws <> [] ->
   match drop_while whitespaceRe rest with
   | x :: _ => isPunctuator x = true /\ quoteRe x = false
   | [] => True
   end) ->
  parse_chars ws (state a) = inr st' ->
  exists a', attribute_loop rev (ws ++ rest) a = attribute_loop rev rest a'
             /\ loc a' = LocValue /\ key a' = key a
             /\ value a' = value a ++ ws /\ state a' = st'
             /\ escapedAttr a' = escapedAttr a
             /\ tokens (this a') = tokens (this a).
Proof.
  revert a. induction ws as [|c ws IH]; intros a Hws Hloc Htrim Hx Hparse.
  { simpl in Hparse. simplify_eq. exists a. by rewrite app_nil_r. }
  simpl in Hws. apply andb_true_iff in Hws as [Hc Hws]. simpl in Hparse.
  specialize (Hx ltac:(done)).
  destruct (parseChar (Some c) (state a)) as [|st1] eqn:Hpc; [done|].
  destruct (turn_value_append c (ws ++ rest) a st1 Hloc)
    as (a1 & Hturn & Hloc1 & Hkey1 & Hval1 & Hst1 & Hesc1 & Htok1); [|done|].
  { apply not_end_value_space; [done..|]. by rewrite drop_while_all. }
  destruct (IH a1 Hws Hloc1) as (a' & Hloop & ? & Hkey' & Hval' & ? & ? & ?);
    [congruence | by intros _ | congruence |].
  exists a'. split.
  { rewrite <- Hloop. by apply attribute_loop_cons. }
  rewrite Hval', Hval1, <- app_assoc. repeat split; congruence.
Qed.

(** *** One entry *)

(** After white space, a written entry begins with a character that is
    no operator and no comma. *)
Lemma ahead_written e next r :
  well_written e next ->
  exists x, ahead (written e ++ r) = Some x
            /\ is_chr "=" x = false /\ is_chr "!" x = false
            /\ is_chr "," x = false.
Proof.
  intros (Hpad & Hne & Hname & _). unfold written, ahead.
  rewrite <- !app_assoc.
  induction (w_pad e) as [|c pad IH]; simpl.
  - destruct (w_name e) as [|c k]; [done|]. simpl in *.
    apply andb_true_iff in Hname as [Hc _].
    apply name_char_facts in Hc as (_ & -> & _ & ? & ? & ? & _).
    by exists c.
  - simpl in Hpad. apply andb_true_iff in Hpad as [Hc Hpad].
    destruct (whitespaceRe c); [by apply IH|].
    exists c. split; [done|].
    apply js_space_facts in Hc as Hf. destruct Hf as (_ & ? & ?).
    by apply js_space_no_comma in Hc.
Qed.

Lemma ahead_written_list es r :
  es <> [] -> well_written_list es ->
  exists x, ahead (written_list es ++ r) = Some x
            /\ is_chr "=" x = false /\ is_chr "!" x = false
            /\ is_chr "," x = false.
Proof.
  destruct es as [|e es]; [done|]. intros _ [He _].
  destruct es as [|e2 es]; [by eapply ahead_written|].
  change (written_list (e :: e2 :: es))
    with (written e ++ separator (w_sep e) :: written_list (e2 :: es)).
  rewrite <- app_assoc. by eapply ahead_written.
Qed.

(** One written entry, with nothing after it or with its separator and
    the next entries, becomes one attribute token. *)
Lemma loop_written e next rest a :
  well_written e next -> loc a = LocKey -> key a = [] -> value a = [] ->
  match next with
  | None => rest = []
  | Some text =>
    rest = separator (w_sep e) :: text
    /\ exists x, ahead text = Some x
                 /\ is_chr "=" x = false /\ is_chr "!" x = false
                 /\ is_chr "," x = false
  end ->
  exists a' tok,
    attribute_loop rev (written e ++ rest) a
    = match rest with
      | [] => Ok a'
      | _ :: r => attribute_loop rev r a'
      end
    /\ loc a' = LocKey /\ key a' = [] /\ value a' = []
    /\ tokens (this a') = tokens (this a) ++ [tok]
    /\ entry_token rev (entry_of e) tok.
Proof.
  intros (Hpad & Hne & Hname & Htrail & Hvalue & Hsep) Hloc Hkey Hval Hrest.
  unfold written. rewrite <- !app_assoc.
  set (mid := match w_value e with
              | None => []
              | Some (gap, escaped, v) => gap ++ operator escaped ++ v
              end) in *.
  destruct (loop_pad rev (w_pad e) (w_name e ++ mid ++ w_trail e ++ rest) a
              Hpad Hloc)
    as (a0 & -> & Hloc0 & Hkey0 & Hval0 & Hesc0 & Htok0).
  { rewrite Hkey. by exists []. }
  destruct (loop_name rev (w_name e) (mid ++ w_trail e ++ rest) a0 []
              Hname Hloc0 Hkey0)
    as (a1 & -> & Hloc1 & Hkey1 & Hval1 & Hesc1 & Htok1).
  simpl in Hkey1. pose proof (key_of_trim _ _ Hkey1) as Hk1.
  rewrite Hval0, Hval in Hval1.
  destruct (w_value e) as [[[gap escaped] v]|] eqn:Hev; subst mid.
  - destruct Hvalue as (Hgap & Hgo & Hexp & st & Hparse & Hnest & Hstr).
    rewrite <- !app_assoc.
    destruct (loop_key_space gap (operator escaped ++ v ++ w_trail e ++ rest)
                a1 (w_name e) Hgap Hloc1 Hk1 Hne)
      as (a2 & -> & Hloc2 & Hk2 & Hval2 & Hesc2 & Htok2).
    { intros _. by destruct escaped. }
    destruct (trim_nonempty _ _ Hk2 Hne) as [Htrim2 Hnil2].
    destruct (loop_operator escaped (v ++ w_trail e ++ rest) a2
                Hloc2 Htrim2 Hnil2)
      as (a3 & -> & Hloc3 & Hkey3 & Hval3 & Hst3 & Hesc3 & Htok3).
    apply parse_chars_app in Hparse as (stv & Hpv & Hpt).
    assert (Htrim3 : str_eqb (trim (key a3)) [] = false) by congruence.
    assert (Hv3 : value a3 = []) by congruence.
    destruct (loop_value_text v (w_trail e ++ rest) a3 stv Hloc3 Htrim3)
      as (a5 & -> & Hloc5 & Hkey5 & Hval5 & Hst5 & Hesc5 & Htok5).
    { intros i c st0 Hi Hp. rewrite Hv3. rewrite Hst3 in Hp. by apply Hgo. }
    { by rewrite Hst3. }
    rewrite Hv3 in Hval5. simpl in Hval5.
    assert (Htrim5 : str_eqb (trim (key a5)) [] = false) by congruence.
    destruct (loop_value_space (w_trail e) rest a5 st Htrail Hloc5 Htrim5)
      as (a6 & -> & Hloc6 & Hkey6 & Hval6 & Hst6 & Hesc6 & Htok6).
    { intros Htr. destruct next as [text|]; [|by subst rest].
      destruct Hrest as [-> _]. destruct (w_sep e) as [|c].
      - simpl. split; [by apply Hsep | done].
      - by destruct Hsep as (_ & ? & _). }
    { by rewrite Hst5. }
    assert (Hvalue6 : value a6 = v ++ w_trail e) by (by rewrite Hval6, Hval5).
    assert (Htrim6 : str_eqb (trim (key a6)) [] = false) by congruence.
    destruct (loop_at_end rest a6 (w_name e))
      as (a7 & tok & Hloop7 & ? & ? & ? & Htok7 & Hty & Hnm & Hvl & Hme);
      [congruence | done | right; congruence | |].
    { destruct next as [text|]; [|subst rest; by apply end_nothing].
      destruct Hrest as [-> (x & Hx & H1 & H2 & H3)].
      destruct (w_sep e) as [|c]; simpl.
      - apply end_value_comma; congruence.
      - destruct Hsep as (Hc & _ & Hp).
        eapply end_value_blank; try done; try congruence.
        by apply Hp. }
    exists a7, tok. split; [done|]. do 4 (split; [congruence|]).
    unfold entry_token, entry_of, entry_val. simpl. rewrite Hev.
    rewrite Hvalue6 in Hvl. unfold attribute_val in Hvl.
    split; [done|]. split; [done|]. split; [by destruct rev | congruence].
  - rewrite app_nil_l.
    destruct (loop_key_space (w_trail e) rest a1 (w_name e) Htrail Hloc1 Hk1 Hne)
      as (a2 & -> & Hloc2 & Hk2 & Hval2 & Hesc2 & Htok2).
    { intros Htr. destruct next as [text|]; [|by subst rest].
      destruct Hrest as [-> _]. destruct (w_sep e) as [|c].
      - done.
      - by destruct Hsep as (_ & ? & _). }
    destruct (trim_nonempty _ _ Hk2 Hne) as [Htrim2 Hnil2].
    destruct (loop_at_end rest a2 (w_name e))
      as (a7 & tok & Hloop7 & ? & ? & ? & Htok7 & Hty & Hnm & Hvl & Hme);
      [done | done | left; by rewrite Hval2, Hval1 | |].
    { destruct next as [text|]; [|subst rest; by apply end_nothing].
      destruct Hrest as [-> (x & Hx & H1 & H2 & H3)].
      destruct (w_sep e) as [|c]; simpl.
      - by apply end_key_comma.
      - destruct Hsep as (Hc & _ & _). by eapply end_key_blank. }
    exists a7, tok. split; [done|]. do 4 (split; [congruence|]).
    unfold entry_token, entry_of, entry_val. simpl. rewrite Hev.
    rewrite Hval2, Hval1 in Hvl.
    change (trim []) with (@nil char) in Hvl. unfold attribute_val in Hvl.
    split; [done|]. split; [done|]. split; [by destruct rev | done].
Qed.

(** A list of written entries becomes the list of their tokens. *)
Lemma loop_written_list es a :
  es <> [] -> well_written_list es ->
  loc a = LocKey -> key a = [] -> value a = [] ->
  exists a' toks,
    attribute_loop rev (written_list es) a = Ok a'
    /\ tokens (this a') = tokens (this a) ++ toks
    /\ keeps (this a) (this a')
    /\ Forall2 (fun e t => entry_token rev (entry_of e) t) es toks.
Proof.
  revert a. induction es as [|e es IH]; [done|].
  intros a _ [He Hes] Hloc Hkey Hval.
  destruct es as [|e2 es].
  - destruct (loop_written e None [] a He Hloc Hkey Hval) as (a' & tok & Hloop & H);
      [done|].
    rewrite app_nil_r in Hloop. exists a', [tok]. split; [done|].
    destruct H as (_ & _ & _ & Htok & Hentry). split; [done|].
    split; [by eapply attribute_loop_keeps | by constructor].
  - destruct (loop_written e (Some (written_list (e2 :: es)))
                (separator (w_sep e) :: written_list (e2 :: es)) a
                He Hloc Hkey Hval)
      as (a1 & tok & Hloop & Hloc1 & Hkey1 & Hval1 & Htok1 & Hentry).
    { split; [done|].
      destruct (ahead_written_list (e2 :: es) []) as (x & Hx & H);
        [done | done |].
      rewrite app_nil_r in Hx. eauto. }
    destruct (IH a1) as (a' & toks & Hloop' & Htok' & _ & Hall);
      [done | done | done | done | done |].
    assert (Hall' : attribute_loop rev (written_list (e :: e2 :: es)) a = Ok a').
    { change (written_list (e :: e2 :: es))
        with (written e ++ separator (w_sep e) :: written_list (e2 :: es)).
      by rewrite Hloop. }
    exists a', (tok :: toks). split; [done|].
    split; [by rewrite Htok', Htok1, <- app_assoc|].
    split; [by eapply attribute_loop_keeps | by constructor].
Qed.
End Written.

(** White space around a value is trimmed away. *)
Lemma trim_around (ws v ws' : str) :
  forallb js_space ws = true -> forallb js_space ws' = true ->
  trim (ws ++ v ++ ws') = trim v.
Proof.
  intros Hws Hws'. unfold trim. rewrite (drop_while_all _ _ _ Hws).
  assert (Hend : forall d, drop_while_end js_space (d ++ ws')
                           = drop_while_end js_space d).
  { intros d. unfold drop_while_end. rewrite reverse_app.
    rewrite drop_while_all; [done|].
    rewrite forallb_forall in *. intros x Hx. apply Hws'.
    apply list_elem_of_In. apply list_elem_of_In in Hx.
    by apply elem_of_reverse. }
  destruct (drop_while js_space v) as [|c d] eqn:Hd.
  - assert (Hv : forallb js_space v = true).
    { clear -Hd. induction v as [|x v IH]; [done|]. simpl in *.
      destruct (js_space x); [by apply IH | done]. }
    rewrite (drop_while_all _ _ _ Hv).
    rewrite <- (app_nil_r ws'), (drop_while_all _ _ _ Hws'). done.
  - rewrite drop_while_app_keep by (by rewrite Hd). by rewrite Hd, Hend.
Qed.

Lemma whitespaceRe_js_space (ws : str) :
  forallb whitespaceRe ws = true -> forallb js_space ws = true.
Proof.
  induction ws as [|c ws IH]; [done|]. simpl.
  intros [Hc Hws]%andb_true_iff.
  apply whitespaceRe_facts in Hc as (-> & _). by apply IH.
Qed.

(** C4, as the code has it. For a bracketed list of entries, each a
    name, or a name, [=] or [!=] and a value, with white space allowed
    before the name, around the operator and after the value, and with a
    comma or white space alone between two entries, [attrs] pushes one
    attribute token per entry, between the two marker tokens.  The token
    of an entry without a value has [val] [true] in [src/lexer.ts] and
    [''] in the later revision of the lexer; the token of [name=value]
    or [name!=value] has as [val] the text between the operator and the
    end of the entry with the white space around it trimmed away, and
    [mustEscape] is [true] for [=] and [false] for [!=].  The [Param]
    built from a token takes over its [name] and [val]. *)
Theorem attrs_entries `{P : Packages} (rev : Revision) (lx : Lexer)
    (es : list Written) (rest : str) (range : Range) (st : State) :
  es <> [] -> well_written_list es ->
  input lx = chr "(" :: written_list es ++ chr ")" :: rest ->
  parseUntil (input lx) (chr ")") 1 = inr range ->
  r_end range = S (length (written_list es)) ->
  parse (written_list es) = inr st -> isNesting st = false ->
  exists lx' toks t0 t1,
    attrs rev lx = Ok (Some lx')
    /\ tokens lx' = tokens lx ++ t0 :: toks ++ [t1]
    /\ type t0 = "start-attributes" /\ type t1 = "end-attributes"
    /\ Forall2 (fun e t => entry_token rev (entry_of e) t) es toks
    /\ Forall (fun e => forall gap escaped v,
                 w_value e = Some (gap, escaped, v) ->
                 trim (v ++ w_trail e) = trim v) es
    /\ attribute_params (t0 :: toks ++ [t1])
       = (fun t => {| param_name := name t; param_val := val t |}) <$> toks
    /\ input lx' = rest.
Proof.
  intros Hne Hwell Hin Hpu Hend Hparse Hnest.
  set (lx1 := push (tokenize lx "start-attributes" Undefined) lx).
  set (lx2 := consume (r_end range + 1) (incrementColumn 1 lx1)).
  set (a0 := {| this := lx2; quote := None; escapedAttr := true; key := [];
                value := []; state := defaultState;
                local_line := this_line lx;
                columnBeginAttr := column lx2; columnBeginVal := 0;
                loc := LocKey |}).
  destruct (loop_written_list rev es a0 Hne Hwell eq_refl eq_refl eq_refl)
    as (a' & toks & Hloop & Htok & Hkeeps & Hall).
  assert (Hattr : substr 1 (r_end range - 1) (input lx) = written_list es).
  { unfold substr. rewrite Hin, Hend. simpl. rewrite Nat.sub_0_r, drop_0.
    by rewrite take_app_length. }
  assert (Hrest : input lx2 = rest).
  { unfold lx2. simpl. unfold substr_from. rewrite Hin, Hend.
    replace (S (length (written_list es)) + 1)%nat
      with (S (length (written_list es) + 1)) by lia.
    simpl. by rewrite drop_app_add. }
  eexists _, toks, (tokenize lx "start-attributes" Undefined), _.
  split.
  { assert (H0 : input lx !! 0%nat = Some (chr "(")) by (by rewrite Hin).
    unfold attrs, bracketExpression. fold lx1.
    replace (input lx1) with (input lx) by done.
    rewrite !H0. change (is_chr_opt "(" (Some (chr "("))) with true.
    change (0 + 1)%nat with 1%nat.
    cbn [mbind result_bind]. rewrite Hpu.
    cbn [mbind result_bind]. rewrite Hattr.
    unfold checkNesting. rewrite Hparse, Hnest.
    cbn [mbind result_bind]. fold lx2. fold a0. rewrite Hloop.
    cbn [mbind result_bind]. reflexivity. }
  simpl. rewrite Htok. simpl.
  split; [by rewrite <- !app_assoc|].
  split; [done|]. split; [done|]. split; [done|]. split; [|split].
  - clear -Hwell. induction es as [|e es IH]; [done|].
    destruct Hwell as [He Hes]. constructor; [|by apply IH].
    intros gap escaped v Hev.
    destruct He as (_ & _ & _ & Htrail & _).
    by apply (trim_around [] v (w_trail e)); [|apply whitespaceRe_js_space].
  - apply attribute_params_tokens; [|done|done].
    clear -Hall. induction Hall as [|e t es toks (Ht & _) _ IH]; by constructor.
  - destruct Hkeeps as [-> _ _ _]. done.
Qed.

Lemma attrs_entries_witness :
  let es := [ mkWritten [] (lit "a")
                (Some (lit " ", true, lit " 1")) (lit " ") Comma;
              mkWritten (lit " ") (lit "b") None [] (Blank (chr " "));
              mkWritten [] (lit "c")
                (Some ([], false, lit " 2")) [] (Blank LF);
              mkWritten [] (lit "d") None (lit " ") Comma ] in
  let code := lit "(a = 1 , b c!= 2" ++ LF :: lit "d )" in
  exists lx' toks t0 t1,
    @attrs Small.packages Later (new_Lexer code) = Ok (Some lx')
    /\ tokens lx' = tokens (new_Lexer code) ++ t0 :: toks ++ [t1]
    /\ type t0 = "start-attributes" /\ type t1 = "end-attributes"
    /\ Forall2 (fun e t => entry_token Later (entry_of e) t) es toks
    /\ Forall (fun e => forall gap escaped v,
                 w_value e = Some (gap, escaped, v) ->
                 trim (v ++ w_trail e) = trim v) es
    /\ attribute_params (t0 :: toks ++ [t1])
       = (fun t => {| param_name := name t; param_val := val t |}) <$> toks
    /\ input lx' = [].
Proof.
  intros es code.
  apply (@attrs_entries Small.packages Later (new_Lexer code) es []
           (mkRange 1 19 (lit "a = 1 , b c!= 2" ++ LF :: lit "d "))
           ([], false)).
  - discriminate.
  - simpl. repeat split; try discriminate; try reflexivity.
    + intros i c st Hi Hp. destruct i as [|[|i]]; simplify_eq/=.
      * right. right. left. by vm_compute.
      * by left.
    + exists ([], false). repeat split.
    + intros H. by destruct H.
    + intros i c st Hi Hp. destruct i as [|[|i]]; simplify_eq/=.
      * right. right. left. by vm_compute.
      * by left.
    + exists ([], false). repeat split.
    + intros _ x Hx. vm_compute in Hx. by simplify_eq.
  - vm_compute; reflexivity.
  - vm_compute; reflexivity.
  - vm_compute; reflexivity.
  - vm_compute; reflexivity.
  - vm_compute; reflexivity.
Defined.

(** C4 as stated fails on [src/lexer.ts]: the attribute token of [(a)],
    and the [Param] built from it, have [val] [true], not the empty
    string. *)
Lemma original_valueless_attribute :
  exists toks t,
    @getTokens Small.packages Original (new_Lexer (lit "(a)")) = Some (Ok toks)
    /\ toks !! 1%nat = Some t
    /\ type t = "attribute" /\ name t = Some (lit "a")
    /\ val t = Bool true /\ val t <> Str []
    /\ attribute_params toks
       = [ {| param_name := Some (lit "a"); param_val := Bool true |} ].
Proof.
  eexists _, _. split; [vm_compute; reflexivity|].
  split; [reflexivity|]. repeat split. discriminate.
Qed.

(** * Further properties of the lexer and the parsers *)

(** ** The constructor *)


Lemma replace_cr_clean (s : str) : (CR ∉ s) -> replace_cr s = s.
Proof.
  induction s as [|c s IH]; [done|]. intros Hs. simpl.
  destruct (N.eqb_spec c CR) as [->|Hc]; [set_solver|].
  rewrite IH; [done | set_solver].
Qed.



(** ** What the regular expressions match *)

Lemma take_drop_while {A} (f : A -> bool) (l : list A) :
  take_while f l ++ drop_while f l = l.
Proof. induction l as [|x l IH]; simpl; [done|]. case_match; simpl; congruence. Qed.

Lemma Forall_take_while {A} (f : A -> bool) (l : list A) :
  Forall (fun x => f x = true) (take_while f l).
Proof.
  induction l as [|x l IH]; simpl; [done|].
  destruct (f x) eqn:E; by constructor.
Qed.

Lemma drop_while_head {A} (f : A -> bool) (l : list A) :
  from_option f false (head (drop_while f l)) = false.
Proof.
  induction l as [|x l IH]; simpl; [done|]. by destruct (f x) eqn:E.
Qed.

Lemma take_while_nil_head {A} (f : A -> bool) (l : list A) :
  take_while f l = [] -> from_option f false (head l) = false.
Proof. destruct l as [|x l]; simpl; [done|]. by destruct (f x). Qed.

Lemma drop_while_end_prefix {A} (f : A -> bool) (l : list A) :
  exists t, l = drop_while_end f l ++ t.
Proof.
  unfold drop_while_end. exists (reverse (take_while f (reverse l))).
  rewrite <- reverse_app, take_drop_while. by rewrite reverse_involutive.
Qed.

Lemma not_lf_false_head (s : str) :
  from_option not_lf false (head s) = false -> at_line_end s.
Proof.
  destruct s as [|c s]; [by left|]. simpl. unfold not_lf.
  destruct (N.eqb_spec c LF) as [->|]; [by right | done].
Qed.

Lemma Forall_not_lf (s : str) : Forall (fun c => not_lf c = true) s -> LF ∉ s.
Proof.
  intros H Hin. rewrite Forall_forall in H. specialize (H _ Hin).
  unfold not_lf in H. by rewrite N.eqb_refl in H.
Qed.

Lemma tag_regex_prefix rev s name :
  tag_regex rev s = Some name ->
  exists rest, s = name ++ rest
               /\ Forall (fun c => tag_inner rev c = true) name.
Proof.
  unfold tag_regex. intros H. destruct s as [|c r]; [done|].
  destruct (tag_edge rev c) eqn:Hc; simplify_eq.
  destruct (drop_while_end_prefix (fun x => negb (tag_edge rev x))
              (take_while (tag_inner rev) r)) as [t Ht].
  exists (t ++ drop_while (tag_inner rev) r). split.
  - simpl. f_equal. rewrite app_assoc, <- Ht. by rewrite take_drop_while.
  - constructor; [unfold tag_inner; by rewrite Hc|].
    pose proof (Forall_take_while (tag_inner rev) r) as HF.
    rewrite Ht in HF. by apply Forall_app in HF as [? _].
Qed.

Lemma tag_regex_chars rev s name :
  tag_regex rev s = Some name -> (LF ∉ name) /\ (chr "(" ∉ name).
Proof.
  intros H. apply tag_regex_prefix in H as (_ & _ & HF).
  rewrite Forall_forall in HF.
  split; intros Hin; specialize (HF _ Hin); by destruct rev.
Qed.

Lemma code_regex_prefix s all flags body :
  code_regex s = Some (all, flags, body) ->
  exists rest, s = all ++ rest /\ (LF ∉ all) /\ at_line_end rest
               /\ body <> [] /\ (LF ∉ body)
               /\ (flags = lit "=" \/ flags = lit "!=" \/ flags = lit "-")
               /\ exists ws, all = flags ++ ws.
Proof.
  unfold code_regex. intros H.
  destruct (code_flags s) as [[fl r]|] eqn:Hfl; simplify_eq/=.
  assert (Hs : s = fl ++ r /\ (LF ∉ fl)
               /\ (fl = lit "=" \/ fl = lit "!=" \/ fl = lit "-")).
  { unfold code_flags in Hfl. unfold is_chr in Hfl.
    repeat (case_match; simplify_eq/=);
      repeat match goal with
             | H : N.eqb _ _ = true |- _ => apply N.eqb_eq in H; subst
             end; (split; [done|]); (split; [set_solver|]); auto. }
  destruct Hs as (-> & Hlf & Hflags).
  assert (Hws : LF ∉ take_while blank r).
  { intros Hin. pose proof (Forall_take_while blank r) as HF.
    rewrite Forall_forall in HF. by specialize (HF _ Hin). }
  pose proof (take_drop_while blank r) as Hr.
  destruct (take_while not_lf (drop_while blank r)) as [|b bs] eqn:Hbody.
  - destruct (last (take_while blank r)) as [w|] eqn:Hlast; simplify_eq/=.
    exists (drop_while blank r). rewrite <- app_assoc, Hr.
    split; [done|]. split; [set_solver|].
    split; [by apply not_lf_false_head, take_while_nil_head|].
    split; [done|]. split; [|split; [done | eauto]].
    apply last_Some in Hlast as [l' Hl']. rewrite Hl' in Hws. set_solver.
  - simplify_eq/=. exists (drop_while not_lf (drop_while blank r)).
    assert (Hb : LF ∉ b :: bs).
    { rewrite <- Hbody. apply Forall_not_lf, Forall_take_while. }
    split.
    { rewrite <- !app_assoc. f_equal.
      rewrite <- Hr at 1. f_equal. rewrite <- Hbody. by rewrite take_drop_while. }
    split; [set_solver|].
    split; [apply not_lf_false_head, drop_while_head|].
    split; [done|]. split; [done|]. split; [done | eauto].
Qed.

Lemma rest_of_line (r w : str) :
  take_while not_lf r = w ->
  r = w ++ drop_while not_lf r /\ (LF ∉ w) /\ at_line_end (drop_while not_lf r).
Proof.
  intros <-. split; [by rewrite take_drop_while|]. split.
  - apply Forall_not_lf, Forall_take_while.
  - apply not_lf_false_head, drop_while_head.
Qed.

(** The pattern of [text]: the first regular expression, or else the
    second. *)
Lemma text_regex_prefix s len v :
  match text_regex1 s with
  | Some r => Some r
  | None => text_regex2 s
  end = Some (len, v) ->
  exists pre rest w, s = pre ++ rest /\ length pre = len /\ (LF ∉ pre)
                     /\ at_line_end rest /\ v = Some w /\ w <> [] /\ (LF ∉ w)
                     /\ (chr "(" ∉ take 1 pre)
                     /\ exists m, pre = m ++ w.
Proof.
  intros H. destruct (text_regex1 s) as [[len1 v1]|] eqn:H1; simplify_eq.
  - unfold text_regex1, is_chr in H1.
    destruct s as [|c r]; [done|].
    destruct (N.eqb_spec c (chr "|")) as [->|Hc].
    + destruct r as [|d r']; [done|].
      destruct (N.eqb_spec d (chr " ")) as [->|Hd].
      * destruct (take_while not_lf r') as [|b bs] eqn:Hb;
          cbv beta iota zeta in H1; simplify_eq;
          apply rest_of_line in Hb as (Hr & Hlf & Hend).
        -- exists [chr "|"; chr " "], (drop_while not_lf r'), [chr " "].
           split; [by rewrite Hr at 1|]. split; [done|]. split; [set_solver|].
           split; [done|]. split; [done|]. split; [done|]. split; [set_solver|].
        split; [set_solver|]. first [by exists [] | by eexists [_] | by eexists [_; _]].
        -- exists (chr "|" :: chr " " :: b :: bs), (drop_while not_lf r'), (b :: bs).
           split; [by rewrite Hr at 1|]. split; [done|]. split; [set_solver|].
           split; [done|]. split; [done|]. split; [done|]. split; [set_solver|].
        split; [set_solver|]. first [by exists [] | by eexists [_] | by eexists [_; _]].
      * destruct (take_while not_lf (d :: r')) as [|b bs] eqn:Hb;
          cbv beta iota zeta in H1; simplify_eq;
          apply rest_of_line in Hb as (Hr & Hlf & Hend).
        exists (chr "|" :: b :: bs), (drop_while not_lf (d :: r')), (b :: bs).
        split; [by rewrite Hr at 1|]. split; [done|]. split; [set_solver|].
        split; [done|]. split; [done|]. split; [done|]. split; [set_solver|].
        split; [set_solver|]. first [by exists [] | by eexists [_] | by eexists [_; _]].
    + destruct (N.eqb_spec c (chr " ")) as [->|Hc']; [|done].
      destruct (take_while not_lf r) as [|b bs] eqn:Hb;
        cbv beta iota zeta in H1; simplify_eq;
        apply rest_of_line in Hb as (Hr & Hlf & Hend).
      exists (chr " " :: b :: bs), (drop_while not_lf r), (b :: bs).
      split; [by rewrite Hr at 1|]. split; [done|]. split; [set_solver|].
      split; [done|]. split; [done|]. split; [done|]. split; [set_solver|].
        split; [set_solver|]. first [by exists [] | by eexists [_] | by eexists [_; _]].
  - unfold text_regex1, text_regex2, is_chr in *.
    destruct s as [|c r]; [done|].
    destruct (N.eqb_spec c (chr "|")) as [->|Hc].
    + destruct r as [|d r']; [done|].
      destruct (N.eqb_spec d (chr " ")) as [->|Hd]; [|done].
      by destruct (take_while not_lf r').
    + destruct (N.eqb_spec c (chr " ")) as [->|Hc']; [|done].
      cbv beta iota zeta in H. simplify_eq.
      destruct (take_while not_lf r) as [|b bs] eqn:Hb; [|done].
      apply rest_of_line in Hb as (Hr & Hlf & Hend). simpl in Hr.
      exists [chr " "], r, [chr " "].
      split; [done|]. split; [done|]. split; [set_solver|].
      split; [by rewrite Hr|].
      split; [done|]. split; [done|]. split; [set_solver|].
        split; [set_solver|]. first [by exists [] | by eexists [_] | by eexists [_; _]].
Qed.

Lemma text_regex_len s len v :
  match text_regex1 s with
  | Some r => Some r
  | None => text_regex2 s
  end = Some (len, v) -> (1 <= len)%nat.
Proof.
  destruct (text_regex1 s) as [[? ?]|] eqn:E1; intros H; simplify_eq.
  - by apply text_regex1_some in E1 as [? _].
  - by apply text_regex2_some in H as [? _].
Qed.

Lemma colon_regex_prefix s len v :
  colon_regex s = Some (len, v) ->
  exists pre rest, s = pre ++ rest /\ length pre = len /\ (LF ∉ pre)
                   /\ v = None /\ (chr "(" ∉ take 1 pre).
Proof.
  unfold colon_regex. intros H. destruct s as [|c r]; [done|].
  destruct (is_chr ":" c) eqn:Hc; [|done].
  apply N.eqb_eq in Hc as ->.
  pose proof (take_drop_while (is_chr " ") r) as Hr.
  pose proof (Forall_take_while (is_chr " ") r) as HF.
  destruct (take_while (is_chr " ") r) as [|b bs] eqn:Hb;
    cbv beta iota zeta in H; simplify_eq.
  exists (chr ":" :: b :: bs), (drop_while (is_chr " ") r).
  split; [by rewrite <- Hr at 1|]. split; [done|]. split.
  - intros Hin. apply elem_of_cons in Hin as [?|Hin]; [done|].
    rewrite Forall_forall in HF. by specialize (HF _ Hin).
  - split; [done | set_solver].
Qed.

(** ** One call of [advance], recognizer by recognizer *)

Lemma advance_cases `{P : Packages} (rev : Revision) (lx lx1 : Lexer) :
  advance rev lx = Ok lx1 ->
  (input lx = [] /\ lx1 = set_ended (push (eos_token lx) lx))
  \/ (input lx <> []
      /\ (tag rev lx = Ok (Some lx1) \/ code lx = Ok (Some lx1)
          \/ attrs rev lx = Ok (Some lx1) \/ text lx = Ok (Some lx1)
          \/ (rev = Later /\ colon lx = Ok (Some lx1)))).
Proof.
  unfold advance. intros H. inv_result.
  destruct (eos lx) as [[lx0|]|] eqn:Heos; simpl in E; simplify_eq.
  { left. by apply eos_some in Heos as [? ->]. }
  right. split; [by apply eos_none|].
  destruct (tag rev lx) as [[lx0|]|]; simpl in E; simplify_eq; [by left|].
  destruct (code lx) as [[lx0|]|]; simpl in E; simplify_eq; [by right; left|].
  destruct (attrs rev lx) as [[lx0|]|]; simpl in E; simplify_eq;
    [by right; right; left|].
  destruct (text lx) as [[lx0|]|]; simpl in E; simplify_eq;
    [by right; right; right; left|].
  destruct rev; simpl in E; [done|].
  destruct (colon lx) as [[lx0|]|]; simpl in E; simplify_eq.
  by right; right; right; right.
Qed.

Lemma tag_Some `{P : Packages} (rev : Revision) (lx lx1 : Lexer) :
  tag rev lx = Ok (Some lx1) ->
  exists name,
    tag_regex rev (input lx) = Some name
    /\ lx1 = incrementColumn (Z.of_nat (length name))
               (push (tokenize lx "tag" (Str name)) (consume (length name) lx)).
Proof.
  unfold tag. intros H.
  destruct (tag_regex rev (input lx)) as [name|] eqn:E; simplify_eq. eauto.
Qed.

Lemma code_Some `{P : Packages} (lx lx1 : Lexer) :
  code lx = Ok (Some lx1) ->
  exists all flags body,
    code_regex (input lx) = Some (all, flags, body)
    /\ (flags <> lit "-" -> isExpression body = None)
    /\ lx1 = incrementColumn (Z.of_nat (length body))
               (push {| type := "code"; line := this_line lx; col := column lx;
                        val := Str body; name := None;
                        buffer := Some (negb (str_eqb flags (lit "-")));
                        mustEscape := Some (str_eqb flags (lit "=")) |}
                  (incrementColumn
                     (Z.of_nat (length all) - Z.of_nat (length body))
                     (consume (length all) lx))).
Proof.
  unfold code. intros H.
  destruct (code_regex (input lx)) as [[[all flags] body]|] eqn:E; simplify_eq.
  exists all, flags, body. split; [done|].
  apply code_regex_prefix in E as (_ & _ & _ & _ & _ & _ & Hfl & _).
  inv_result.
  destruct Hfl as [-> | [-> | ->]].
  - split; [|reflexivity]. intros _. unfold checkExpression in E.
    change (is_chr_opt "=" (lit "=" !! 0%nat)) with true in E. simpl in E.
    destruct (isExpression body) as [ex|]; [|done]. by destruct (ex_loc ex).
  - split; [|reflexivity]. intros _. unfold checkExpression in E.
    change (is_chr_opt "=" (lit "!=" !! 1%nat)) with true in E.
    rewrite orb_true_r in E.
    destruct (isExpression body) as [ex|]; [|done]. by destruct (ex_loc ex).
  - split; [done | reflexivity].
Qed.

Lemma text_Some `{P : Packages} (lx lx1 : Lexer) :
  text lx = Ok (Some lx1) ->
  exists len w,
    match text_regex1 (input lx) with
    | Some r => Some r
    | None => text_regex2 (input lx)
    end = Some (len, Some w)
    /\ lx1 = incrementColumn (Z.of_nat (length w))
               (push {| type := "text"; line := this_line lx;
                        col := column lx + (Z.of_nat len - Z.of_nat (length w));
                        val := Str w; name := None; buffer := None;
                        mustEscape := None |}
                  (incrementColumn (Z.of_nat len - Z.of_nat (length w))
                     (consume len lx))).
Proof.
  unfold text, scan. intros H.
  destruct (text_regex1 (input lx)) as [[len v]|] eqn:E1; simpl in H.
  - destruct v as [w|]; simpl in H; simplify_eq. by exists len, w.
  - destruct (text_regex2 (input lx)) as [[len v]|] eqn:E2; simpl in H;
      [|done].
    destruct v as [w|]; simpl in H; simplify_eq. by exists len, w.
Qed.

Lemma colon_Some `{P : Packages} (lx lx1 : Lexer) :
  colon lx = Ok (Some lx1) ->
  exists len,
    colon_regex (input lx) = Some (len, None)
    /\ lx1 = push (tokenize lx ":" Undefined)
               (incrementColumn (Z.of_nat len) (consume len lx)).
Proof.
  unfold colon, scan. intros H.
  destruct (colon_regex (input lx)) as [[len v]|] eqn:E; simpl in H; [|done].
  pose proof (colon_regex_prefix _ _ _ E) as (_ & _ & _ & _ & _ & -> & _).
  simplify_eq. exists len. split; [done|]. simpl. repeat f_equal. lia.
Qed.

Lemma attrs_Some_head `{P : Packages} (rev : Revision) (lx lx1 : Lexer) :
  attrs rev lx = Ok (Some lx1) -> head (input lx) = Some (chr "(").
Proof.
  unfold attrs. intros H. destruct (input lx) as [|c r]; [done|]. simpl in *.
  destruct (is_chr "(" c) eqn:Hc; [|done]. by apply N.eqb_eq in Hc as ->.
Qed.

(** What a recognizer other than [attrs] removes from the input is on
    one line. *)
Lemma advance_prefix `{P : Packages} (rev : Revision) (lx lx1 : Lexer) :
  advance rev lx = Ok lx1 -> input lx <> [] ->
  head (input lx) <> Some (chr "(") ->
  exists pre, input lx = pre ++ input lx1 /\ pre <> [] /\ (LF ∉ pre).
Proof.
  intros Hadv Hne Hparen.
  apply advance_cases in Hadv as [[? _]|[_ Hadv]]; [done|].
  destruct Hadv as [H | [H | [H | [H | [_ H]]]]].
  - apply tag_Some in H as (name & Hre & ->).
    pose proof (tag_regex_some _ _ _ Hre) as [Hlen _].
    pose proof (tag_regex_chars _ _ _ Hre) as [Hlf _].
    apply tag_regex_prefix in Hre as (rest & Hin & _).
    exists name. simpl. unfold substr_from. rewrite Hin, drop_app_length.
    split; [done|]. split; [|done]. destruct name; [simpl in Hlen; lia | done].
  - apply code_Some in H as (all & flags & body & Hre & _ & ->).
    pose proof (code_regex_some _ _ _ _ Hre) as [Hlen _].
    apply code_regex_prefix in Hre as (rest & Hin & Hlf & _).
    exists all. simpl. unfold substr_from. rewrite Hin, drop_app_length.
    split; [done|]. split; [|done]. destruct all; [simpl in Hlen; lia | done].
  - by apply attrs_Some_head in H.
  - apply text_Some in H as (len & w & Hre & ->).
    pose proof (text_regex_len _ _ _ Hre) as Hlen'.
    apply text_regex_prefix in Hre
      as (pre & rest & w' & Hin & Hlen & Hlf & _ & _ & Hw & _).
    exists pre. simpl. unfold substr_from. rewrite Hin, <- Hlen, drop_app_length.
    split; [done|]. split; [|done].
    intros ->. simpl in Hlen. lia.
  - apply colon_Some in H as (len & Hre & ->).
    pose proof (colon_regex_some _ _ _ Hre) as [Hlen' _].
    apply colon_regex_prefix in Hre as (pre & rest & Hin & Hlen & Hlf & _).
    exists pre. simpl. unfold substr_from. rewrite Hin, <- Hlen, drop_app_length.
    split; [done|]. split; [|done]. intros ->. simpl in Hlen. lia.
Qed.

(** ** Line breaks *)

(** A line break at the head of the input is matched by no recognizer:
    [advance] throws "Unexpected text" with the line break and the four
    characters after it. *)
Lemma advance_at_newline `{P : Packages} (rev : Revision) (lx : Lexer)
    (r : str) :
  input lx = LF :: r ->
  advance rev lx = Throw (UnexpectedText (LF :: take 4 r)).
Proof.
  intros Hin. unfold advance, eos, tag, code, attrs, text, colon, fail, scan.
  rewrite Hin.
  replace (tag_regex rev (LF :: r)) with (@None str) by (by destruct rev).
  by destruct rev.
Qed.

Lemma getTokens_loop_invariant `{P : Packages} (rev : Revision)
    (I : Lexer -> Prop) (fuel : nat) (lx lx' : Lexer) :
  (forall l l1, ended l = false -> I l -> advance rev l = Ok l1 -> I l1) ->
  I lx -> getTokens_loop rev fuel lx = Returned lx' -> I lx'.
Proof.
  intros Hstep. revert lx. induction fuel as [|fuel IH]; intros lx HI H;
    simpl in H; destruct (ended lx) eqn:He; simplify_eq; try done.
  destruct (advance rev lx) as [l1|] eqn:Hadv; [|done].
  apply (IH l1); [|done]. by eapply Hstep.
Qed.

Lemma elem_of_replace_cr (x : char) (s : str) :
  x ∈ replace_cr s -> x = LF \/ x ∈ s.
Proof.
  remember (length s) as n eqn:Hn. revert s Hn.
  induction (lt_wf n) as [n _ IH]. intros s ->.
  destruct s as [|c s]; simpl; [set_solver|].
  destruct (N.eqb c CR).
  - destruct s as [|d s]; [set_solver|]. destruct (N.eqb d LF).
    + intros [->|Hin]%elem_of_cons; [by left|].
      apply (IH (length s)) in Hin as [?|?]; [by left | set_solver | simpl; lia | done].
    + intros [->|Hin]%elem_of_cons; [by left|].
      apply (IH (length (d :: s))) in Hin as [?|?];
        [by left | set_solver | simpl; lia | done].
  - intros [->|Hin]%elem_of_cons; [set_solver|].
    apply (IH (length s)) in Hin as [?|?]; [by left | set_solver | simpl; lia | done].
Qed.

Lemma replace_cr_line_break (s : str) :
  CR ∈ s \/ LF ∈ s -> LF ∈ replace_cr s.
Proof.
  remember (length s) as n eqn:Hn. revert s Hn.
  induction (lt_wf n) as [n _ IH]. intros s -> H.
  destruct s as [|c s]; simpl; [set_solver|].
  destruct (N.eqb_spec c CR) as [->|Hc].
  - destruct s as [|d s]; [set_solver|]. destruct (N.eqb d LF); set_solver.
  - destruct (N.eqb_spec c LF) as [->|Hc']; [set_solver|].
    apply elem_of_cons. right.
    apply (IH (length s)); [simpl; lia | done | set_solver].
Qed.

Lemma elem_of_strip_bom (x : char) (s : str) : x ∈ strip_bom s -> x ∈ s.
Proof. unfold strip_bom. repeat case_match; set_solver. Qed.

Lemma strip_bom_line_break (x : char) (s : str) :
  x <> BOM -> x ∈ s -> x ∈ strip_bom s.
Proof.
  unfold strip_bom. intros Hx Hin. destruct s as [|c s]; [done|].
  destruct (N.eqb_spec c BOM) as [->|]; [set_solver | done].
Qed.

(** X2. A source text with a line break (a CR or an LF) and no opening
    parenthesis cannot be lexed: [getTokens] terminates with an error. *)
Theorem line_break_without_parenthesis `{P : Packages} (rev : Revision)
    (code : str) :
  CR ∈ code \/ LF ∈ code -> chr "(" ∉ code ->
  exists e, getTokens rev (new_Lexer code) = Some (Throw e).
Proof.
  intros Hbreak Hparen. unfold getTokens.
  destruct (run_new_Lexer rev code) as [(e & ->)|(lx' & Hrun & Hf)]; [eauto|].
  exfalso.
  assert (HI : (LF ∈ input lx') /\ (chr "(" ∉ input lx')).
  { eapply (getTokens_loop_invariant rev
              (fun l => (LF ∈ input l) /\ (chr "(" ∉ input l)));
      [| |exact Hrun].
    - intros l l1 _ [Hlf Hp] Hadv.
      destruct (advance_prefix rev l l1 Hadv) as (pre & Hin & _ & Hpre).
      + intros E. rewrite E in Hlf. set_solver.
      + destruct (input l); [done|]. set_solver.
      + rewrite Hin in Hlf, Hp. set_solver.
    - simpl. split.
      + apply replace_cr_line_break.
        destruct Hbreak as [?|?]; [left | right];
          by apply strip_bom_line_break.
      + intros Hin. apply elem_of_replace_cr in Hin as [?|Hin]; [done|].
        by apply elem_of_strip_bom in Hin. }
  destruct Hf as [_ Hin _ _]. rewrite Hin in HI. set_solver.
Qed.

Lemma line_break_without_parenthesis_witness :
  exists e,
    @getTokens Small.packages Later (new_Lexer [chr "a"; CR; LF; chr "b"])
    = Some (Throw e).
Proof.
  apply (@line_break_without_parenthesis Small.packages Later
           [chr "a"; CR; LF; chr "b"]).
  - left. refine (bool_decide_unpack _ _); vm_compute; exact I.
  - refine (bool_decide_unpack _ _); vm_compute; exact I.
Defined.

(** ** The attribute loop, stage by stage *)

Lemma attribute_loop_invariant `{P : Packages} (rev : Revision)
    (I : str -> AttrState -> Prop) (rest : str) (a a' : AttrState) :
  (forall r a0 a1 sk,
     I r a0 -> attribute_turn rev r a0 = Ok (a1, sk) ->
     I (drop (if sk : bool then 2 else 1) r) a1) ->
  I rest a -> attribute_loop rev rest a = Ok a' -> I [] a'.
Proof.
  intros Hturn. remember (length rest) as n eqn:Hn. revert rest a Hn.
  induction (lt_wf n) as [n _ IH]. intros rest a -> HI H.
  destruct rest as [|c rest1]; simpl in H; inv_result;
    destruct x as [a1 sk]; pose proof (Hturn _ _ _ _ HI E) as HI1.
  - simplify_eq. by destruct sk.
  - destruct sk.
    + destruct rest1 as [|d rest2]; [by simplify_eq|].
      eapply (IH (length rest2)); [simpl; lia | done | exact HI1 | done].
    + eapply (IH (length rest1)); [simpl; lia | done | exact HI1 | done].
Qed.

Lemma end_of_attribute_Ok `{P : Packages} (rev : Revision) (a a1 : AttrState) :
  end_of_attribute rev a = Ok a1 ->
  exists tok,
    this a1 = set_line (local_line a) (push tok (this a))
    /\ is_attribute tok /\ line tok = this_line (this a)
    /\ local_line a1 = local_line a.
Proof.
  unfold end_of_attribute. intros H. inv_result. eexists. split; [done|].
  split; [|done]. unfold is_attribute. simpl.
  split; [done|]. split; [done|]. split; [done|]. split; [|done].
  unfold attribute_val. by repeat case_match.
Qed.

Lemma attribute_char_Ok `{P : Packages} (r : str) (a a1 : AttrState)
    (sk : bool) :
  attribute_char r a = Ok (a1, sk) ->
  local_line a1 = local_line a
  /\ this a1 = (if sk then incrementColumn 1 (this a) else this a)
  /\ (sk = true -> head (tail r) = Some (chr "=")).
Proof.
  unfold attribute_char. intros H.
  repeat (case_match; inv_result; simplify_eq/=); try done.
  split; [done|]. split; [done|]. intros _.
  match goal with
  | H : negb (is_chr_opt "=" ?c) = false |- _ =>
    destruct c as [d|]; [|done]; simpl in H;
    apply negb_false_iff, N.eqb_eq in H; by subst
  end.
Qed.

Lemma isEndOfAttribute_Ok `{P : Packages} (r : str) (a a1 : AttrState)
    (b : bool) :
  isEndOfAttribute r a = Ok (b, a1) ->
  this a1 = this a /\ local_line a1 = local_line a.
Proof.
  unfold isEndOfAttribute. intros H.
  repeat (case_match; inv_result; simplify_eq/=); done.
Qed.

(** One turn of the loop pushes nothing but attribute tokens. *)
Lemma attribute_turn_tokens `{P : Packages} (rev : Revision) (r : str)
    (a a1 : AttrState) (sk : bool) :
  attribute_turn rev r a = Ok (a1, sk) ->
  tokens (this a1) = tokens (this a)
  \/ exists tok, tokens (this a1) = tokens (this a) ++ [tok] /\ is_attribute tok.
Proof.
  unfold attribute_turn. intros H. inv_result.
  destruct x as [is_end a2]. inv_result. destruct x as [a3 sk']. inv_result.
  apply isEndOfAttribute_Ok in E as [Ethis _].
  assert (Hnl : tokens (this (new_line_check
                   (if sk then head (tail r) else head r) a3))
                = tokens (this a3)).
  { unfold new_line_check, with_this. by repeat case_match. }
  rewrite Hnl, <- Ethis. destruct is_end.
  - inv_result. apply end_of_attribute_Ok in E as (tok & -> & Htok & _).
    right. by exists tok.
  - apply attribute_char_Ok in E0 as (_ & -> & _). left. by destruct sk.
Qed.

Lemma attribute_loop_tokens `{P : Packages} (rev : Revision) (rest : str)
    (a a' : AttrState) :
  attribute_loop rev rest a = Ok a' ->
  exists new, tokens (this a') = tokens (this a) ++ new
              /\ Forall is_attribute new.
Proof.
  intros H.
  apply (attribute_loop_invariant rev
           (fun _ a0 => exists new, tokens (this a0) = tokens (this a) ++ new
                                    /\ Forall is_attribute new) rest a a').
  - intros r a0 a1 sk (new & E & F) Hturn.
    apply attribute_turn_tokens in Hturn as [-> | (tok & -> & Htok)].
    + by exists new.
    + exists (new ++ [tok]). rewrite E, <- app_assoc. split; [done|].
      apply Forall_app. split; [done | by constructor].
  - exists []. by rewrite app_nil_r.
  - done.
Qed.

Lemma attrs_Some_tokens `{P : Packages} (rev : Revision) (lx lx1 : Lexer) :
  attrs rev lx = Ok (Some lx1) ->
  exists ts l1,
    tokens lx1 = tokens lx ++ tokenize lx "start-attributes" Undefined
                              :: ts ++ [tokenize l1 "end-attributes" Undefined]
    /\ Forall is_attribute ts.
Proof.
  unfold attrs. intros H.
  destruct (is_chr_opt "(" (input lx !! 0%nat)); [|done].
  inv_result. apply attribute_loop_tokens in E1 as (new & E1 & F).
  simpl in *. eexists new, _. rewrite E1, <- !app_assoc. simpl.
  split; [reflexivity|done].
Qed.

(** ** The shape of the token sequence *)

Lemma words_app (l1 l2 : list Lexed) : words l1 -> words l2 -> words (l1 ++ l2).
Proof.
  induction 1 as [|t rest Ht _ IH|t0 ts t1 rest H0 Hts H1 _ IH]; intros H2.
  - done.
  - simpl. apply words_word; auto.
  - change ((t0 :: ts ++ t1 :: rest) ++ l2)
      with (t0 :: (ts ++ t1 :: rest) ++ l2).
    rewrite <- app_assoc. simpl. apply words_attributes; auto.
Qed.

Lemma words_snoc (l : list Lexed) (t : Lexed) :
  words l -> type t = "tag" \/ type t = ":" -> words (l ++ [t]).
Proof. intros Hl Ht. apply words_app; [done|]. constructor; [done | constructor]. Qed.

Lemma words_snoc_attributes (l ts : list Lexed) (t0 t1 : Lexed) :
  words l -> type t0 = "start-attributes" -> Forall is_attribute ts ->
  type t1 = "end-attributes" -> words (l ++ t0 :: ts ++ [t1]).
Proof.
  intros Hl H0 Hts H1. apply words_app; [done|].
  by apply (words_attributes t0 ts t1 []); [| | |constructor].
Qed.

(** X3. A token sequence that [getTokens] returns is a run of tags,
    colons and groups of attribute tokens between a [start-attributes] and
    an [end-attributes] token, then at most one text or code token, then
    [eos]: the markers pair up, only attribute tokens stand between
    them, and nothing follows a text or a code token but [eos]. *)
Theorem getTokens_stream `{P : Packages} (rev : Revision) (code : str)
    (toks : list Lexed) :
  getTokens rev (new_Lexer code) = Some (Ok toks) -> stream toks.
Proof.
  intros H. apply getTokens_Ok in H as (lx' & Hrun & ->).
  pose proof (finished_new_Lexer rev code lx' Hrun) as [Hended _ _ _].
  set (I := fun l : Lexer =>
    if ended l then stream (tokens l)
    else words (tokens l)
         \/ exists front t, tokens l = front ++ [t] /\ words front
              /\ (type t = "text" \/ type t = "code")
              /\ at_line_end (input l)).
  assert (HI : I lx'); [|by unfold I in HI; rewrite Hended in HI].
  eapply (getTokens_loop_invariant rev I); [| |exact Hrun].
  2: { unfold I. simpl. left. constructor. }
  intros l l1 He HIl Hadv. unfold I in HIl. rewrite He in HIl.
  destruct HIl as [Hw | (front & t & Etok & Hw & Ht & Hend)].
  - apply advance_cases in Hadv as [[Hin ->]|[Hne Hadv]].
    { unfold I. simpl. by apply stream_eos. }
    destruct Hadv as [H | [H | [H | [H | [_ H]]]]].
    + apply tag_Some in H as (name & _ & ->). unfold I. simpl. rewrite He.
      left. apply words_snoc; [done | by left].
    + apply code_Some in H as (all & flags & body & Hre & _ & ->).
      apply code_regex_prefix in Hre as (rest & Hin & _ & Hend & _).
      unfold I. simpl. rewrite He. right. eexists _, _.
      split; [done|]. split; [done|]. split; [by right|].
      unfold substr_from. by rewrite Hin, drop_app_length.
    + pose proof (attrs_consumes rev l l1 H) as [He1 _ _ _].
      apply attrs_Some_tokens in H as (ts & l2 & Etok & Hts).
      unfold I. rewrite He1, He, Etok. left. by apply words_snoc_attributes.
    + apply text_Some in H as (len & w & Hre & ->).
      apply text_regex_prefix in Hre
        as (pre & rest & w' & Hin & Hlen & _ & Hend & _).
      unfold I. simpl. rewrite He. right. eexists _, _.
      split; [done|]. split; [done|]. split; [by left|].
      unfold substr_from. by rewrite Hin, <- Hlen, drop_app_length.
    + apply colon_Some in H as (len & _ & ->). unfold I. simpl. rewrite He.
      left. apply words_snoc; [done | by right].
  - destruct Hend as [Hin | Hhead].
    + apply advance_cases in Hadv as [[_ ->]|[Hne _]]; [|done].
      unfold I. simpl. rewrite Etok, <- app_assoc. by apply stream_line.
    + destruct (input l) as [|c r] eqn:Hin; [done|]. simpl in Hhead.
      simplify_eq. by rewrite (advance_at_newline rev l r Hin) in Hadv.
Qed.

Lemma getTokens_stream_witness :
  exists toks,
    @getTokens Small.packages Later (new_Lexer (lit "a: foo(b, c=1) bar"))
    = Some (Ok toks)
    /\ stream toks.
Proof.
  eexists. split; [vm_compute; reflexivity|].
  apply (@getTokens_stream Small.packages Later (lit "a: foo(b, c=1) bar")).
  vm_compute. reflexivity.
Defined.

(** ** Lines and columns *)

Lemma position_after_app (pos : Z * Z) (s1 s2 : str) :
  position_after pos (s1 ++ s2) = position_after (position_after pos s1) s2.
Proof. apply foldl_app. Qed.

Lemma position_after_line (l c : Z) (s : str) :
  (LF ∉ s) -> position_after (l, c) s = (l, c + Z.of_nat (length s)).
Proof.
  revert c. induction s as [|x s IH]; intros c Hs.
  - simpl. f_equal; lia.
  - cbn [position_after foldl]. unfold move at 2. cbn [fst snd].
    assert (Hx : N.eqb x LF = false) by (apply N.eqb_neq; set_solver).
    rewrite Hx. fold (position_after (l, c + 1) s).
    rewrite IH by set_solver. f_equal. cbn [length]. lia.
Qed.

Lemma position_after_fst (l c : Z) (s : str) :
  (position_after (l, c) s).1
  = l + Z.of_nat (length (filter (fun x => x = LF) s)).
Proof.
  revert l c. induction s as [|x s IH]; intros l c.
  - simpl. lia.
  - cbn [position_after foldl]. unfold move at 2. cbn [fst snd].
    unfold str in *. destruct (N.eqb_spec x LF) as [->|Hx].
    + rewrite filter_cons_True by done.
      fold (position_after (l + 1, 1) s). rewrite IH. cbn [length]. lia.
    + rewrite filter_cons_False by done.
      fold (position_after (l, c + 1) s). by rewrite IH.
Qed.

Lemma attribute_char_bang `{P : Packages} (r : str) (a a1 : AttrState) :
  attribute_char r a = Ok (a1, true) -> head r = Some (chr "!").
Proof.
  unfold attribute_char. intros H.
  repeat (case_match; inv_result; simplify_eq/=); try done.
  match goal with
  | H : is_chr_opt "!" ?c = true |- _ =>
    destruct c as [d|]; [|done]; simpl in H;
    apply N.eqb_eq in H; by subst
  end.
Qed.

(** One turn of the attribute loop moves the local line and the column
    over the characters it reads. *)
Lemma attribute_turn_position `{P : Packages} (rev : Revision) (r : str)
    (a a1 : AttrState) (sk : bool) :
  attribute_turn rev r a = Ok (a1, sk) ->
  (local_line a1, column (this a1))
  = position_after (local_line a, column (this a))
      (take (if sk then 2 else 1) r).
Proof.
  unfold attribute_turn. intros H. inv_result.
  destruct x as [is_end a2]. inv_result. destruct x as [a3 sk']. inv_result.
  apply isEndOfAttribute_Ok in E as [Ethis Eline].
  assert (Hmid : column (this a3) = column (this a) + (if sk then 1 else 0)
                 /\ local_line a3 = local_line a
                 /\ (sk = true -> exists r', r = chr "!" :: chr "=" :: r')).
  { destruct is_end.
    - inv_result.
      apply end_of_attribute_Ok in E as (tok & -> & _ & _ & Hll).
      rewrite Ethis, Eline in *. simpl. split; [lia|done].
    - pose proof E0 as Hbang.
      apply attribute_char_Ok in E0 as (Hll & -> & Hsk).
      rewrite Ethis, Eline in *. destruct sk; simpl.
      + split; [done|]. split; [done|]. intros _.
        apply attribute_char_bang in Hbang. specialize (Hsk eq_refl).
        destruct r as [|x [|y r']]; simplify_eq/=. by exists r'.
      + split; [lia|done]. }
  destruct Hmid as (Hcol & Hll & Hsk).
  destruct sk.
  - destruct (Hsk eq_refl) as [r' ->]. cbn [tail head take].
    unfold new_line_check. change (N.eqb (chr "=") LF) with false. cbv iota.
    cbn [with_this this local_line incrementColumn set_column column].
    rewrite Hcol, Hll, take_0. cbn [position_after foldl]. unfold move.
    change (N.eqb (chr "!") LF) with false.
    change (N.eqb (chr "=") LF) with false. cbn [fst snd]. f_equal; lia.
  - destruct r as [|x r']; cbn [head take].
    + cbn [new_line_check position_after foldl]. rewrite Hcol, Hll.
      f_equal; lia.
    + unfold new_line_check. cbn [position_after foldl]. unfold move.
      cbn [fst snd]. destruct (N.eqb x LF).
      * cbn [local_line this]. rewrite Hll, take_0. cbn [foldl].
        by destruct (str_eqb (trim (key a3)) []).
      * cbn [with_this this local_line incrementColumn set_column column].
        rewrite Hcol, Hll, take_0. cbn [foldl]. f_equal; lia.
Qed.

Lemma attribute_loop_position `{P : Packages} (rev : Revision) (rest : str)
    (a a' : AttrState) :
  attribute_loop rev rest a = Ok a' ->
  (local_line a', column (this a'))
  = position_after (local_line a, column (this a)) rest.
Proof.
  intros H.
  pose proof (attribute_loop_invariant rev
    (fun r a0 =>
       exists read, rest = read ++ r
         /\ (local_line a0, column (this a0))
            = position_after (local_line a, column (this a)) read)
    rest a a') as Hinv.
  destruct Hinv as (read & Hread & Hpos); [| |done|].
  - intros r a0 a1 sk (read & -> & Hpos) Hturn.
    apply attribute_turn_position in Hturn.
    exists (read ++ take (if sk then 2 else 1) r). split.
    + by rewrite <- app_assoc, take_drop.
    + by rewrite position_after_app, <- Hpos.
  - by exists [].
  - rewrite app_nil_r in Hread. by subst.
Qed.

Lemma attrs_Some_position `{P : Packages} (rev : Revision) (lx lx1 : Lexer) :
  parseUntil_finds -> attrs rev lx = Ok (Some lx1) ->
  exists attrStr ts t1,
    input lx = chr "(" :: attrStr ++ chr ")" :: input lx1
    /\ (this_line lx1, column lx1)
       = position_after (this_line lx, column lx)
           (chr "(" :: attrStr ++ [chr ")"])
    /\ tokens lx1 = tokens lx ++ tokenize lx "start-attributes" Undefined
                               :: ts ++ [t1]
    /\ Forall is_attribute ts
    /\ type t1 = "end-attributes"
    /\ (line t1, col t1)
       = position_after (this_line lx, column lx) (chr "(" :: attrStr).
Proof.
  intros Hfinds H. pose proof (attrs_Some_head rev lx lx1 H) as Hhead.
  unfold attrs in H.
  destruct (is_chr_opt "(" (input lx !! 0%nat)) eqn:Hparen; [|done].
  inv_result.
  assert (Hx : (1 <= r_end x)%nat /\ input lx !! r_end x = Some (chr ")")).
  { unfold bracketExpression in E. cbn [input push] in E.
    rewrite Hparen in E. cbn [mbind result_bind] in E.
    destruct (parseUntil (input lx) (chr ")") (0 + 1)) as [ex|range] eqn:Hp;
      simplify_eq.
    by apply Hfinds in Hp. }
  destruct Hx as [Hx1 Hx2]. simpl in E1.
  set (attrStr := substr 1 (r_end x - 1) (input lx)) in *.
  destruct (input lx) as [|c0 r0] eqn:Hin; [done|].
  simpl in Hhead. simplify_eq.
  assert (Hsplit : r0 = attrStr ++ chr ")" :: drop (r_end x) r0).
  { unfold attrStr, substr. cbn [drop].
    destruct (r_end x) as [|n] eqn:Hn; [lia|]. cbn [lookup list_lookup] in Hx2.
    replace (S n - 1)%nat with n by lia. rewrite drop_0.
    rewrite <- (take_drop n r0) at 1. f_equal.
    by apply drop_S. }
  pose proof (attribute_loop_keeps rev _ _ _ E1) as [Hkeep _ _ _].
  pose proof (attribute_loop_tokens rev _ _ _ E1) as (ts & Etok & Fts).
  apply attribute_loop_position in E1.
  simpl in *. unfold substr_from in Hkeep.
  replace (r_end x + 1)%nat with (S (r_end x)) in Hkeep by lia.
  cbn [drop] in Hkeep.
  assert (Hopen : move (this_line lx, column lx) (chr "(")
                  = (this_line lx, column lx + 1)) by done.
  rewrite !Hopen.
  pose proof (position_after_fst (this_line lx) (column lx + 1) attrStr)
    as Hfst.
  destruct (position_after (this_line lx, column lx + 1) attrStr)
    as [l1 c1] eqn:Hpos.
  injection E1 as Hll Hcol. cbn [fst] in Hfst.
  exists attrStr, ts. eexists.
  split; [rewrite Hkeep, Hin; cbn [drop]; by rewrite <- Hsplit|].
  split.
  { rewrite position_after_app, Hpos. cbn [position_after foldl].
    unfold move. change (N.eqb (chr ")") LF) with false. cbn [fst snd].
    f_equal; lia. }
  split; [rewrite Etok, <- !app_assoc; reflexivity|].
  split; [done|]. split; [done|].
  simpl. rewrite Hpos. unfold str in *. f_equal; [lia | congruence].
Qed.

(** X4. The line and the column of a token are those of the place in
    the source where it was read, lines and columns counted from 1 and
    a new line beginning after every line break, also after an
    attribute list that runs over several lines: a [tag] or [text]
    token stands where its value is read, a [code] token at its marker,
    [:], [start-attributes] and [end-attributes] at the colon and the
    two parentheses, and [eos] after the last character.  [parseUntil]
    is taken to return a range that ends at the delimiter it was to
    find. *)
Theorem token_positions `{P : Packages} (rev : Revision) (code : str)
    (toks : list Lexed) :
  parseUntil_finds ->
  getTokens rev (new_Lexer code) = Some (Ok toks) ->
  Forall (positioned (input (new_Lexer code))) toks.
Proof.
  intros Hfinds H. apply getTokens_Ok in H as (lx' & Hrun & ->).
  set (src := input (new_Lexer code)).
  set (I := fun l : Lexer =>
    (exists pre, src = pre ++ input l
                 /\ (this_line l, column l) = position_after (1, 1) pre)
    /\ Forall (positioned src) (tokens l)).
  assert (HI : I lx'); [|by destruct HI as (_ & ?)].
  eapply (getTokens_loop_invariant rev I); [| |exact Hrun].
  2: { split; [by exists []|by constructor]. }
  intros l l1 He ((pre & Hsrc & Hpos) & Htoks) Hadv.
  assert (Hmove : forall p : str, (LF ∉ p) ->
            position_after (1, 1) (pre ++ p)
            = (this_line l, column l + Z.of_nat (length p))).
  { intros p Hp. by rewrite position_after_app, <- Hpos, position_after_line. }
  apply advance_cases in Hadv as [[Hin ->]|[Hne Hadv]].
  { split; [by exists pre|]. simpl.
    apply Forall_app. split; [done|]. constructor; [|done].
    repeat (split; [by (intros [?|?] || intros ?)|]). intros _. simpl.
    by rewrite Hpos, Hsrc, Hin, app_nil_r. }
  destruct Hadv as [H | [H | [H | [H | [_ H]]]]].
  - apply tag_Some in H as (name & Hre & ->).
    pose proof (tag_regex_chars _ _ _ Hre) as [Hlf _].
    apply tag_regex_prefix in Hre as (rest & Hin & _).
    split.
    { exists (pre ++ name). simpl. unfold substr_from.
      rewrite Hin, drop_app_length, <- app_assoc.
      split; [by rewrite Hsrc, Hin|]. by rewrite Hmove. }
    simpl. apply Forall_app. split; [done|]. constructor; [|done].
    split; [|by repeat split].
    intros _. exists name. split; [done|]. exists pre, rest.
    split; [by rewrite Hsrc, Hin|done].
  - apply code_Some in H as (all & flags & body & Hre & _ & ->).
    apply code_regex_prefix in Hre
      as (rest & Hin & Hlf & _ & _ & _ & Hfl & ws & Hall).
    split.
    { exists (pre ++ all). simpl. unfold substr_from.
      rewrite Hin, drop_app_length, <- app_assoc.
      split; [by rewrite Hsrc, Hin|]. rewrite Hmove by done. f_equal; lia. }
    simpl. apply Forall_app. split; [done|]. constructor; [|done].
    split; [by intros [?|?]|]. split; [|by repeat split].
    intros _. exists flags. split; [|done]. exists pre, (ws ++ rest).
    split; [|done]. by rewrite Hsrc, Hin, Hall, <- !app_assoc.
  - apply attrs_Some_position in H
      as (attrStr & ts & t1 & Hin & Hpos1 & Etok & Fts & Ht1 & Hpos2); [|done].
    split.
    { exists (pre ++ chr "(" :: attrStr ++ [chr ")"]). split.
      - rewrite Hsrc, Hin, <- ?app_assoc. simpl. by rewrite <- ?app_assoc.
      - by rewrite position_after_app, <- Hpos. }
    rewrite Etok. apply Forall_app. split; [done|]. constructor.
    { split; [by intros [?|?]|]. split; [done|]. split; [done|].
      split; [|by repeat split]. intros _.
      exists pre, (attrStr ++ chr ")" :: input l1). split; [|done].
      by rewrite Hsrc, Hin. }
    apply Forall_app. split.
    { eapply Forall_impl; [exact Fts|]. intros t (Ht & _).
      unfold positioned. rewrite Ht.
      repeat (split; [by (intros [?|?] || intros ?)|]). done. }
    constructor; [|done]. unfold positioned. rewrite Ht1.
    split; [by intros [?|?]|]. split; [done|]. split; [done|].
    split; [done|]. split; [|done]. intros _.
    exists (pre ++ chr "(" :: attrStr), (input l1). split.
    + rewrite Hsrc, Hin, <- ?app_assoc. simpl. by rewrite <- ?app_assoc.
    + by rewrite position_after_app, <- Hpos.
  - apply text_Some in H as (len & w & Hre & ->).
    apply text_regex_prefix in Hre
      as (pre1 & rest & w' & Hin & Hlen & Hlf & _ & Hw & _ & _ & _ & m & Hm).
    injection Hw as ->. subst pre1 len.
    split.
    { exists (pre ++ m ++ w'). simpl. unfold substr_from.
      rewrite Hin, drop_app_length, <- app_assoc.
      split; [by rewrite Hsrc, Hin|]. rewrite Hmove by done.
      f_equal. rewrite !length_app. lia. }
    simpl. apply Forall_app. split; [done|]. constructor; [|done].
    split; [|by repeat split].
    intros _. exists w'. split; [done|]. exists (pre ++ m), rest.
    split; [by rewrite Hsrc, Hin, <- !app_assoc|].
    rewrite Hmove by set_solver. simpl. f_equal. rewrite !length_app. lia.
  - apply colon_Some in H as (len & Hre & ->).
    pose proof Hre as Hre'.
    apply colon_regex_prefix in Hre as (pre1 & rest & Hin & Hlen & Hlf & _).
    split.
    { exists (pre ++ pre1). simpl. unfold substr_from.
      rewrite Hin, <- Hlen, drop_app_length, <- app_assoc.
      split; [by rewrite Hsrc, Hin|]. by rewrite Hmove. }
    simpl. apply Forall_app. split; [done|]. constructor; [|done].
    split; [by intros [?|?]|]. split; [done|]. split; [|by repeat split].
    intros _. unfold colon_regex in Hre'.
    destruct (input l) as [|c0 r0] eqn:Hl; [done|].
    destruct (is_chr ":" c0) eqn:Hc0; [|done].
    apply N.eqb_eq in Hc0 as ->.
    exists pre, r0. split; [by rewrite Hsrc|done].
Qed.

Lemma Small_parseUntil_from_finds (rest : str) (delimiter : char)
    (index e : nat) (st : Small.State) :
  Small.parseUntil_from rest delimiter index st = inr e ->
  (index <= e)%nat /\ rest !! (e - index)%nat = Some delimiter.
Proof.
  revert index st. induction rest as [|c rest IH]; intros index st H;
    [done|]. cbn [Small.parseUntil_from] in H.
  destruct (negb (Small.isNesting st) && N.eqb c delimiter) eqn:Hc.
  - simplify_eq. rewrite Nat.sub_diag. split; [lia|].
    apply andb_true_iff in Hc as [_ Hc]. by apply N.eqb_eq in Hc as ->.
  - destruct (Small.parseChar (Some c) st) as [ex|st']; [done|].
    apply IH in H as [Hle Hlk]. split; [lia|].
    replace (e - index)%nat with (S (e - S index)) by lia. done.
Qed.

Lemma Small_parseUntil_finds : @parseUntil_finds Small.packages.
Proof.
  intros src delimiter start range H. simpl in H. unfold Small.parseUntil in H.
  destruct (Small.parseUntil_from (drop start src) delimiter start
              Small.defaultState) as [ex|e] eqn:E; simplify_eq.
  apply Small_parseUntil_from_finds in E as [Hle Hlk].
  unfold str in *. rewrite lookup_drop in Hlk. simpl. split; [done|].
  by replace (start + (e - start))%nat with e in Hlk by lia.
Qed.

Lemma token_positions_witness :
  exists toks,
    @getTokens Small.packages Later
      (new_Lexer [chr "f"; chr "("; chr "a"; chr ","; LF; chr "b"; chr ")";
                  chr " "; chr "x"])
    = Some (Ok toks)
    /\ Forall (positioned
                 (input (new_Lexer [chr "f"; chr "("; chr "a"; chr ","; LF;
                                    chr "b"; chr ")"; chr " "; chr "x"])))
         toks.
Proof.
  eexists. split; [vm_compute; reflexivity|].
  apply (@token_positions Small.packages Later
           [chr "f"; chr "("; chr "a"; chr ","; LF; chr "b"; chr ")";
            chr " "; chr "x"]).
  - apply Small_parseUntil_finds.
  - vm_compute. reflexivity.
Defined.

(** ** What the tokens carry *)

Lemma drop_while_end_last {A} (f : A -> bool) (l : list A) :
  from_option f false (last (drop_while_end f l)) = false.
Proof.
  unfold drop_while_end. rewrite last_reverse. apply drop_while_head.
Qed.

Lemma tag_regex_edges rev s name :
  tag_regex rev s = Some name ->
  from_option (tag_edge rev) false (head name) = true
  /\ from_option (tag_edge rev) false (last name) = true.
Proof.
  unfold tag_regex. intros H. destruct s as [|c r]; [done|].
  destruct (tag_edge rev c) eqn:Hc; simplify_eq. split; [done|].
  pose proof (drop_while_end_last (fun x => negb (tag_edge rev x))
                (take_while (tag_inner rev) r)) as Hlast.
  destruct (drop_while_end (fun x => negb (tag_edge rev x))
              (take_while (tag_inner rev) r)) as [|d l] eqn:E; [done|].
  rewrite last_cons. destruct (last (d :: l)) as [x|]; [|done].
  simpl in *. by apply negb_false_iff in Hlast.
Qed.

(** X5. What the tokens of a returned sequence carry.  A [tag] has a
    value that begins and ends in a character the tag pattern allows
    at its ends and has only tag characters; a [text] or [code] value
    is not empty and has no new line; a [code] token says whether it
    is buffered and escaped, an escaped one is buffered, and the code
    of a buffered one was accepted by [isExpression]; an attribute
    has a name, a value and [mustEscape]; the other tokens have no
    value. *)
Theorem getTokens_fields `{P : Packages} (rev : Revision) (code : str)
    (toks : list Lexed) :
  getTokens rev (new_Lexer code) = Some (Ok toks) ->
  Forall (token_ok rev) toks.
Proof.
  intros H. apply getTokens_Ok in H as (lx' & Hrun & ->).
  eapply (getTokens_loop_invariant rev
            (fun l => Forall (token_ok rev) (tokens l))); [| |exact Hrun];
    [|by constructor].
  intros l l1 He HI Hadv.
  assert (Hother : forall lx ty,
    ty = ":" \/ ty = "start-attributes" \/ ty = "end-attributes" \/ ty = "eos" ->
    token_ok rev (tokenize lx ty Undefined)).
  { intros lx ty Hty. do 4 right. done. }
  apply advance_cases in Hadv as [[Hin ->]|[Hne Hadv]].
  { simpl. apply Forall_app. split; [done|]. constructor; [|done].
    apply Hother. auto. }
  destruct Hadv as [H | [H | [H | [H | [_ H]]]]].
  - apply tag_Some in H as (name & Hre & ->).
    pose proof (tag_regex_edges _ _ _ Hre) as [Hhead Hlast].
    apply tag_regex_prefix in Hre as (rest & _ & Hall).
    simpl. apply Forall_app. split; [done|]. constructor; [|done].
    left. split; [done|]. split; [done|]. by exists name.
  - apply code_Some in H as (all & flags & body & Hre & Hexp & ->).
    apply code_regex_prefix in Hre as (rest & _ & _ & _ & Hbody & Hlf & Hfl & _).
    simpl. apply Forall_app. split; [done|]. constructor; [|done].
    right; right; left. split; [done|]. split; [done|].
    eexists body, _, _. split; [done|]. split; [done|]. split; [done|].
    split; [done|]. split; [done|].
    destruct Hfl as [-> | [-> | ->]]; (split; [done|]); intros Hb;
      try done; by apply Hexp.
  - apply attrs_Some_tokens in H as (ts & l2 & -> & Hts).
    apply Forall_app. split; [done|]. constructor; [apply Hother; auto|].
    apply Forall_app. split.
    + eapply Forall_impl; [exact Hts|]. intros t Ht. by do 3 right; left.
    + constructor; [apply Hother; auto | done].
  - apply text_Some in H as (len & w & Hre & ->).
    apply text_regex_prefix in Hre
      as (pre1 & rest & w' & _ & _ & _ & _ & Hw & Hne' & Hlf & _).
    injection Hw as ->.
    simpl. apply Forall_app. split; [done|]. constructor; [|done].
    right; left. split; [done|]. split; [done|]. by exists w'.
  - apply colon_Some in H as (len & _ & ->).
    simpl. apply Forall_app. split; [done|]. constructor; [|done].
    apply Hother. auto.
Qed.

Lemma getTokens_fields_witness :
  exists toks,
    @getTokens Small.packages Later (new_Lexer (lit "a: foo(b, c=1)= 42"))
    = Some (Ok toks)
    /\ Forall (@token_ok Small.packages Later) toks.
Proof.
  eexists. split; [vm_compute; reflexivity|].
  apply (@getTokens_fields Small.packages Later (lit "a: foo(b, c=1)= 42")).
  vm_compute. reflexivity.
Defined.

(** ** Code that is not buffered *)

Lemma take_while_app_stop {A} (f : A -> bool) (ws : list A) (c : A)
    (r : list A) :
  forallb f ws = true -> f c = false ->
  take_while f (ws ++ c :: r) = ws /\ drop_while f (ws ++ c :: r) = c :: r.
Proof.
  intros Hws Hc. induction ws as [|w ws IH]; simpl.
  - by rewrite Hc.
  - simpl in Hws. apply andb_true_iff in Hws as [-> Hws].
    destruct (IH Hws) as [-> ->]. done.
Qed.

Lemma take_while_not_lf (s : str) : (LF ∉ s) -> take_while not_lf s = s.
Proof.
  induction s as [|c s IH]; [done|]. intros H. simpl.
  assert (Hc : not_lf c = true).
  { unfold not_lf. apply negb_true_iff, N.eqb_neq. set_solver. }
  rewrite Hc, IH; [done | set_solver].
Qed.

Lemma code_regex_dash (ws : str) (c : char) (r : str) :
  forallb blank ws = true -> blank c = false -> (LF ∉ c :: r) ->
  code_regex (chr "-" :: ws ++ c :: r)
  = Some (chr "-" :: ws ++ c :: r, [chr "-"], c :: r).
Proof.
  intros Hws Hc Hlf. unfold code_regex, code_flags.
  change (is_chr "=" (chr "-")) with false.
  change (is_chr "-" (chr "-")) with true.
  cbn [mbind option_bind].
  destruct (take_while_app_stop blank ws c r Hws Hc) as [-> ->].
  rewrite (take_while_not_lf _ Hlf). done.
Qed.

(** X6. Code after [-] is taken as it is: a line that is [-], blanks
    and then anything that begins with a non-blank is lexed to one
    [code] token, neither buffered nor escaped, and [eos]; [isExpression]
    is not asked, so nothing is thrown whatever the code is. *)
Theorem unbuffered_code_unchecked `{P : Packages} (rev : Revision)
    (ws : str) (c : char) (r : str) :
  forallb blank ws = true -> blank c = false ->
  (LF ∉ c :: r) -> (CR ∉ c :: r) ->
  getTokens rev (new_Lexer (chr "-" :: ws ++ c :: r))
  = Some (Ok [ {| type := "code"; line := 1; col := 1; val := Str (c :: r);
                  name := None; buffer := Some false;
                  mustEscape := Some false |};
               {| type := "eos"; line := 1;
                  col := 2 + Z.of_nat (length ws) + Z.of_nat (length (c :: r));
                  val := Undefined; name := None; buffer := None;
                  mustEscape := None |} ]).
Proof.
  intros Hws Hc Hlf Hcr.
  set (src := chr "-" :: ws ++ c :: r).
  assert (Hin : input (new_Lexer src) = src).
  { unfold new_Lexer. cbn [input]. unfold strip_bom, src.
    change (N.eqb (chr "-") BOM) with false. cbv iota.
    apply replace_cr_clean. intros Hin.
    apply elem_of_cons in Hin as [Hin|Hin]; [done|].
    apply elem_of_app in Hin as [Hin|Hin]; [|done].
    rewrite forallb_forall in Hws. apply list_elem_of_In in Hin.
    by specialize (Hws _ Hin). }
  assert (Hlen : length src = S (S (length ws + length r))).
  { unfold src. simpl. rewrite length_app. simpl. lia. }
  assert (Htag : tag_regex rev src = None).
  { unfold src, tag_regex. by destruct rev. }
  pose proof (code_regex_dash ws c r Hws Hc Hlf) as Hre. fold src in Hre.
  assert (Hadv : forall lx, input lx = src ->
    advance rev lx
    = Ok (incrementColumn (Z.of_nat (length (c :: r)))
            (push {| type := "code"; line := this_line lx; col := column lx;
                     val := Str (c :: r); name := None;
                     buffer := Some false; mustEscape := Some false |}
               (incrementColumn
                  (Z.of_nat (length src) - Z.of_nat (length (c :: r)))
                  (consume (length src) lx))))).
  { intros lx Hlx. unfold advance, eos, tag, code. rewrite Hlx, Htag, Hre.
    unfold src at 1. cbn [orelse].
    change (is_chr_opt "=" ([chr "-"] !! 0%nat)) with false.
    change (is_chr_opt "=" ([chr "-"] !! 1%nat)) with false.
    reflexivity. }
  specialize (Hadv _ Hin).
  set (lx1 := incrementColumn _ _) in Hadv.
  assert (Hin1 : input lx1 = []).
  { change (input lx1) with (substr_from (length src) (input (new_Lexer src))).
    unfold substr_from. by rewrite Hin, drop_all. }
  assert (Hadv1 : advance rev lx1
                  = Ok (set_ended (push (tokenize lx1 "eos" Undefined) lx1))).
  { unfold advance, eos. by rewrite Hin1. }
  unfold getTokens, run. rewrite Hin, Hlen.
  cbn [getTokens_loop]. change (ended (new_Lexer src)) with false. cbv iota.
  rewrite Hadv. change (ended lx1) with false. cbv iota.
  rewrite Hadv1. cbn [set_ended push tokens ended getTokens_loop].
  assert (Hcol : column lx1 = 2 + Z.of_nat (length ws)
                              + Z.of_nat (length (c :: r))).
  { change (column lx1)
      with (1 + (Z.of_nat (length src) - Z.of_nat (length (c :: r)))
            + Z.of_nat (length (c :: r))).
    rewrite Hlen. cbn [length]. lia. }
  unfold tokenize. rewrite Hcol. reflexivity.
Qed.

Lemma unbuffered_code_unchecked_witness :
  @getTokens Small.packages Original (new_Lexer (lit "-  )(, not code"))
  = Some (Ok [ {| type := "code"; line := 1; col := 1;
                  val := Str (lit ")(, not code");
                  name := None; buffer := Some false;
                  mustEscape := Some false |};
               {| type := "eos"; line := 1; col := 16;
                  val := Undefined; name := None; buffer := None;
                  mustEscape := None |} ]).
Proof.
  apply (@unbuffered_code_unchecked Small.packages Original
           (lit "  ") (chr ")") (lit "(, not code")).
  - vm_compute. reflexivity.
  - vm_compute. reflexivity.
  - refine (bool_decide_unpack _ _); vm_compute; exact I.
  - refine (bool_decide_unpack _ _); vm_compute; exact I.
Defined.

Lemma code_regex_buffered (escaped : bool) (ws : str) (c : char) (r : str) :
  let flags := if escaped then [chr "="] else [chr "!"; chr "="] in
  forallb blank ws = true -> blank c = false -> (LF ∉ c :: r) ->
  code_regex (flags ++ ws ++ c :: r)
  = Some (flags ++ ws ++ c :: r, flags, c :: r).
Proof.
  intros flags Hws Hc Hlf. unfold code_regex, code_flags, flags.
  destruct escaped; cbn [app].
  - change (is_chr "=" (chr "=")) with true.
    cbn [mbind option_bind].
    destruct (take_while_app_stop blank ws c r Hws Hc) as [-> ->].
    rewrite (take_while_not_lf _ Hlf). done.
  - change (is_chr "=" (chr "!")) with false.
    change (is_chr "-" (chr "!")) with false.
    change (is_chr "!" (chr "!")) with true.
    change (is_chr "=" (chr "=")) with true.
    cbn [mbind option_bind].
    destruct (take_while_app_stop blank ws c r Hws Hc) as [-> ->].
    rewrite (take_while_not_lf _ Hlf). done.
Qed.

(** X7. Code after [=] or [!=] is checked: when [isExpression] rejects
    it the lexer throws what [checkExpression] makes of the exception,
    a syntax error with the position cut off the message when the
    exception has a location, and the exception itself when it has
    none. *)
Theorem buffered_code_checked `{P : Packages} (rev : Revision)
    (escaped : bool) (ws : str) (c : char) (r : str) (ex : Exception) :
  forallb blank ws = true -> blank c = false ->
  (LF ∉ c :: r) -> (CR ∉ c :: r) ->
  isExpression (c :: r) = Some ex ->
  getTokens rev
    (new_Lexer ((if escaped then [chr "="] else [chr "!"; chr "="])
                ++ ws ++ c :: r))
  = Some (Throw (match ex_loc ex with
                 | None => Uncaught ex
                 | Some _ =>
                   SyntaxError (lit "Syntax Error: "
                                ++ strip_position (ex_message ex))
                 end)).
Proof.
  intros Hws Hc Hlf Hcr Hex.
  set (flags := if escaped then [chr "="] else [chr "!"; chr "="]).
  set (src := flags ++ ws ++ c :: r).
  assert (Hin : input (new_Lexer src) = src).
  { unfold new_Lexer. cbn [input].
    assert (Hbom : strip_bom src = src) by (by destruct escaped).
    rewrite Hbom. apply replace_cr_clean. intros Hin.
    apply elem_of_app in Hin as [Hin|Hin].
    { destruct escaped; set_solver. }
    apply elem_of_app in Hin as [Hin|Hin]; [|done].
    rewrite forallb_forall in Hws. apply list_elem_of_In in Hin.
    by specialize (Hws _ Hin). }
  assert (Htag : tag_regex rev src = None).
  { unfold src, flags, tag_regex. by destruct escaped, rev. }
  pose proof (code_regex_buffered escaped ws c r Hws Hc Hlf) as Hre.
  cbv zeta in Hre. fold flags in Hre. fold src in Hre.
  assert (Hbuf : is_chr_opt "=" (flags !! 0%nat)
                 || is_chr_opt "=" (flags !! 1%nat) = true)
    by (by destruct escaped).
  assert (Hadv : advance rev (new_Lexer src)
                 = Throw (match ex_loc ex with
                          | None => Uncaught ex
                          | Some _ =>
                            SyntaxError (lit "Syntax Error: "
                                         ++ strip_position (ex_message ex))
                          end)).
  { assert (Heos : eos (new_Lexer src) = Ok None).
    { unfold eos. rewrite Hin. by destruct escaped. }
    unfold advance. rewrite Heos. unfold tag, code.
    rewrite Hin, Htag, Hre. cbv beta iota zeta. unfold str. rewrite Hbuf.
    cbn [orelse]. unfold checkExpression. rewrite Hex.
    by destruct (ex_loc ex). }
  unfold getTokens, run. cbn [getTokens_loop].
  change (ended (new_Lexer src)) with false. cbv iota.
  by rewrite Hadv.
Qed.

Lemma buffered_code_checked_witness :
  @getTokens Small.packages Original (new_Lexer (lit "!= not code"))
  = Some (Throw (SyntaxError (lit "Syntax Error: Unexpected token"))).
Proof.
  apply (@buffered_code_checked Small.packages Original false
           (lit " ") (chr "n") (lit "ot code")
           (mkException (lit "Unexpected token (1:0)") (Some (1, 0)))).
  - vm_compute. reflexivity.
  - vm_compute. reflexivity.
  - refine (bool_decide_unpack _ _); vm_compute; exact I.
  - refine (bool_decide_unpack _ _); vm_compute; exact I.
  - vm_compute. reflexivity.
Defined.

(** ** Unexpected text *)

Lemma other_error_Ok {A} (a : A) : other_error (Ok a).
Proof. by intros p. Qed.

Lemma other_error_bind {A B} (r : result A) (k : A -> result B) :
  other_error r -> (forall a, r = Ok a -> other_error (k a)) ->
  other_error (r ≫= k).
Proof.
  intros Hr Hk p. destruct r as [a|e]; simpl.
  - by apply Hk.
  - intros Heq. apply (Hr p). congruence.
Qed.

Lemma checkExpression_other `{P : Packages} (exp : str) (noThrow : bool) :
  other_error (checkExpression exp noThrow).
Proof. intros p. unfold checkExpression. by repeat case_match. Qed.

Lemma isEndOfAttribute_other `{P : Packages} (r : str) (a : AttrState) :
  other_error (isEndOfAttribute r a).
Proof.
  unfold isEndOfAttribute. repeat case_match; try apply other_error_Ok;
    (apply other_error_bind; [apply checkExpression_other|]);
    intros valid _; repeat case_match; apply other_error_Ok.
Qed.

Lemma end_of_attribute_other `{P : Packages} (rev : Revision) (a : AttrState) :
  other_error (end_of_attribute rev a).
Proof.
  unfold end_of_attribute. apply other_error_bind.
  - case_match; [apply other_error_Ok | apply checkExpression_other].
  - intros _ _. apply other_error_Ok.
Qed.

Lemma attribute_char_other `{P : Packages} (r : str) (a : AttrState) :
  other_error (attribute_char r a).
Proof. intros p. unfold attribute_char. by repeat case_match. Qed.

Lemma attribute_turn_other `{P : Packages} (rev : Revision) (r : str)
    (a : AttrState) :
  other_error (attribute_turn rev r a).
Proof.
  unfold attribute_turn.
  apply other_error_bind; [apply isEndOfAttribute_other|].
  intros [is_end a1] _. apply other_error_bind.
  - destruct is_end; [|apply attribute_char_other].
    apply other_error_bind; [apply end_of_attribute_other|].
    intros; apply other_error_Ok.
  - intros [a2 sk] _. apply other_error_Ok.
Qed.

Lemma attribute_loop_other `{P : Packages} (rev : Revision) (rest : str)
    (a : AttrState) :
  other_error (attribute_loop rev rest a).
Proof.
  remember (length rest) as n eqn:Hn. revert rest a Hn.
  induction (lt_wf n) as [n _ IH]. intros rest a ->.
  destruct rest as [|c rest1]; simpl;
    (apply other_error_bind; [apply attribute_turn_other|]);
    intros [a1 sk] _; [apply other_error_Ok|].
  destruct sk.
  - destruct rest1 as [|d rest2]; [apply other_error_Ok|].
    apply (IH (length rest2)); [simpl; lia | done].
  - apply (IH (length rest1)); [simpl; lia | done].
Qed.

Lemma attrs_other `{P : Packages} (rev : Revision) (lx : Lexer) :
  other_error (attrs rev lx).
Proof.
  unfold attrs. case_match; [|apply other_error_Ok]. cbv zeta.
  apply other_error_bind.
  { intros p. unfold bracketExpression.
    repeat (case_match; simpl); done. }
  intros range _. apply other_error_bind.
  { intros p. unfold checkNesting. by repeat case_match. }
  intros _ _. apply other_error_bind; [apply attribute_loop_other|].
  intros; apply other_error_Ok.
Qed.

Lemma code_other `{P : Packages} (lx : Lexer) : other_error (code lx).
Proof.
  unfold code. repeat case_match; try apply other_error_Ok; cbv zeta;
    (apply other_error_bind; [|intros; apply other_error_Ok]);
    try apply checkExpression_other; apply other_error_Ok.
Qed.

Lemma text_other `{P : Packages} (lx : Lexer) : other_error (text lx).
Proof. intros p. unfold text. by repeat case_match. Qed.

(** When [advance] throws "unexpected text", no recognizer matched. *)
Lemma advance_unexpected `{P : Packages} (rev : Revision) (lx : Lexer)
    (p : str) :
  advance rev lx = Throw (UnexpectedText p) ->
  p = substr 0 5 (input lx)
  /\ input lx <> []
  /\ tag_regex rev (input lx) = None
  /\ is_chr_opt "(" (input lx !! 0%nat) = false
  /\ text_regex2 (input lx) = None
  /\ (rev = Later -> colon_regex (input lx) = None).
Proof.
  unfold advance. intros H.
  destruct (eos lx <||> tag rev lx <||> code lx <||> attrs rev lx
            <||> text lx
            <||> match rev with Original => Ok None | Later => colon lx end
            <||> fail lx) as [r|e] eqn:E; simpl in H; [by destruct r|].
  simplify_eq.
  destruct (eos lx) as [[lx0|]|] eqn:Heos; simpl in E; simplify_eq;
    [|by unfold eos in Heos; case_match].
  apply eos_none in Heos.
  destruct (tag rev lx) as [[lx0|]|] eqn:Htag; simpl in E; simplify_eq;
    [|by unfold tag in Htag; case_match].
  destruct (code lx) as [[lx0|]|] eqn:Hcode; simpl in E; simplify_eq;
    [|by pose proof (code_other lx p)].
  destruct (attrs rev lx) as [[lx0|]|] eqn:Hattrs; simpl in E; simplify_eq;
    [|by pose proof (attrs_other rev lx p)].
  destruct (text lx) as [[lx0|]|] eqn:Htext; simpl in E; simplify_eq;
    [|by pose proof (text_other lx p)].
  assert (Hcolon : (rev = Later -> colon lx = Ok None)
                   /\ fail lx = Throw (UnexpectedText p)).
  { destruct rev; simpl in E; [by split|].
    destruct (colon lx) as [[lx0|]|] eqn:Hc; simpl in E; [done|by split|].
    unfold colon in Hc.
    by destruct (scan colon_regex ":" lx) as [[? ?]|]. }
  destruct Hcolon as [Hcolon Hfail].
  unfold fail in Hfail. simplify_eq.
  split; [done|]. split; [done|].
  split; [by unfold tag in Htag; destruct (tag_regex rev (input lx))|].
  split.
  { unfold attrs in Hattrs.
    destruct (is_chr_opt "(" (input lx !! 0%nat)); [|done].
    by inv_result. }
  split.
  { unfold text, scan in Htext.
    destruct (text_regex1 (input lx)) as [[len v]|]; simpl in Htext;
      [by destruct v|].
    destruct (text_regex2 (input lx)) as [[len v]|]; simpl in Htext;
      [by destruct v | done]. }
  intros Hrev. pose proof (Hcolon Hrev) as Hc.
  unfold colon, scan in Hc.
  destruct (colon_regex (input lx)) as [[len v]|]; [done|done].
Qed.

Lemma getTokens_loop_Raised `{P : Packages} (rev : Revision)
    (I : Lexer -> Prop) (fuel : nat) (lx : Lexer) (e : Thrown) :
  (forall l l1, ended l = false -> I l -> advance rev l = Ok l1 -> I l1) ->
  I lx -> getTokens_loop rev fuel lx = Raised e ->
  exists l, I l /\ ended l = false /\ advance rev l = Throw e.
Proof.
  intros Hstep. revert lx. induction fuel as [|fuel IH]; intros lx HI H;
    simpl in H; destruct (ended lx) eqn:He; simplify_eq.
  destruct (advance rev lx) as [l1|e'] eqn:Hadv.
  - apply (IH l1); [|done]. by eapply Hstep.
  - simplify_eq. by exists lx.
Qed.

(** X8. The text of an "unexpected text" error is read off the source
    where the lexing stopped: up to five characters, the first of which
    can begin no tag and is neither [(] nor a blank; in the later
    revision, when it is a colon no blank follows it. *)
Theorem unexpected_text `{P : Packages} (rev : Revision) (code p : str) :
  getTokens rev (new_Lexer code) = Some (Throw (UnexpectedText p)) ->
  exists pre c rest,
    input (new_Lexer code) = pre ++ c :: rest
    /\ p = take 5 (c :: rest)
    /\ tag_edge rev c = false
    /\ c <> chr "(" /\ c <> chr " "
    /\ (rev = Later -> c = chr ":" -> head rest <> Some (chr " ")).
Proof.
  unfold getTokens, run. intros H.
  destruct (getTokens_loop rev (S (length (input (new_Lexer code))))
              (new_Lexer code)) as [lx'|e|] eqn:Hrun; simplify_eq.
  apply (getTokens_loop_Raised rev
           (fun l => concat (consumed l) ++ input l = input (new_Lexer code)))
    in Hrun as (l & Hcover & _ & Hadv); [| |done].
  2: { intros l l1 _ Hl Hadv.
       apply advance_Ok in Hadv as [[_ ->]|[_ Hc]]; [done|].
       by rewrite (consumes_cover _ _ Hc). }
  apply advance_unexpected in Hadv as (-> & Hne & Htag & Hparen & Htext & Hcolon).
  destruct (input l) as [|c rest] eqn:Hin; [done|].
  exists (concat (consumed l)), c, rest.
  split; [done|]. split; [done|].
  split.
  { unfold tag_regex in Htag. by destruct (tag_edge rev c). }
  split.
  { intros ->. done. }
  split.
  { intros ->. done. }
  intros Hrev -> Hhead. specialize (Hcolon Hrev).
  destruct rest as [|d rest']; by simplify_eq/=.
Qed.

Lemma unexpected_text_witness :
  exists pre c rest,
    input (new_Lexer (lit "a#b(c) text")) = pre ++ c :: rest
    /\ lit "#b(c)" = take 5 (c :: rest)
    /\ tag_edge Later c = false
    /\ c <> chr "(" /\ c <> chr " "
    /\ (Later = Later -> c = chr ":" -> head rest <> Some (chr " ")).
Proof.
  apply (@unexpected_text Small.packages Later (lit "a#b(c) text") (lit "#b(c)")).
  vm_compute. reflexivity.
Defined.

(** ** [JavaScript.tokenize] *)

Lemma first_token_params `{B : ParserBase} code next tokens lexed current
    tokens1 next1 lexed1 :
  first_token code next tokens lexed current = Ok (tokens1, next1, lexed1) ->
  params tokens1 = params tokens.
Proof.
  unfold first_token. intros H.
  repeat (case_match; simplify_eq/=); done.
Qed.

(** X9. [tokenize] takes no parameter away: the parameters of the
    [tokens] it was given are, in their order, the first parameters of
    the [tokens] it returns, whatever the lexer and the recursion add. *)
Theorem tokenize_params_kept `{B : ParserBase} (fuel : nat) (code : str)
    (next : JsVal) (tokens r : Tokens) :
  tokenize_js fuel code next tokens = Some (Ok r) ->
  exists more, params r = params tokens ++ more.
Proof.
  revert code next tokens. induction fuel as [|fuel IH]; [done|].
  intros code next tokens H. simpl in H.
  destruct (lexer code) as [lexed|]; [|done].
  destruct (first_token code next tokens lexed (find "text" lexed))
    as [[[tokens1 next1] lexed1]|] eqn:E; [|done].
  apply first_token_params in E.
  repeat (case_match; simplify_eq/=);
    try match goal with
        | H : tokenize_js _ _ _ _ = _ |- _ =>
          apply IH in H as [more H]; simpl in H
        end;
    rewrite <- ?E;
    first [ by exists []; rewrite app_nil_r
          | by eexists
          | by eexists; rewrite H, <- ?app_assoc ].
Qed.

Lemma tokenize_params_kept_witness :
  exists more,
    params {| tokens_name := Str (lit "foo");
              tokens_type := Str (lit "function");
              params := [ {| param_name := Some (lit "z");
                             param_val := Str [] |};
                          {| param_name := Some (lit "a");
                             param_val := Str [] |};
                          {| param_name := Some (lit "b");
                             param_val := Str (lit "1") |} ];
              return_ := {| present := true |} |}
    = [ {| param_name := Some (lit "z"); param_val := Str [] |} ] ++ more.
Proof.
  apply (@tokenize_params_kept Sample.base 30 (lit "function foo(a, b=1) {")
           (Str [])
           {| tokens_name := Str []; tokens_type := Str [];
              params := [ {| param_name := Some (lit "z");
                             param_val := Str [] |} ];
              return_ := {| present := true |} |}).
  vm_compute. reflexivity.
Defined.

Lemma prototype_tail_Some (s n : str) :
  prototype_tail s = Some n ->
  exists d e post,
    s = d :: lit "prototype" ++ e :: n ++ post
    /\ re_dot d = true /\ re_dot e = true
    /\ n <> [] /\ Forall (fun c => identifier c = true) n
    /\ from_option identifier false (head post) = false.
Proof.
  unfold prototype_tail. intros H. destruct s as [|d s']; [done|].
  destruct (re_dot d) eqn:Hd; [|done]. simpl in H.
  destruct (starts_with (lit "prototype") s') eqn:Hp; [|done].
  unfold starts_with in Hp. apply bool_decide_eq_true in Hp.
  change (length (lit "prototype")) with 9%nat in Hp.
  destruct (drop 9 s') as [|e g] eqn:Hg; [done|].
  destruct (re_dot e) eqn:He; [|done].
  destruct (take_while identifier g) as [|x n'] eqn:Hn; simplify_eq.
  exists d, e, (drop_while identifier g).
  split.
  { f_equal. rewrite <- (take_drop 9 s') at 1. rewrite Hp, Hg. f_equal.
    f_equal. by rewrite <- Hn, take_drop_while. }
  split; [done|]. split; [done|]. split; [done|]. split.
  - rewrite <- Hn. apply Forall_take_while.
  - apply drop_while_head.
Qed.

Lemma prototype_lengths_Some (len : nat) (s a n : str) :
  prototype_lengths len s = Some (a, n) ->
  exists k, (1 <= k <= len)%nat /\ a = take k s
            /\ prototype_tail (drop k s) = Some n.
Proof.
  induction len as [|len IH]; [done|]. simpl. intros H.
  destruct (prototype_tail (drop (S len) s)) as [m|] eqn:E.
  - simplify_eq. exists (S len). split; [lia|done].
  - destruct (IH H) as (k & Hk & Ha & Ht). exists k. split; [lia|done].
Qed.

(** X10. What the pattern for prototype functions matches.  The two
    groups that [tokenize] reads are not empty and made of identifier
    characters, and between them stands [prototype] with one character
    on either side; the pattern is built from a string in which the
    dots are not escaped, so that character is any character but a line
    terminator, not only a dot.  The second group is as long as it can
    be. *)
Theorem prototype_regex_match (s object method : str) :
  prototype_regex s = Some (object, method) ->
  exists pre d e post,
    s = pre ++ object ++ d :: lit "prototype" ++ e :: method ++ post
    /\ object <> [] /\ Forall (fun c => identifier c = true) object
    /\ method <> [] /\ Forall (fun c => identifier c = true) method
    /\ re_dot d = true /\ re_dot e = true
    /\ from_option identifier false (head post) = false.
Proof.
  induction s as [|c s IH].
  - simpl. unfold prototype_here. simpl. done.
  - intros H. cbn [prototype_regex] in H.
    destruct (prototype_here (c :: s)) as [[a n]|] eqn:Hhere.
    + simplify_eq. unfold prototype_here in Hhere.
      apply prototype_lengths_Some in Hhere as (k & Hk & -> & Htail).
      apply prototype_tail_Some in Htail
        as (d & e & post & Hdrop & Hd & He & Hn & Hall & Hpost).
      exists [], d, e, post.
      split; [by rewrite <- Hdrop, app_nil_l, take_drop|].
      pose proof (take_drop_while identifier (c :: s)) as Hsplit.
      assert (Htake : take k (c :: s)
                      = take k (take_while identifier (c :: s))).
      { rewrite <- Hsplit at 1. by rewrite take_app_le by lia. }
      split.
      { rewrite Htake. intros Hnil. apply (f_equal length) in Hnil.
        rewrite length_take in Hnil. cbn [length] in Hnil. lia. }
      split.
      { rewrite Htake. apply Forall_take, Forall_take_while. }
      done.
    + destruct (IH H) as (pre & d & e & post & -> & Hrest).
      exists (c :: pre), d, e, post. done.
Qed.

Lemma prototype_regex_match_witness :
  exists pre d e post,
    lit "x = Foo-prototype:bar()"
    = pre ++ lit "Foo" ++ d :: lit "prototype" ++ e :: lit "bar" ++ post
    /\ lit "Foo" <> [] /\ Forall (fun c => identifier c = true) (lit "Foo")
    /\ lit "bar" <> [] /\ Forall (fun c => identifier c = true) (lit "bar")
    /\ re_dot d = true /\ re_dot e = true
    /\ from_option identifier false (head post) = false.
Proof.
  apply (prototype_regex_match (lit "x = Foo-prototype:bar()")
           (lit "Foo") (lit "bar")).
  vm_compute. reflexivity.
Defined.

(** ** The parameters of a C function *)

Lemma last_parameter_snoc (s : Symbols) (init : list SymbolParam)
    (q : SymbolParam) (v : str) :
  symbols_params s = init ++ [q] ->
  getLastParameterIndex s = Some (length init)
  /\ getParameter (Some (length init)) s = Some q
  /\ symbols_params (set_parameter_name (length init) v s)
     = init ++ [mkSymbolParam v (parameter_type q) (parameter_val q)]
  /\ symbols_type (set_parameter_name (length init) v s) = symbols_type s.
Proof.
  intros Hps. split.
  { unfold getLastParameterIndex. rewrite Hps.
    destruct (init ++ [q]) as [|q0 qs] eqn:E; [by destruct init|].
    apply (f_equal length) in E. rewrite length_app in E. simpl in E.
    f_equal. lia. }
  split.
  { unfold getParameter. cbn [mbind option_bind]. rewrite Hps.
    by rewrite lookup_app_r, Nat.sub_diag by lia. }
  split; [|done].
  unfold set_parameter_name. cbn [symbols_params]. rewrite Hps.
  replace (length init) with (length init + 0)%nat at 1 by lia.
  by rewrite alter_app_r.
Qed.

Lemma parseParameters_type (g : Grammar) (ty : str) (p : Parser) :
  symbols_type (symbols p) = Some KindFunction -> expectParameter p = true ->
  ty <> [] -> Grammar_is g (Some ty) "types" = true ->
  let p' := parseParameters g (mkToken "name" (Some ty)) p in
  symbols_params (symbols p')
  = symbols_params (symbols p) ++ [mkSymbolParam ty (Some ty) None]
  /\ symbols_type (symbols p') = Some KindFunction
  /\ expectParameter p' = true /\ expectParameterType p' = true.
Proof.
  intros Hty Hexp Hne Hg. cbv zeta. unfold parseParameters.
  rewrite Hty, Hexp, bool_decide_eq_true_2 by done. cbn [andb token_value].
  rewrite Hg. destruct ty as [|c ty]; [done|]. cbn [truthy andb].
  cbn [expectParameterType symbols label andb].
  destruct (last_parameter_snoc
              (addParameter (mkSymbolParam [] (@Some str (c :: ty)) None)
                 (symbols p))
              (symbols_params (symbols p))
              (mkSymbolParam [] (@Some str (c :: ty)) None) (c :: ty) eq_refl)
    as (-> & -> & Hset & Hsty).
  change (String.eqb "name" ")") with false. cbv iota.
  unfold with_symbols. cbn [symbols expectParameter expectParameterType].
  rewrite Hset, Hsty. done.
Qed.

Lemma parseParameters_name (g : Grammar) (nm : str) (p : Parser)
    (init : list SymbolParam) (q : SymbolParam) :
  symbols_type (symbols p) = Some KindFunction -> expectParameter p = true ->
  expectParameterType p = true ->
  symbols_params (symbols p) = init ++ [q] ->
  nm <> [] -> Grammar_is g (Some nm) "types" = false ->
  let p' := parseParameters g (mkToken "name" (Some nm)) p in
  symbols_params (symbols p')
  = init ++ [mkSymbolParam nm (parameter_type q) (parameter_val q)]
  /\ symbols_type (symbols p') = Some KindFunction
  /\ expectParameter p' = true /\ expectParameterType p' = true.
Proof.
  intros Hty Hexp Hept Hps Hne Hg. cbv zeta. unfold parseParameters.
  rewrite Hty, Hexp, bool_decide_eq_true_2 by done. cbn [andb token_value].
  rewrite Hg. destruct nm as [|c nm]; [done|]. cbn [truthy andb].
  rewrite Hept. cbn [andb label].
  destruct (last_parameter_snoc (symbols p) init q (c :: nm) Hps)
    as (-> & -> & Hset & Hsty).
  change (String.eqb "name" ")") with false. cbv iota.
  unfold with_symbols. cbn [symbols expectParameter expectParameterType].
  rewrite Hset, Hsty. done.
Qed.

Lemma parseParameters_comma (g : Grammar) (p : Parser) :
  parseParameters g (mkToken "," None) p = p.
Proof.
  unfold parseParameters. cbn [token_value truthy andb label].
  rewrite !andb_false_r.
  change (String.eqb "," ")") with false. by case_match.
Qed.

Lemma parseParameters_close (g : Grammar) (p : Parser) :
  symbols_type (symbols p) = Some KindFunction -> expectParameter p = true ->
  symbols (parseParameters g (mkToken ")" None) p) = symbols p
  /\ expectParameter (parseParameters g (mkToken ")" None) p) = false.
Proof.
  intros Hty Hexp. unfold parseParameters.
  rewrite Hty, Hexp, bool_decide_eq_true_2 by done.
  cbn [token_value truthy andb label]. rewrite !andb_false_r.
  change (String.eqb ")" ")") with true. done.
Qed.

Lemma parseParameters_after (g : Grammar) (toks : list Token) (p : Parser) :
  expectParameter p = false ->
  foldl (fun p t => parseParameters g t p) p toks = p.
Proof.
  intros Hexp. induction toks as [|t toks IH]; [done|]. simpl.
  assert (Hstep : parseParameters g t p = p).
  { unfold parseParameters. by rewrite Hexp, andb_false_r. }
  by rewrite Hstep.
Qed.

Lemma parseParameters_typed (g : Grammar) (ty nm : str) (p : Parser) :
  symbols_type (symbols p) = Some KindFunction -> expectParameter p = true ->
  typed_parameter g (ty, nm) ->
  let p' := parseParameters g (mkToken "name" (Some nm))
              (parseParameters g (mkToken "name" (Some ty)) p) in
  symbols_params (symbols p')
  = symbols_params (symbols p) ++ [mkSymbolParam nm (Some ty) None]
  /\ symbols_type (symbols p') = Some KindFunction
  /\ expectParameter p' = true.
Proof.
  intros Hty Hexp (Ht & Hn & Hgt & Hgn). simpl in Ht, Hn, Hgt, Hgn.
  destruct (parseParameters_type g ty p Hty Hexp Ht Hgt)
    as (H1 & H2 & H3 & H4). cbv zeta in H1, H2, H3, H4.
  destruct (parseParameters_name g nm _ _ _ H2 H3 H4 H1 Hn Hgn)
    as (K1 & K2 & K3 & _). done.
Qed.

(** X11. [parseParameters], given the tokens of a parameter list one
    after the other, collects the parameters in their order, each with
    its name and type, when the grammar knows every type and no name is
    a type: the name that the type token first gives a parameter is
    replaced by the token after it.  The closing parenthesis ends the
    list, and no token after it changes anything. *)
Theorem parseParameters_list (g : Grammar) (ps : list (str * str))
    (more : list Token) (p : Parser) :
  symbols_type (symbols p) = Some KindFunction -> expectParameter p = true ->
  Forall (typed_parameter g) ps ->
  let p' := foldl (fun p t => parseParameters g t p) p
              (parameter_tokens ps ++ mkToken ")" None :: more) in
  symbols_params (symbols p')
  = symbols_params (symbols p)
    ++ ((fun '(ty, nm) => mkSymbolParam nm (Some ty) None) <$> ps)
  /\ expectParameter p' = false.
Proof.
  intros Hty Hexp Hps. revert p Hty Hexp.
  induction Hps as [|[ty nm] ps Hp Hps IH]; intros p Hty Hexp.
  - cbn [parameter_tokens app foldl fmap list_fmap].
    destruct (parseParameters_close g p Hty Hexp) as [Hs He].
    rewrite (parseParameters_after g more _ He), Hs, He.
    by rewrite app_nil_r.
  - destruct (parseParameters_typed g ty nm p Hty Hexp Hp) as (H1 & H2 & H3).
    cbv zeta in H1, H2, H3.
    set (p1 := parseParameters g (mkToken "name" (Some nm))
                 (parseParameters g (mkToken "name" (Some ty)) p)) in *.
    destruct (IH p1 H2 H3) as [IH1 IH2].
    rewrite fmap_cons, (cons_middle _ (symbols_params (symbols p))), app_assoc,
      <- H1.
    destruct ps as [|p2 ps].
    + cbn [parameter_tokens app foldl]. fold p1. done.
    + cbn [parameter_tokens app foldl]. fold p1.
      rewrite parseParameters_comma. done.
Qed.

Lemma parseParameters_list_witness :
  let p := parseFunction (mkToken "(" None) new_Parser in
  let p' := foldl (fun p t => parseParameters c_grammar t p) p
              (parameter_tokens [(lit "int", lit "a"); (lit "char", lit "b")]
               ++ mkToken ")" None :: [mkToken "name" (Some (lit "int"))]) in
  symbols_params (symbols p')
  = symbols_params (symbols p)
    ++ ((fun '(ty, nm) => mkSymbolParam nm (Some ty) None)
          <$> [(lit "int", lit "a"); (lit "char", lit "b")])
  /\ expectParameter p' = false.
Proof.
  intros p.
  apply (parseParameters_list c_grammar
           [(lit "int", lit "a"); (lit "char", lit "b")]
           [mkToken "name" (Some (lit "int"))] p).
  - reflexivity.
  - reflexivity.
  - repeat constructor; try discriminate; vm_compute; reflexivity.
Defined.

(** ** Which attributes are escaped *)

Section Escape.
Context {P : Packages}.
Variable rev : Revision.

Lemma turn_pushed_escape r a a1 sk tok :
  attribute_turn rev r a = Ok (a1, sk) ->
  tokens (this a1) = tokens (this a) ++ [tok] ->
  escapedAttr a1 = false.
Proof.
  unfold attribute_turn. intros H Htok. inv_result.
  destruct x as [is_end a2]. inv_result. destruct x as [a3 sk']. inv_result.
  apply isEndOfAttribute_Ok in E as [Ethis _].
  assert (Hnl : forall c, escapedAttr (new_line_check c a3) = escapedAttr a3
                          /\ tokens (this (new_line_check c a3))
                             = tokens (this a3)).
  { intros c. unfold new_line_check, with_this. by repeat case_match. }
  destruct (Hnl (if sk then head (tail r) else head r)) as [-> Hnl'].
  rewrite Hnl' in Htok. destruct is_end.
  - inv_result. unfold end_of_attribute in E. by inv_result.
  - apply attribute_char_Ok in E0 as (_ & Hthis & _).
    rewrite Hthis, <- Ethis in Htok.
    assert (Hlen : length (tokens (this a2))
                   = length (tokens (this a2) ++ [tok])).
    { rewrite <- Htok. by destruct sk. }
    rewrite length_app in Hlen. simpl in Hlen. lia.
Qed.

Lemma loop_end_escape rest a k :
  key_of (key a) k -> k <> [] ->
  value a = [] \/ isExpression (value a) = None ->
  rest = []
  \/ (exists r, rest = chr "," :: r)
     /\ (loc a = LocKey
         \/ (loc a = LocValue /\ isNesting (state a) = false
             /\ isString (state a) = false
             /\ isExpression (value a) = None)) ->
  exists a1 tok,
    attribute_loop rev rest a
    = match rest with
      | [] => Ok a1
      | _ :: r => attribute_loop rev r a1
      end
    /\ loc a1 = LocKey /\ key a1 = [] /\ value a1 = []
    /\ escapedAttr a1 = false
    /\ tokens (this a1) = tokens (this a) ++ [tok]
    /\ type tok = "attribute" /\ name tok = Some k
    /\ val tok = attribute_val rev (trim (value a))
    /\ mustEscape tok = Some (escapedAttr a).
Proof.
  intros Hkey Hne Hval Hrest.
  destruct (turn_end rev rest a k Hkey Hne Hval Hrest)
    as (a1 & tok & Hturn & Hloc & Hk & Hv & Htok & Hty & Hnm & Hvl & Hme).
  exists a1, tok. split.
  { destruct rest as [|c r]; simpl; by rewrite Hturn. }
  pose proof (turn_pushed_escape _ _ _ _ _ Hturn Htok) as Hesc.
  done.
Qed.

(** The token of one plain entry: when the entry has no value, it is
    escaped as the loop finds [escapedAttr]. *)
Lemma loop_entry_escape e rest a :
  plain_entry e -> loc a = LocKey -> key a = [] -> value a = [] ->
  rest = [] \/ (exists r, rest = chr "," :: r) ->
  exists a' tok,
    attribute_loop rev (render e ++ rest) a
    = match rest with
      | [] => Ok a'
      | _ :: r => attribute_loop rev r a'
      end
    /\ loc a' = LocKey /\ key a' = [] /\ value a' = []
    /\ escapedAttr a' = false
    /\ tokens (this a') = tokens (this a) ++ [tok]
    /\ entry_token rev e tok
    /\ mustEscape tok = Some (match entry_value e with
                              | None => escapedAttr a
                              | Some (escaped, _) => escaped
                              end).
Proof.
  intros (Hpad & Hne & Hname & Hvalue) Hloc Hkey Hval Hrest.
  unfold render. rewrite <- !app_assoc.
  destruct (loop_pad rev (entry_pad e)
              (entry_name e ++ match entry_value e with
                               | None => []
                               | Some (true, v) => chr "=" :: v
                               | Some (false, v) => chr "!" :: chr "=" :: v
                               end ++ rest) a Hpad Hloc)
    as (a0 & -> & Hloc0 & Hkey0 & Hval0 & Hesc0 & Htok0).
  { rewrite Hkey. by exists []. }
  destruct (loop_name rev (entry_name e)
              (match entry_value e with
               | None => []
               | Some (true, v) => chr "=" :: v
               | Some (false, v) => chr "!" :: chr "=" :: v
               end ++ rest) a0 [] Hname Hloc0 Hkey0)
    as (a1 & -> & Hloc1 & Hkey1 & Hval1 & Hesc1 & Htok1).
  simpl in Hkey1. rewrite Hval0, Hval in Hval1.
  destruct (entry_value e) as [[escaped v]|] eqn:Hev.
  - destruct Hvalue as (Hv & Hexp & st & Hparse & Hnest & Hstr).
    assert (Hstart : exists a2,
      attribute_loop rev ((if escaped then chr "=" :: v
                           else chr "!" :: chr "=" :: v) ++ rest) a1
      = attribute_loop rev (v ++ rest) a2
      /\ loc a2 = LocValue /\ key a2 = key a1 /\ value a2 = []
      /\ state a2 = defaultState /\ escapedAttr a2 = escaped
      /\ tokens (this a2) = tokens (this a1)).
    { destruct escaped.
      - destruct (turn_equals rev (v ++ rest) a1 _ Hloc1 Hkey1 Hne)
          as (a2 & Hturn & ? & ? & ? & ? & ? & ?).
        exists a2. split; [by apply attribute_loop_cons|].
        repeat split; congruence.
      - destruct (turn_bang_equals rev (v ++ rest) a1 _ Hloc1 Hkey1 Hne)
          as (a2 & Hturn & ? & ? & ? & ? & ? & ?).
        exists a2. split; [by apply attribute_loop_skip|].
        repeat split; congruence. }
    destruct Hstart
      as (a2 & Hloop2 & Hloc2 & Hkey2 & Hval2 & Hst2 & Hesc2 & Htok2).
    replace (match escaped with
             | true => chr "=" :: v
             | false => chr "!" :: chr "=" :: v
             end) with (if escaped then chr "=" :: v
                        else chr "!" :: chr "=" :: v) by done.
    rewrite Hloop2.
    destruct (loop_value rev v rest a2 (entry_name e) st Hv Hloc2)
      as (a3 & -> & Hloc3 & Hkey3 & Hval3 & Hst3 & Hesc3 & Htok3);
      [congruence | done | congruence |].
    rewrite Hval2 in Hval3. simpl in Hval3.
    destruct (loop_end_escape rest a3 (entry_name e))
      as (a4 & tok & Hloop4 & ? & ? & ? & ? & Htok4 & Hty & Hnm & Hvl & Hme);
      [congruence | done | right; congruence | |].
    { destruct Hrest as [-> | Hr]; [by left|]. right. split; [done|].
      right. repeat split; congruence. }
    exists a4, tok. split; [done|]. do 4 (split; [congruence|]).
    split; [congruence|]. split; [|congruence].
    unfold entry_token, entry_val. rewrite Hev.
    rewrite Hval3 in Hvl. unfold attribute_val in Hvl.
    split; [done|]. split; [done|]. split; [by destruct rev | congruence].
  - rewrite app_nil_l.
    destruct (loop_end_escape rest a1 (entry_name e))
      as (a4 & tok & Hloop4 & ? & ? & ? & ? & Htok4 & Hty & Hnm & Hvl & Hme);
      [done | done | by left | |].
    { destruct Hrest as [-> | Hr]; [by left|]. right. split; [done | by left]. }
    exists a4, tok. split; [done|]. do 4 (split; [congruence|]).
    split; [congruence|]. split; [|congruence].
    unfold entry_token, entry_val. rewrite Hev. rewrite Hval1 in Hvl.
    change (trim []) with (@nil char) in Hvl. unfold attribute_val in Hvl.
    split; [done|]. split; [done|]. split; [by destruct rev | done].
Qed.

(** The tokens of a list of plain entries: an entry with a value is
    escaped as its [=] or [!=] says, one without a value is escaped as
    the loop finds [escapedAttr] when it is the first, and is not
    escaped when it is a later one. *)
Lemma loop_entries_escape es a :
  es <> [] -> Forall plain_entry es ->
  loc a = LocKey -> key a = [] -> value a = [] ->
  exists a' toks,
    attribute_loop rev (render_list es) a = Ok a'
    /\ tokens (this a') = tokens (this a) ++ toks
    /\ Forall2 (entry_token rev) es toks
    /\ forall i e t,
         es !! i = Some e -> toks !! i = Some t ->
         mustEscape t = Some (match entry_value e with
                              | None =>
                                match i with
                                | O => escapedAttr a
                                | S _ => false
                                end
                              | Some (escaped, _) => escaped
                              end).
Proof.
  revert a. induction es as [|e es IH]; [done|].
  intros a _ Hplain Hloc Hkey Hval.
  apply Forall_cons in Hplain as [He Hes].
  destruct es as [|e2 es].
  - destruct (loop_entry_escape e [] a He Hloc Hkey Hval)
      as (a' & tok & Hloop & _ & _ & _ & _ & Htok & Hentry & Hme);
      [by left|].
    rewrite app_nil_r in Hloop. exists a', [tok]. split; [done|].
    split; [done|]. split; [by constructor|].
    intros [|i] e' t He' Ht; by simplify_eq/=.
  - destruct (loop_entry_escape e (chr "," :: render_list (e2 :: es)) a
                He Hloc Hkey Hval)
      as (a1 & tok & Hloop & Hloc1 & Hkey1 & Hval1 & Hesc1 & Htok1
          & Hentry & Hme);
      [right; eauto|].
    destruct (IH a1) as (a' & toks & Hloop' & Htok' & Hall2 & Hall);
      [done | done | done | done | done |].
    exists a', (tok :: toks). split.
    { change (render_list (e :: e2 :: es))
        with (render e ++ chr "," :: render_list (e2 :: es)).
      by rewrite Hloop. }
    split; [by rewrite Htok', Htok1, <- app_assoc|].
    split; [by constructor|].
    intros [|i] e' t He' Ht; simplify_eq/=; [done|].
    rewrite (Hall i e' t He' Ht), Hesc1. by destruct (entry_value e'), i.
Qed.
End Escape.

(** [attrs] on a bracketed list of plain entries. *)
Lemma attrs_plain_entries `{P : Packages} (rev : Revision) (lx : Lexer)
    (es : list Entry) (rest : str) (range : Range) (st : State) :
  es <> [] -> Forall plain_entry es ->
  input lx = chr "(" :: render_list es ++ chr ")" :: rest ->
  parseUntil (input lx) (chr ")") 1 = inr range ->
  r_end range = S (length (render_list es)) ->
  parse (render_list es) = inr st -> isNesting st = false ->
  exists lx' toks t1,
    attrs rev lx = Ok (Some lx')
    /\ tokens lx' = tokens lx ++ tokenize lx "start-attributes" Undefined
                               :: toks ++ [t1]
    /\ type t1 = "end-attributes"
    /\ input lx' = rest
    /\ Forall2 (entry_token rev) es toks
    /\ forall i e t,
         es !! i = Some e -> toks !! i = Some t ->
         mustEscape t = Some (match entry_value e with
                              | None => bool_decide (i = 0%nat)
                              | Some (escaped, _) => escaped
                              end).
Proof.
  intros Hne Hplain Hin Hpu Hend Hparse Hnest.
  set (lx1 := push (tokenize lx "start-attributes" Undefined) lx).
  set (lx2 := consume (r_end range + 1) (incrementColumn 1 lx1)).
  set (a0 := {| this := lx2; quote := None; escapedAttr := true; key := [];
                value := []; state := defaultState;
                local_line := this_line lx;
                columnBeginAttr := column lx2; columnBeginVal := 0;
                loc := LocKey |}).
  destruct (loop_entries_escape rev es a0 Hne Hplain eq_refl eq_refl eq_refl)
    as (a' & toks & Hloop & Htok & Hall2 & Hall).
  pose proof (attribute_loop_keeps rev _ _ _ Hloop) as [Hkeep _ _ _].
  assert (Hattr : substr 1 (r_end range - 1) (input lx) = render_list es).
  { unfold substr. rewrite Hin, Hend. simpl. rewrite Nat.sub_0_r, drop_0.
    by rewrite take_app_length. }
  assert (Hrest : input lx2 = rest).
  { unfold lx2. simpl. unfold substr_from. rewrite Hin, Hend.
    replace (S (length (render_list es)) + 1)%nat
      with (S (length (render_list es) + 1)) by lia.
    simpl. by rewrite drop_app_add. }
  eexists _, toks, _.
  split.
  { assert (H0 : input lx !! 0%nat = Some (chr "(")) by (by rewrite Hin).
    unfold attrs, bracketExpression. fold lx1.
    replace (input lx1) with (input lx) by done.
    rewrite !H0. change (is_chr_opt "(" (Some (chr "("))) with true.
    change (0 + 1)%nat with 1%nat.
    cbn [mbind result_bind]. rewrite Hpu.
    cbn [mbind result_bind]. rewrite Hattr.
    unfold checkNesting. rewrite Hparse, Hnest.
    cbn [mbind result_bind]. fold lx2. fold a0. rewrite Hloop.
    cbn [mbind result_bind]. reflexivity. }
  simpl. rewrite Htok. simpl.
  split; [by rewrite <- !app_assoc|].
  split; [done|]. split; [by rewrite Hkeep|]. split; [done|].
  intros i e t He Ht. rewrite (Hall i e t He Ht).
  by destruct (entry_value e), i.
Qed.

(** X12. Which attributes of a bracketed list of plain entries are
    marked as escaped.  The token of [name=value] is, that of
    [name!=value] is not.  An entry without a value is marked as escaped
    when it is the first of the list and not when it comes later:
    [escapedAttr] starts as [true], and is set to [false] after every
    attribute. *)
Theorem attrs_escaped `{P : Packages} (rev : Revision) (lx : Lexer)
    (es : list Entry) (rest : str) (range : Range) (st : State) :
  es <> [] -> Forall plain_entry es ->
  input lx = chr "(" :: render_list es ++ chr ")" :: rest ->
  parseUntil (input lx) (chr ")") 1 = inr range ->
  r_end range = S (length (render_list es)) ->
  parse (render_list es) = inr st -> isNesting st = false ->
  exists lx' toks t0 t1,
    attrs rev lx = Ok (Some lx')
    /\ tokens lx' = tokens lx ++ t0 :: toks ++ [t1]
    /\ length toks = length es
    /\ forall i e t,
         es !! i = Some e -> toks !! i = Some t ->
         name t = Some (entry_name e)
         /\ mustEscape t = Some (match entry_value e with
                                 | None => bool_decide (i = 0%nat)
                                 | Some (escaped, _) => escaped
                                 end).
Proof.
  intros Hne Hplain Hin Hpu Hend Hparse Hnest.
  destruct (attrs_plain_entries rev lx es rest range st)
    as (lx' & toks & t1 & Hattrs & Htok & _ & _ & Hall2 & Hall); try done.
  exists lx', toks, (tokenize lx "start-attributes" Undefined), t1.
  split; [done|]. split; [done|].
  split; [symmetry; by eapply Forall2_length|].
  intros i e t He Ht. split; [|by apply Hall].
  destruct (Forall2_lookup_lr _ _ _ _ _ _ Hall2 He Ht) as (_ & Hn & _).
  done.
Qed.

Lemma attrs_escaped_witness :
  let es := [ mkEntry [] (lit "a") None;
              mkEntry (lit " ") (lit "b") None;
              mkEntry (lit " ") (lit "c") (Some (true, lit "2")) ] in
  exists lx' toks t0 t1,
    @attrs Small.packages Original (new_Lexer (lit "(a, b, c=2)"))
    = Ok (Some lx')
    /\ tokens lx' = tokens (new_Lexer (lit "(a, b, c=2)")) ++ t0 :: toks ++ [t1]
    /\ length toks = length es
    /\ forall i e t,
         es !! i = Some e -> toks !! i = Some t ->
         name t = Some (entry_name e)
         /\ mustEscape t = Some (match entry_value e with
                                 | None => bool_decide (i = 0%nat)
                                 | Some (escaped, _) => escaped
                                 end).
Proof.
  intros es.
  apply (@attrs_escaped Small.packages Original
           (new_Lexer (lit "(a, b, c=2)"))
           es [] (mkRange 1 10 (lit "a, b, c=2")) ([], false)).
  - discriminate.
  - repeat constructor; try discriminate; simpl; try reflexivity.
    exists ([], false). repeat split.
  - vm_compute; reflexivity.
  - vm_compute; reflexivity.
  - vm_compute; reflexivity.
  - vm_compute; reflexivity.
  - vm_compute; reflexivity.
Defined.

(** ** The message of a syntax error *)

Lemma take_while_all {A} (f : A -> bool) (l : list A) :
  forallb f l = true -> take_while f l = l /\ drop_while f l = [].
Proof.
  induction l as [|x l IH]; [done|]. simpl. intros H.
  apply andb_true_iff in H as [-> H]. by destruct (IH H) as [-> ->].
Qed.

Lemma forallb_reverse {A} (f : A -> bool) (l : list A) :
  forallb f l = true -> forallb f (reverse l) = true.
Proof.
  rewrite !forallb_forall. intros H x Hx. apply H.
  apply list_elem_of_In. apply list_elem_of_In in Hx.
  by rewrite elem_of_reverse in Hx.
Qed.

(** X13. A position at the end of an exception's message, a blank and
    [(line:column)], is cut off by [checkExpression]: what is left is
    the message before it. *)
Theorem strip_position_located (m l c : str) :
  l <> [] -> c <> [] ->
  forallb re_digit l = true -> forallb re_digit c = true ->
  strip_position (m ++ lit " (" ++ l ++ chr ":" :: c ++ [chr ")"]) = m.
Proof.
  intros Hl Hc Hdl Hdc. unfold strip_position.
  assert (Hrev : reverse (m ++ lit " (" ++ l ++ chr ":" :: c ++ [chr ")"])
                 = chr ")" :: reverse c ++ chr ":"
                   :: reverse l ++ chr "(" :: chr " " :: reverse m).
  { change (lit " (") with [chr " "; chr "("].
    repeat (rewrite reverse_app || rewrite reverse_cons
            || rewrite reverse_nil).
    rewrite <- !app_assoc. reflexivity. }
  rewrite Hrev. change (is_chr ")" (chr ")")) with true. cbv iota.
  destruct (take_while_app_stop re_digit (reverse c) (chr ":")
              (reverse l ++ chr "(" :: chr " " :: reverse m))
    as [-> ->]; [by apply forallb_reverse | done |].
  destruct (reverse c) as [|x xs] eqn:Ec.
  { apply (f_equal reverse) in Ec. by rewrite reverse_involutive in Ec. }
  change (is_chr ":" (chr ":")) with true. cbv iota.
  destruct (take_while_app_stop re_digit (reverse l) (chr "(")
              (chr " " :: reverse m))
    as [-> ->]; [by apply forallb_reverse | done |].
  destruct (reverse l) as [|y ys] eqn:El.
  { apply (f_equal reverse) in El. by rewrite reverse_involutive in El. }
  change (is_chr "(" (chr "(")) with true.
  change (is_chr " " (chr " ")) with true.
  cbn [andb]. by rewrite reverse_involutive.
Qed.

Lemma strip_position_located_witness :
  strip_position (lit "Unexpected token" ++ lit " (" ++ lit "1" ++ chr ":"
                  :: lit "12" ++ [chr ")"])
  = lit "Unexpected token".
Proof.
  apply (strip_position_located (lit "Unexpected token") (lit "1") (lit "12")).
  - discriminate.
  - discriminate.
  - vm_compute. reflexivity.
  - vm_compute. reflexivity.
Defined.

(** ** A name and its bracketed list *)

Lemma drop_while_end_keep {A} (f : A -> bool) (l : list A) :
  forallb (fun x => negb (f x)) l = true -> drop_while_end f l = l.
Proof.
  intros H. unfold drop_while_end.
  assert (Hrev : drop_while f (reverse l) = reverse l).
  { apply forallb_reverse in H.
    destruct (reverse l) as [|x l']; [done|]. simpl in *.
    apply andb_true_iff in H as [Hx _]. apply negb_true_iff in Hx.
    by rewrite Hx. }
  by rewrite Hrev, reverse_involutive.
Qed.

(** A run of characters that may stand at the ends of a tag, followed by
    a character that may not stand in a tag, is matched as a whole. *)
Lemma tag_regex_word (rev : Revision) (name : str) (c : char) (rest : str) :
  name <> [] -> forallb (tag_edge rev) name = true ->
  tag_inner rev c = false ->
  tag_regex rev (name ++ c :: rest) = Some name.
Proof.
  intros Hne Hname Hc. destruct name as [|x name]; [done|].
  simpl in Hname. apply andb_true_iff in Hname as [Hx Hname].
  cbn [app tag_regex]. rewrite Hx.
  assert (Hinner : forallb (tag_inner rev) name = true).
  { rewrite forallb_forall in *. intros y Hy. unfold tag_inner.
    by rewrite (Hname y Hy). }
  destruct (take_while_app_stop (tag_inner rev) name c rest Hinner Hc)
    as [-> _].
  rewrite drop_while_end_keep; [done|].
  rewrite forallb_forall in *. intros y Hy.
  by rewrite (Hname y Hy).
Qed.

(** X14. A name and a bracketed list of plain entries, [name(a, b=1)],
    are lexed to the end: [getTokens] returns a [tag] token for the
    name, [start-attributes], one attribute token for each entry in
    their order, [end-attributes] and [eos], and nothing else.  The
    name is made of characters that may stand at the ends of a tag;
    [parseUntil] and [parse] are taken to accept the list. *)
Theorem signature_tokens `{P : Packages} (rev : Revision) (lx : Lexer)
    (name : str) (es : list Entry) (range : Range) (st : State) :
  ended lx = false ->
  name <> [] -> forallb (tag_edge rev) name = true ->
  es <> [] -> Forall plain_entry es ->
  input lx = name ++ chr "(" :: render_list es ++ [chr ")"] ->
  parseUntil (chr "(" :: render_list es ++ [chr ")"]) (chr ")") 1
  = inr range ->
  r_end range = S (length (render_list es)) ->
  parse (render_list es) = inr st -> isNesting st = false ->
  exists toks t0 t1 e,
    getTokens rev lx
    = Some (Ok (tokens lx ++ tokenize lx "tag" (Str name)
                          :: t0 :: toks ++ [t1; e]))
    /\ type t0 = "start-attributes"
    /\ Forall2 (entry_token rev) es toks
    /\ type t1 = "end-attributes" /\ type e = "eos".
Proof.
  intros Hended Hne Hname Hes Hplain Hin Hpu Hend Hparse Hnest.
  assert (Hre : tag_regex rev (input lx) = Some name).
  { rewrite Hin. apply tag_regex_word; [done | done | by destruct rev]. }
  set (lx1 := incrementColumn (Z.of_nat (length name))
                (push (tokenize lx "tag" (Str name))
                   (consume (length name) lx))).
  assert (Hadv1 : advance rev lx = Ok lx1).
  { unfold advance, eos, tag. rewrite Hre, Hin.
    by destruct name. }
  assert (Hin1 : input lx1 = chr "(" :: render_list es ++ chr ")" :: []).
  { unfold lx1. simpl. unfold substr_from. by rewrite Hin, drop_app_length. }
  destruct (attrs_plain_entries rev lx1 es [] range st)
    as (lx2 & toks & t1 & Hattrs & Htok2 & Ht1 & Hin2 & Hall & _);
    [done | done | done | by rewrite Hin1 | done | done | done |].
  assert (Hadv2 : advance rev lx1 = Ok lx2).
  { unfold advance, eos, tag, code. rewrite Hin1.
    replace (tag_regex rev (chr "(" :: render_list es ++ [chr ")"]))
      with (@None str) by (by destruct rev).
    change (code_regex (chr "(" :: render_list es ++ [chr ")"]))
      with (@None (str * str * str)).
    cbn [orelse]. by rewrite Hattrs. }
  set (lx3 := set_ended (push (tokenize lx2 "eos" Undefined) lx2)).
  assert (Hadv3 : advance rev lx2 = Ok lx3).
  { unfold advance, eos. by rewrite Hin2. }
  assert (Hended1 : ended lx1 = false) by done.
  assert (Hended2 : ended lx2 = false).
  { by rewrite (consumes_ended _ _ (attrs_consumes rev lx1 lx2 Hattrs)). }
  assert (Hrun : run rev lx = Returned lx3).
  { rewrite (run_advance rev lx lx1 Hended Hadv1).
    rewrite (run_advance rev lx1 lx2 Hended1 Hadv2).
    rewrite (run_advance rev lx2 lx3 Hended2 Hadv3).
    unfold run. by destruct (length (input lx3)). }
  exists toks, (tokenize lx1 "start-attributes" Undefined), t1,
    (tokenize lx2 "eos" Undefined).
  split; [|done].
  unfold getTokens. rewrite Hrun. do 2 f_equal.
  unfold lx3. cbn [tokens set_ended push]. rewrite Htok2.
  unfold lx1. cbn [tokens incrementColumn set_column push consume].
  rewrite <- !app_assoc. cbn [app]. by rewrite <- !app_assoc.
Qed.

Lemma signature_tokens_witness :
  let es := [ mkEntry [] (lit "a") None;
              mkEntry (lit " ") (lit "b") (Some (true, lit "1")) ] in
  exists toks t0 t1 e,
    @getTokens Small.packages Original (new_Lexer (lit "foo(a, b=1)"))
    = Some (Ok (tokens (new_Lexer (lit "foo(a, b=1)"))
                ++ tokenize (new_Lexer (lit "foo(a, b=1)")) "tag"
                     (Str (lit "foo"))
                :: t0 :: toks ++ [t1; e]))
    /\ type t0 = "start-attributes"
    /\ Forall2 (entry_token Original) es toks
    /\ type t1 = "end-attributes" /\ type e = "eos".
Proof.
  intros es.
  apply (@signature_tokens Small.packages Original
           (new_Lexer (lit "foo(a, b=1)")) (lit "foo") es
           (mkRange 1 7 (lit "a, b=1")) ([], false)).
  - reflexivity.
  - discriminate.
  - vm_compute; reflexivity.
  - discriminate.
  - repeat constructor; try discriminate; simpl; try reflexivity.
    exists ([], false). repeat split.
  - vm_compute; reflexivity.
  - vm_compute; reflexivity.
  - vm_compute; reflexivity.
  - vm_compute; reflexivity.
  - vm_compute; reflexivity.
Defined.

(** ** Errors in an attribute list *)

(** What the attribute loop throws, [attrs] throws. *)
Lemma attrs_loop_Throw `{P : Packages} (rev : Revision) (lx : Lexer)
    (attrStr rest : str) (range : Range) (st : State) (e : Thrown) :
  input lx = chr "(" :: attrStr ++ chr ")" :: rest ->
  parseUntil (input lx) (chr ")") 1 = inr range ->
  r_end range = S (length attrStr) ->
  parse attrStr = inr st -> isNesting st = false ->
  (forall a, loc a = LocKey -> key a = [] -> quote a = None ->
             attribute_loop rev attrStr a = Throw e) ->
  attrs rev lx = Throw e.
Proof.
  intros Hin Hpu Hend Hparse Hnest Hloop.
  set (lx1 := push (tokenize lx "start-attributes" Undefined) lx).
  assert (Hattr : substr 1 (r_end range - 1) (input lx) = attrStr).
  { unfold substr. rewrite Hin, Hend. simpl. rewrite Nat.sub_0_r, drop_0.
    by rewrite take_app_length. }
  assert (H0 : input lx !! 0%nat = Some (chr "(")) by (by rewrite Hin).
  unfold attrs, bracketExpression. fold lx1.
  replace (input lx1) with (input lx) by done.
  rewrite !H0. change (is_chr_opt "(" (Some (chr "("))) with true.
  change (0 + 1)%nat with 1%nat.
  cbn [mbind result_bind]. rewrite Hpu.
  cbn [mbind result_bind]. rewrite Hattr.
  unfold checkNesting. rewrite Hparse, Hnest.
  cbn [mbind result_bind]. by rewrite Hloop.
Qed.

(** X15. In an attribute list, a [!] after a name must be followed by
    [=]: when anything else follows, or nothing, [attrs] throws
    "unexpected character", naming what follows. *)
Theorem bang_without_equals `{P : Packages} (rev : Revision) (lx : Lexer)
    (pad name tl rest : str) (range : Range) (st : State) :
  forallb js_space pad = true ->
  name <> [] -> forallb name_char name = true ->
  head tl <> Some (chr "=") ->
  input lx = chr "(" :: (pad ++ name ++ chr "!" :: tl) ++ chr ")" :: rest ->
  parseUntil (input lx) (chr ")") 1 = inr range ->
  r_end range = S (length (pad ++ name ++ chr "!" :: tl)) ->
  parse (pad ++ name ++ chr "!" :: tl) = inr st -> isNesting st = false ->
  attrs rev lx = Throw (UnexpectedExpectedEq (head tl)).
Proof.
  intros Hpad Hne Hname Htl Hin Hpu Hend Hparse Hnest.
  apply (attrs_loop_Throw rev lx (pad ++ name ++ chr "!" :: tl) rest range st);
    try done.
  intros a Hloc Hkey _.
  destruct (loop_pad rev pad (name ++ chr "!" :: tl) a Hpad Hloc)
    as (a0 & -> & Hloc0 & Hkey0 & _).
  { rewrite Hkey. by exists []. }
  destruct (loop_name rev name (chr "!" :: tl) a0 [] Hname Hloc0 Hkey0)
    as (a1 & -> & Hloc1 & Hkey1 & _).
  simpl in Hkey1.
  destruct (key_of_nonempty _ _ Hkey1 Hne) as [Htrim Hnil].
  destruct a1 as [lx1 q esc key v st1 ll cba cbv l]. simpl in *. subst l.
  unfold attribute_turn, isEndOfAttribute. simpl.
  rewrite Htrim. simpl. unfold attribute_char. simpl. rewrite Hnil. simpl.
  destruct tl as [|d tl']; simpl; [done|].
  destruct (is_chr "=" d) eqn:Hd; [|done].
  apply N.eqb_eq in Hd as ->. done.
Qed.

Lemma bang_without_equals_witness :
  @attrs Small.packages Later (new_Lexer (lit "(a!b)"))
  = Throw (UnexpectedExpectedEq (Some (chr "b"))).
Proof.
  apply (@bang_without_equals Small.packages Later (new_Lexer (lit "(a!b)"))
           [] (lit "a") (lit "b") [] (mkRange 1 4 (lit "a!b")) ([], false)).
  - reflexivity.
  - discriminate.
  - vm_compute; reflexivity.
  - discriminate.
  - vm_compute; reflexivity.
  - vm_compute; reflexivity.
  - vm_compute; reflexivity.
  - vm_compute; reflexivity.
  - vm_compute; reflexivity.
Defined.

Lemma isEndOfAttribute_quoted `{P : Packages} (c : char) (r : str)
    (a : AttrState) :
  loc a = LocKeyChar ->
  exists a2, isEndOfAttribute (c :: r) a = Ok (false, a2)
             /\ loc a2 = LocKeyChar /\ quote a2 = quote a.
Proof.
  intros Hloc. unfold isEndOfAttribute.
  destruct (str_eqb (trim (key a)) []); [by eexists|].
  rewrite Hloc. by eexists.
Qed.

Lemma new_line_check_quoted `{P : Packages} (c : option char)
    (a : AttrState) :
  loc (new_line_check c a) = loc a /\ quote (new_line_check c a) = quote a.
Proof. unfold new_line_check, with_this. by repeat case_match. Qed.

(** Inside a quoted key every character but the quote is read into the
    key. *)
Lemma turn_quoted_char `{P : Packages} (rev : Revision) (c q : char)
    (r : str) (a : AttrState) :
  loc a = LocKeyChar -> quote a = Some q -> c <> q ->
  exists a1, attribute_turn rev (c :: r) a = Ok (a1, false)
             /\ loc a1 = LocKeyChar /\ quote a1 = Some q.
Proof.
  intros Hloc Hq Hc.
  destruct (isEndOfAttribute_quoted c r a Hloc) as (a2 & Hend & Hl2 & Hq2).
  unfold attribute_turn. rewrite Hend. cbn [mbind result_bind].
  unfold attribute_char. rewrite Hl2, Hq2, Hq. cbn [head].
  rewrite bool_decide_eq_false_2 by (intros [Heq _]; by simplify_eq).
  cbn [mbind result_bind]. eexists. split; [done|].
  match goal with
  | |- loc (new_line_check ?c0 ?x) = _ /\ _ =>
    destruct (new_line_check_quoted c0 x) as [-> ->]
  end.
  done.
Qed.

Lemma loop_quoted_key `{P : Packages} (rev : Revision) (q d : char)
    (k tl : str) (a : AttrState) :
  loc a = LocKeyChar -> quote a = Some q -> (q ∉ k) ->
  one_of " ,!=" d || N.eqb d LF || N.eqb d TAB = false ->
  attribute_loop rev (k ++ q :: d :: tl) a = Throw (UnexpectedAfterQuote d).
Proof.
  intros Hloc Hq Hk Hd. revert a Hloc Hq.
  induction k as [|c k IH]; intros a Hloc Hq.
  - cbn [app attribute_loop].
    destruct (isEndOfAttribute_quoted q (d :: tl) a Hloc)
      as (a2 & Hend & Hl2 & Hq2).
    unfold attribute_turn. rewrite Hend. cbn [mbind result_bind].
    unfold attribute_char. rewrite Hl2, Hq2, Hq. cbn [head tail].
    rewrite bool_decide_eq_true_2 by done.
    unfold str in *. by rewrite Hd.
  - cbn [app]. destruct (turn_quoted_char rev c q (k ++ q :: d :: tl) a)
      as (a1 & Hturn & Hl1 & Hq1); [done | done | set_solver |].
    cbn [attribute_loop]. rewrite Hturn. cbn [mbind result_bind].
    apply IH; [set_solver | done | done].
Qed.

(** X16. After the closing quote of a quoted attribute name only a
    blank, a comma, [!], [=], a new line or a tab may follow: on any
    other character [attrs] throws "unexpected character" with that
    character. *)
Theorem quoted_key_followed_by `{P : Packages} (rev : Revision) (lx : Lexer)
    (q d : char) (k tl rest : str) (range : Range) (st : State) :
  quoteRe q = true -> (q ∉ k) ->
  one_of " ,!=" d || N.eqb d LF || N.eqb d TAB = false ->
  input lx = chr "(" :: (q :: k ++ q :: d :: tl) ++ chr ")" :: rest ->
  parseUntil (input lx) (chr ")") 1 = inr range ->
  r_end range = S (length (q :: k ++ q :: d :: tl)) ->
  parse (q :: k ++ q :: d :: tl) = inr st -> isNesting st = false ->
  attrs rev lx = Throw (UnexpectedAfterQuote d).
Proof.
  intros Hquote Hk Hd Hin Hpu Hend Hparse Hnest.
  apply (attrs_loop_Throw rev lx (q :: k ++ q :: d :: tl) rest range st);
    try done.
  intros a Hloc Hkey Hq0.
  assert (Hturn : exists a1,
    attribute_turn rev (q :: k ++ q :: d :: tl) a = Ok (a1, false)
    /\ loc a1 = LocKeyChar /\ quote a1 = Some q).
  { unfold attribute_turn, isEndOfAttribute. rewrite Hkey.
    change (str_eqb (trim []) []) with true. cbv iota.
    cbn [mbind result_bind]. unfold attribute_char. cbn [loc key head].
    rewrite Hloc. change (str_eqb [] []) with true.
    cbn [from_option andb]. rewrite Hquote. cbn [mbind result_bind].
    eexists. split; [done|].
    match goal with
    | |- loc (new_line_check ?c0 ?x) = _ /\ _ =>
      destruct (new_line_check_quoted c0 x) as [-> ->]
    end.
    done. }
  destruct Hturn as (a1 & Hturn & Hl1 & Hq1).
  cbn [attribute_loop]. rewrite Hturn. cbn [mbind result_bind].
  by apply loop_quoted_key.
Qed.

Lemma quoted_key_followed_by_witness :
  @attrs Small.packages Later (new_Lexer (lit "('a'b)"))
  = Throw (UnexpectedAfterQuote (chr "b")).
Proof.
  apply (@quoted_key_followed_by Small.packages Later
           (new_Lexer (lit "('a'b)")) (chr "'") (chr "b") (lit "a") [] []
           (mkRange 1 5 (lit "'a'b")) ([], false)).
  - vm_compute; reflexivity.
  - refine (bool_decide_unpack _ _); vm_compute; exact I.
  - vm_compute; reflexivity.
  - vm_compute; reflexivity.
  - vm_compute; reflexivity.
  - vm_compute; reflexivity.
  - vm_compute; reflexivity.
  - vm_compute; reflexivity.
Defined.
